(** * sonarr_youtubedl: title patterns, air-date offsets and the
      reconciliation pass

    A shallow embedding of [app/utils.py] and [app/sonarr_youtubedl.py].

    Conventions.
    - A Python [str] is a [string] holding its UTF-8 encoding.  The two
      characters outside Basic Latin that the sources mention, the en dash
      U+2013 and the typographic apostrophe U+2019, appear as their three
      bytes.  [str.replace] on code points and on well-formed UTF-8 agree,
      because no encoded character is a proper infix of another.
    - A Python [dict] used as a map (the yt-dlp option set, the offset
      specification) is a [gmap string _]; JSON objects with a fixed shape
      (series, episodes, configured entries) are records.
    - Exceptions, log lines and calls to the collaborators are explicit: a
      computation returns an [outcome] together with the events it emitted.
    - Case mapping and the class [\s] are those of Basic Latin.  Python
      maps cased letters outside it as well (e-acute, sharp s) and counts
      U+00A0 and other Unicode spaces as whitespace; what is stated about
      such titles does not depend on either. *)

From Stdlib Require Import ZArith Ascii String List Bool Lia DecimalString.
From stdpp Require Import base decidable option list strings gmap fin_maps.

Open Scope string_scope.
Open Scope Z_scope.

(** ** Strings *)

Module Str.

(** [old] is a prefix of [s]. *)
Fixpoint startswith (old s : string) : bool :=
  match old, s with
  | EmptyString, _ => true
  | String a old', String b s' => if Ascii.eqb a b then startswith old' s' else false
  | String _ _, EmptyString => false
  end.

(** Left-to-right scan of [str.replace] for a non-empty [old]: [skip] counts
    the characters of the current occurrence that are still to be dropped. *)
Fixpoint replace_go (old new : string) (skip : nat) (s : string) : string :=
  match s with
  | EmptyString => EmptyString
  | String c s' =>
      match skip with
      | S k => replace_go old new k s'
      | O =>
          if startswith old s
          then new ++ replace_go old new (Nat.pred (String.length old)) s'
          else String c (replace_go old new O s')
      end
  end.

(** With an empty [old], Python puts [new] before every character and at
    the end. *)
Fixpoint intersperse (new s : string) : string :=
  match s with
  | EmptyString => new
  | String c s' => new ++ String c (intersperse new s')
  end.

(** [s.replace(old, new)]: every non-overlapping occurrence, leftmost first. *)
Definition replace (old new s : string) : string :=
  match old with
  | EmptyString => intersperse new s
  | String _ _ => replace_go old new O s
  end.

Definition upper_ascii (c : ascii) : ascii :=
  let n := nat_of_ascii c in
  if (Nat.leb 97 n && Nat.leb n 122)%bool then ascii_of_nat (n - 32)%nat else c.

(** [s.upper()] on Basic Latin; bytes of other characters are kept (the
    Unicode case table is not part of this repository). *)
Fixpoint upper (s : string) : string :=
  match s with
  | EmptyString => EmptyString
  | String c s' => String (upper_ascii c) (upper s')
  end.

(** [needle in s]. *)
Fixpoint contains (needle s : string) : bool :=
  match s with
  | EmptyString => startswith needle EmptyString
  | String _ s' => startswith needle s || contains needle s'
  end.

Definition space : ascii := " "%char.

(** The first character, if any. *)
Definition first (s : string) : option ascii :=
  match s with
  | EmptyString => None
  | String a _ => Some a
  end.

End Str.

(** ** utils.py *)

Definition bs : string := String (ascii_of_nat 92) EmptyString.
Definition en_dash : string := "–".
Definition curly_apostrophe : string := "’".

(** [upperescape(string)], statement by statement. *)
Definition upperescape (string0 : string) : string :=
  let s := Str.upper string0 in
  let s := Str.replace en_dash "-" s in
  let s := Str.replace "(" (bs ++ "(") s in
  let s := Str.replace ")" (bs ++ ")") s in
  let s := Str.replace ":" "([:]?)" s in
  let s := Str.replace "'" ("(['" ++ curly_apostrophe ++ "]?)") s in
  let s := Str.replace "," "([,]?)" s in
  let s := Str.replace "!" "([!]?)" s in
  let s := Str.replace (bs ++ "?") ("([" ++ bs ++ "?]?)") s in
  let s := Str.replace (bs ++ ".") ("([" ++ bs ++ ".]?)") s in
  let s := Str.replace (bs ++ " AND" ++ bs ++ " ") (bs ++ " (AND|&)" ++ bs ++ " ") s in
  let s := Str.replace "-" ("([-" ++ en_dash ++ "]??)") s in
  (* re.sub("S\\\\", "([']?)S\\\\", s): the pattern is the two characters
     S and backslash, the template expands to ([']?)S and one backslash. *)
  let s := Str.replace ("S" ++ bs) ("([']?)S" ++ bs) s in
  let s := Str.replace " " (bs ++ "s*") s in
  s.


(** ** The title match of yt-dlp

    yt-dlp tests the ["matchtitle"] option with
    [re.search(matchtitle, title, re.IGNORECASE)].  This is Python's
    regular expression language as far as [upperescape] writes it: literal
    characters, [.], [\s], escaped punctuation, groups, [|], character
    classes without ranges, and the quantifiers [?], [*], [??], [*?].
    A pattern outside this fragment is not compiled ([None]).  Matching is
    on the UTF-8 bytes, a character of several bytes being one unit. *)

Module Re.

Inductive re :=
  | Nothing
  | Eps
  | Bytes (ranges : list (nat * nat))
  | Seq (r1 r2 : re)
  | Alt (r1 r2 : re)
  | Star (r : re).

Definition byte (n : nat) : re := Bytes [(n, n)].
Definition opt (r : re) : re := Alt r Eps.

(** A continuation byte, and one whole character other than a newline. *)
Definition cont : re := Bytes [(128, 191)]%nat.
Definition any_char : re :=
  Alt (Bytes [(0, 9); (11, 127)]%nat)
    (Alt (Seq (Bytes [(192, 223)]%nat) cont)
       (Alt (Seq (Bytes [(224, 239)]%nat) (Seq cont cont))
          (Seq (Bytes [(240, 247)]%nat) (Seq cont (Seq cont cont))))).

(** [\s] on Basic Latin: tab to carriage return, the four separators and
    the space. *)
Definition whitespace : re := Bytes [(9, 13); (28, 32)]%nat.

Definition code (c : ascii) : nat := nat_of_ascii (Str.upper_ascii c).

Fixpoint literal (s : string) : re :=
  match s with
  | EmptyString => Eps
  | String c EmptyString => byte (code c)
  | String c s' => Seq (byte (code c)) (literal s')
  end.

(** The number of bytes of the character that starts with [c]; 0 for a
    byte that starts none. *)
Definition width (c : ascii) : nat :=
  let n := nat_of_ascii c in
  if Nat.ltb n 128 then 1
  else if Nat.ltb n 192 then 0
  else if Nat.ltb n 224 then 2
  else if Nat.ltb n 240 then 3
  else if Nat.ltb n 248 then 4
  else 0.

Fixpoint take (n : nat) (s : string) : option (string * string) :=
  match n with
  | O => Some (EmptyString, s)
  | S k =>
      match s with
      | EmptyString => None
      | String c s' =>
          match take k s' with
          | Some (a, b) => Some (String c a, b)
          | None => None
          end
      end
  end.

(** The first character of [s] and what follows it. *)
Definition next_char (s : string) : option (string * string) :=
  match s with
  | EmptyString => None
  | String c _ => match width c with O => None | n => take n s end
  end.

Definition is_alnum (c : ascii) : bool :=
  let n := nat_of_ascii c in
  (Nat.leb 48 n && Nat.leb n 57) || (Nat.leb 65 n && Nat.leb n 90)
  || (Nat.leb 97 n && Nat.leb n 122).

Definition one_of (cs : string) (c : ascii) : bool :=
  Str.contains (String c EmptyString) cs.

(** The members of a class up to its closing bracket; a range, a negation
    and a bracket among the members are outside the fragment. *)
Fixpoint parse_class (fuel : nat) (at_start : bool) (s : string) (acc : re)
  : option (re * string) :=
  match fuel with
  | O => None
  | S fuel' =>
      match s with
      | EmptyString => None
      | String c s' =>
          if Ascii.eqb c "]" then (if at_start then None else Some (acc, s'))
          else if Ascii.eqb c "^" && at_start then None
          else if Ascii.eqb c "[" then None
          else if Ascii.eqb c "-" then
            match s' with
            | String d _ =>
                if at_start || Ascii.eqb d "]"
                then parse_class fuel' false s' (Alt acc (byte (code c)))
                else None
            | EmptyString => None
            end
          else if Ascii.eqb c (ascii_of_nat 92) then
            match s' with
            | String d s'' =>
                if is_alnum d then None
                else parse_class fuel' false s'' (Alt acc (byte (code d)))
            | EmptyString => None
            end
          else
            match next_char s with
            | Some (ch, rest) => parse_class fuel' false rest (Alt acc (literal ch))
            | None => None
            end
      end
  end.

(** [?] and [*] behind an atom, each with an optional [?] that makes it
    lazy; laziness chooses among matches and does not change whether there
    is one.  A second quantifier is an error in Python. *)
Definition quantified (r : re) (s : string) : option (re * string) :=
  let lazy (s : string) :=
    match s with
    | String c s' => if Ascii.eqb c "?" then s' else s
    | EmptyString => s
    end in
  let done (r : re) (s : string) :=
    match s with
    | String c _ => if one_of "?*+{" c then None else Some (r, s)
    | EmptyString => Some (r, s)
    end in
  match s with
  | String c s' =>
      if Ascii.eqb c "?" then done (opt r) (lazy s')
      else if Ascii.eqb c "*" then done (Star r) (lazy s')
      else if one_of "+{" c then None
      else Some (r, s)
  | EmptyString => Some (r, s)
  end.

Fixpoint parse_alt (fuel : nat) (s : string) : option (re * string) :=
  match fuel with
  | O => None
  | S fuel' =>
      match parse_seq fuel' s with
      | Some (r1, String c rest) =>
          if Ascii.eqb c "|"
          then match parse_alt fuel' rest with
               | Some (r2, rest') => Some (Alt r1 r2, rest')
               | None => None
               end
          else Some (r1, String c rest)
      | other => other
      end
  end
with parse_seq (fuel : nat) (s : string) : option (re * string) :=
  match fuel with
  | O => None
  | S fuel' =>
      match s with
      | EmptyString => Some (Eps, s)
      | String c s' =>
          if one_of "|)" c then Some (Eps, s)
          else
            match parse_atom fuel' s with
            | Some (r, rest) =>
                match quantified r rest with
                | Some (r', rest') =>
                    match parse_seq fuel' rest' with
                    | Some (r2, rest'') => Some (Seq r' r2, rest'')
                    | None => None
                    end
                | None => None
                end
            | None => None
            end
      end
  end
with parse_atom (fuel : nat) (s : string) : option (re * string) :=
  match fuel with
  | O => None
  | S fuel' =>
      match s with
      | EmptyString => None
      | String c s' =>
          if Ascii.eqb c "(" then
            match s' with
            | String d _ =>
                if Ascii.eqb d "?" then None
                else
                  match parse_alt fuel' s' with
                  | Some (r, String e rest) =>
                      if Ascii.eqb e ")" then Some (r, rest) else None
                  | _ => None
                  end
            | EmptyString => None
            end
          else if Ascii.eqb c "[" then parse_class fuel' true s' Nothing
          else if Ascii.eqb c (ascii_of_nat 92) then
            match s' with
            | String d s'' =>
                if Ascii.eqb d "s" then Some (whitespace, s'')
                else if is_alnum d then None
                else Some (byte (code d), s'')
            | EmptyString => None
            end
          else if Ascii.eqb c "." then Some (any_char, s')
          else if one_of "?*+{}^$]" c then None
          else
            match next_char s with
            | Some (ch, rest) => Some (literal ch, rest)
            | None => None
            end
      end
  end.

Definition compile (pattern : string) : option re :=
  match parse_alt (4 * S (String.length pattern)) pattern with
  | Some (r, EmptyString) => Some r
  | _ => None
  end.

Fixpoint nullable (r : re) : bool :=
  match r with
  | Nothing => false
  | Eps => true
  | Bytes _ => false
  | Seq r1 r2 => nullable r1 && nullable r2
  | Alt r1 r2 => nullable r1 || nullable r2
  | Star _ => true
  end.

Definition in_ranges (n : nat) (ranges : list (nat * nat)) : bool :=
  existsb (fun '(lo, hi) => Nat.leb lo n && Nat.leb n hi) ranges.

(** What is left of [r] behind the byte [n]. *)
Fixpoint deriv (n : nat) (r : re) : re :=
  match r with
  | Nothing => Nothing
  | Eps => Nothing
  | Bytes ranges => if in_ranges n ranges then Eps else Nothing
  | Seq r1 r2 =>
      if nullable r1
      then Alt (Seq (deriv n r1) r2) (deriv n r2)
      else Seq (deriv n r1) r2
  | Alt r1 r2 => Alt (deriv n r1) (deriv n r2)
  | Star r1 => Seq (deriv n r1) (Star r1)
  end.

(** Some prefix of [s] matches [r]; letters compare by their upper case. *)
Fixpoint match_here (r : re) (s : string) : bool :=
  nullable r ||
  match s with
  | EmptyString => false
  | String c s' => match_here (deriv (code c) r) s'
  end.

Fixpoint match_anywhere (r : re) (s : string) : bool :=
  match_here r s ||
  match s with
  | EmptyString => false
  | String _ s' => match_anywhere r s'
  end.

(** [re.search(pattern, title, re.IGNORECASE) is not None]. *)
Definition search (pattern title : string) : option bool :=
  match compile pattern with
  | Some r => Some (match_anywhere r title)
  | None => None
  end.

End Re.

(** ** Exceptions and datetime arithmetic *)

Inductive exn :=
  | TypeError | AttributeError | KeyError | ValueError | OverflowError
  | ReError
  | External (what : string).

Inductive outcome (A : Type) :=
  | Ret (a : A)
  | Raise (e : exn).
Arguments Ret {A} a.
Arguments Raise {A} e.

Module Datetime.

(** A naive [datetime] is the number of microseconds since
    0001-01-01T00:00:00; [datetime.max] is the last microsecond of
    9999-12-31, whose proleptic ordinal is 3652059. *)
Definition us_per_minute : Z := 60 * 1000000.
Definition us_per_hour : Z := 60 * us_per_minute.
Definition us_per_day : Z := 24 * us_per_hour.
Definition us_per_week : Z := 7 * us_per_day.
Definition end_of_time : Z := 3652059 * us_per_day.

Definition valid (t : Z) : Prop := 0 <= t < end_of_time.

(** [datetime.timedelta(weeks=, days=, hours=, minutes=)] as microseconds. *)
Definition timedelta (weeks days hours minutes : Z) : Z :=
  weeks * us_per_week + days * us_per_day + hours * us_per_hour + minutes * us_per_minute.

(** [t + delta]: [OverflowError] when the sum leaves the representable
    years.  A [timedelta] beyond 999999999 days is refused by its own
    constructor with the same exception, and every such delta also takes a
    valid [t] out of range, so one test covers both. *)
Definition add (t delta : Z) : outcome Z :=
  if (0 <=? t + delta) && (t + delta <? end_of_time) then Ret (t + delta)
  else Raise OverflowError.

End Datetime.

(** [int(offset[k])] when [k in offset], else the initial 0.  The offset
    fields are integers, on which [int] is the identity. *)
Definition offset_field (k : string) (offset : gmap string Z) : Z :=
  match offset !! k with
  | Some v => v
  | None => 0
  end.

Definition offset_delta (offset : gmap string Z) : Z :=
  let weeks := offset_field "weeks" offset in
  let days := offset_field "days" offset in
  let hours := offset_field "hours" offset in
  let minutes := offset_field "minutes" offset in
  Datetime.timedelta weeks days hours minutes.

(** [offsethandler(airdate, offset)]. *)
Definition offsethandler (airdate : Z) (offset : gmap string Z) : outcome Z :=
  Datetime.add airdate (offset_delta offset).

(** The specification with one field only, as far as [offset] gives it. *)
Definition only_field (k : string) (offset : gmap string Z) : gmap string Z :=
  match offset !! k with
  | Some v => {[ k := v ]}
  | None => ∅
  end.

(** ** Events, outcomes and the collaborators *)

Inductive level := DEBUG | INFO | WARNING | ERROR | CRITICAL.

Inductive hook := ytdl_hooks | ytdl_hooks_debug.

(** Values stored in a yt-dlp option set. *)
Inductive val :=
  | VBool (b : bool)
  | VStr (s : string)
  | VStrs (l : list string)
  | VHooks (l : list hook)
  | VLogger
  | VPostprocessors (l : list (gmap string string)).

(** What a run leaves behind, in order: the calls of the logger methods,
    the calls of the REST wrappers and of yt-dlp, and shell commands.
    [GetSeries], [GetEpisodes] and [RescanSeries] each stand for one whole
    call of [get_series], [get_episodes_by_series_id] and [rescanseries]:
    the request together with the lines that the wrapper and [request_get]
    or [request_put] hand to [logger.debug] before they send it, which
    spell out the URL.  Those debug lines are not events of their own;
    every other call of a logger method made by the functions embedded
    here is. *)
Inductive event :=
  | Log (lvl : level) (msg : string)
  | LogOpts (lvl : level) (opts : gmap string val)
  | LogException (msg : string) (e : exn)
  | GetSeries
  | GetEpisodes (series_id : Z)
  | RescanSeries (series_id : Z)
  | ExtractInfo (opts : gmap string val) (url : string)
  | Download (opts : gmap string val) (urls : list string)
  | System (command : string).

(** A computation's result and its trace. *)
Definition M (A : Type) : Type := outcome A * list event.

Definition ret {A} (a : A) : M A := (Ret a, []).
Definition raise {A} (e : exn) : M A := (Raise e, []).
Definition lift {A} (o : outcome A) : M A := (o, []).
Definition emit (ev : event) : M unit := (Ret tt, [ev]).

Definition bind {A B} (m : M A) (f : A -> M B) : M B :=
  match m with
  | (Ret a, tr) => let '(r, tr') := f a in (r, (tr ++ tr')%list)
  | (Raise e, tr) => (Raise e, tr)
  end.

(** [try: m  except Exception: h]. *)
Definition try_except {A} (m : M A) (h : exn -> M A) : M A :=
  match m with
  | (Ret a, tr) => (Ret a, tr)
  | (Raise e, tr) => let '(r, tr') := h e in (r, (tr ++ tr')%list)
  end.

Notation "'let!' x ':=' m 'in' k" := (bind m (fun x => k))
  (at level 10, x pattern, m at level 100, k at level 200).
Notation "m ';;;' k" := (bind m (fun _ => k))
  (at level 100, k at level 200, right associativity).

(** [for x in xs: body x], stopping at the first exception. *)
Fixpoint for_each {A} (xs : list A) (body : A -> M unit) : M unit :=
  match xs with
  | [] => ret tt
  | x :: xs' => body x ;;; for_each xs' body
  end.

(** [for i, x in enumerate(xs)], counting from [i]. *)
Fixpoint for_enumerate {A} (i : Z) (xs : list A) (body : Z -> A -> M unit) : M unit :=
  match xs with
  | [] => ret tt
  | x :: xs' => body i x ;;; for_enumerate (i + 1) xs' body
  end.

(** [d[k]] on a key that may be absent. *)
Definition getitem {A} (o : option A) : outcome A :=
  match o with
  | Some a => Ret a
  | None => Raise KeyError
  end.

(** [str(n)] and [format(n, "02d")]. *)
Definition str_of_Z (n : Z) : string := NilZero.string_of_int (Z.to_int n).

Definition fmt_02d (n : Z) : string :=
  let s := str_of_Z n in
  if Nat.ltb (String.length s) 2 then "0" ++ s else s.

(** [list.remove(x)]: drops the first element equal to [x]. *)
Fixpoint list_remove_first {A} `{EqDecision A} (x : A) (l : list A) : list A :=
  match l with
  | [] => []
  | y :: l' => if decide (y = x) then l' else y :: list_remove_first x l'
  end.

(** ** Records *)

Record regex_rule := { rx_match : string; rx_replace : string }.

Record regex_cfg := { rx_sonarr : option regex_rule; rx_site : option regex_rule }.

Record subtitles_cfg := {
  sub_languages : option (list string);
  sub_autogenerated : option bool }.

(** A YAML scalar where the code compares it with a string. *)
Inductive scalar := SBool (b : bool) | SStr (s : string).

(** An entry of the configured [series] list; [None] is an absent key. *)
Record wanted := {
  w_title : string;
  w_url : string;
  w_regex : option regex_cfg;
  w_offset : option (gmap string Z);
  w_cookies_file : option string;
  w_format : option string;
  w_playlistreverse : option scalar;
  w_subtitles : option subtitles_cfg;
  w_preprend_with_title : option scalar }.

(** A series object of the media manager, with the keys [filterseries]
    adds to it; [None] is an absent key. *)
Record series := {
  ser_id : Z;
  ser_title : string;
  ser_path : string;
  ser_monitored : bool;
  ser_subtitles : option bool;
  ser_playlistreverse : option bool;
  ser_subtitles_languages : option (list string);
  ser_subtitles_autogenerated : option bool;
  ser_sonarr_regex_match : option string;
  ser_sonarr_regex_replace : option string;
  ser_site_regex_match : option string;
  ser_site_regex_replace : option string;
  ser_offset : option (gmap string Z);
  ser_cookies_file : option string;
  ser_format : option string;
  ser_url : option string;
  ser_preprend_with_title : option bool }.

Record episode := {
  eps_id : Z;
  eps_seriesId : Z;
  eps_title : string;
  eps_seasonNumber : Z;
  eps_episodeNumber : Z;
  eps_airDateUtc : option string;
  eps_monitored : bool;
  eps_hasFile : bool }.

#[global] Instance regex_rule_eq_dec : EqDecision regex_rule.
Proof. solve_decision. Defined.
#[global] Instance series_eq_dec : EqDecision series.
Proof. solve_decision. Defined.
#[global] Instance episode_eq_dec : EqDecision episode.
Proof. solve_decision. Defined.

(** What [extract_info] hands back: [None], or a dictionary of which the
    code reads [entries] and [webpage_url]. *)
Record entry := { entry_webpage_url : option string }.

Inductive info :=
  | InfoNone
  | InfoDict (entries : option (list (option entry))) (webpage_url : option string).

(** The collaborators and the process-wide constants.  Within one pass a
    collaborator answers a request by its arguments.  [now] is the module
    constant [now = datetime.now()], set once when the module is loaded, so
    it is not later than the start of any pass.  What yt-dlp itself writes
    to the log, through the logger object and the progress hooks it is
    handed, is its own output and is not part of a trace. *)
Record Env := {
  now : Z;
  CONFIGPATH : string;
  strptime : string -> outcome Z;
  re_sub : string -> string -> string -> outcome string;
  abspath : string -> string;
  path_exists : string -> bool;
  get_series : outcome (list series);
  get_episodes_by_series_id : Z -> outcome (list episode);
  rescanseries : Z -> outcome unit;
  extract_info : gmap string val -> string -> outcome info;
  ydl_download : gmap string val -> list string -> outcome unit }.

(** The attributes [__init__] reads from the configuration file. *)
Record SonarrYTDL := {
  debug : bool;
  ytdl_format : string;
  ytdl_merge_output_format : string;
  wanted_series : list wanted }.

(** ** sonarr_youtubedl.py: the series configuration resolver *)

(** The assignments [filterseries] makes to [ser] for one configured entry
    whose title matches. *)
Definition apply_wanted (wnt : wanted) (ser : series) : series :=
  let sonarr_rule := match w_regex wnt with Some r => rx_sonarr r | None => None end in
  let site_rule := match w_regex wnt with Some r => rx_site r | None => None end in
  let keep {A} (new old : option A) : option A :=
    match new with Some a => Some a | None => old end in
  {| ser_id := ser_id ser;
     ser_title := ser_title ser;
     ser_path := ser_path ser;
     ser_monitored := ser_monitored ser;
     ser_subtitles :=
       Some (match w_subtitles wnt with Some _ => true | None => false end);
     ser_playlistreverse :=
       Some (match w_playlistreverse wnt with
             | Some (SStr v) => negb (String.eqb v "False")
             | _ => true
             end);
     ser_subtitles_languages :=
       Some (match w_subtitles wnt with
             | Some {| sub_languages := Some l |} => l
             | _ => ["en"]
             end);
     ser_subtitles_autogenerated :=
       Some (match w_subtitles wnt with
             | Some {| sub_autogenerated := Some b |} => b
             | _ => false
             end);
     ser_sonarr_regex_match := keep (rx_match <$> sonarr_rule) (ser_sonarr_regex_match ser);
     ser_sonarr_regex_replace := keep (rx_replace <$> sonarr_rule) (ser_sonarr_regex_replace ser);
     ser_site_regex_match := keep (rx_match <$> site_rule) (ser_site_regex_match ser);
     ser_site_regex_replace := keep (rx_replace <$> site_rule) (ser_site_regex_replace ser);
     ser_offset := keep (w_offset wnt) (ser_offset ser);
     ser_cookies_file := keep (w_cookies_file wnt) (ser_cookies_file ser);
     ser_format := keep (w_format wnt) (ser_format ser);
     ser_url := Some (w_url wnt);
     ser_preprend_with_title :=
       Some (match w_preprend_with_title wnt with Some _ => true | None => false end) |}.

(** The inner loop over the configured entries for one remote series.  Each
    hit mutates the same [ser] object and appends it once more to [matched],
    so every copy in [matched] shows the state after the last hit: the loop
    returns that state and the number of hits. *)
Fixpoint match_wanted (wnts : list wanted) (ser : series) (hits : nat) : series * nat :=
  match wnts with
  | [] => (ser, hits)
  | wnt :: wnts' =>
      if String.eqb (w_title wnt) (ser_title ser)
      then match_wanted wnts' (apply_wanted wnt ser) (S hits)
      else match_wanted wnts' ser hits
  end.

Definition matched_of (wnts : list wanted) (series0 : list series) : list series :=
  flat_map (fun ser => let '(ser', hits) := match_wanted wnts ser O in replicate hits ser') series0.

(** The warning loop formats [ser], the variable the first loop left
    behind, not [check]. *)
Definition leftover_title (series0 : list series) : string :=
  match last series0 with
  | Some ser => ser_title ser
  | None => ""
  end.

Definition filterseries (self : SonarrYTDL) (env : Env) : M (list series) :=
  emit GetSeries ;;;
  let! series0 := lift (get_series env) in
  let matched := matched_of (wanted_series self) series0 in
  for_each matched (fun check =>
    if negb (ser_monitored check)
    then emit (Log WARNING (leftover_title series0 ++ " is not currently monitored"))
    else ret tt) ;;;
  ret matched.

(** ** The episode need filter *)

Definition set_eps_title (eps : episode) (t : string) : episode :=
  {| eps_id := eps_id eps; eps_seriesId := eps_seriesId eps; eps_title := t;
     eps_seasonNumber := eps_seasonNumber eps; eps_episodeNumber := eps_episodeNumber eps;
     eps_airDateUtc := eps_airDateUtc eps; eps_monitored := eps_monitored eps;
     eps_hasFile := eps_hasFile eps |}.

(** [eps_date] as the loop body computes it before its test. *)
Definition eps_date_of (env : Env) (ser : series) (eps : episode) : outcome Z :=
  match eps_airDateUtc eps with
  | None => Ret (now env)
  | Some text =>
      match strptime env text with
      | Raise e => Raise e
      | Ret d =>
          match ser_offset ser with
          | Some offset => offsethandler d offset
          | None => Ret d
          end
      end
  end.

(** [not eps["monitored"] or eps["hasFile"] or eps_date > now]. *)
Definition excluded (env : Env) (eps : episode) (eps_date : Z) : bool :=
  negb (eps_monitored eps) || eps_hasFile eps || (now env <? eps_date).

(** The title rewrite of a kept episode. *)
Definition rewrite_title (env : Env) (ser : series) (eps : episode) : outcome episode :=
  match ser_sonarr_regex_match ser with
  | None => Ret eps
  | Some pat =>
      match getitem (ser_sonarr_regex_replace ser) with
      | Raise e => Raise e
      | Ret repl =>
          match re_sub env pat repl (eps_title eps) with
          | Raise e => Raise e
          | Ret t => Ret (set_eps_title eps t)
          end
      end
  end.

(** The loop over [episodes[:]].  The list object [episodes] is
    [visited ++ rest]: [rest] are the objects not yet reached, the current
    one first, and [visited] is what the earlier iterations left in front
    of them.  [episodes.remove(eps)] searches from the front, so it looks
    through [visited] before it reaches the current object. *)
Fixpoint episodes_loop (env : Env) (ser : series) (rest visited needed : list episode)
  : M (list episode * list episode) :=
  match rest with
  | [] => ret (visited, needed)
  | eps :: rest' =>
      let! eps_date := lift (eps_date_of env ser eps) in
      if excluded env eps eps_date
      then episodes_loop env ser rest' (list_remove_first eps (visited ++ [eps])%list) needed
      else
        let! eps' := lift (rewrite_title env ser eps) in
        episodes_loop env ser rest' (visited ++ [eps'])%list (needed ++ [eps'])%list
  end.

Definition log_missing (ser : series) (episodes : list episode) : M unit :=
  emit (Log INFO (ser_title ser ++ " missing "
                  ++ str_of_Z (Z.of_nat (length episodes)) ++ " episodes")) ;;;
  for_enumerate 0 episodes (fun i e =>
    emit (Log INFO ("  " ++ str_of_Z (i + 1) ++ ": " ++ ser_title ser ++ " - " ++ eps_title e))).

(** The loop over [series[:]]; [series0] is the list object the caller
    passed, which [series.remove(ser)] shortens in place. *)
Fixpoint series_loop (env : Env) (copy series0 : list series) (needed : list episode)
  : M (list series * list episode) :=
  match copy with
  | [] => ret (series0, needed)
  | ser :: copy' =>
      emit (GetEpisodes (ser_id ser)) ;;;
      let! episodes := lift (get_episodes_by_series_id env (ser_id ser)) in
      let! (episodes', needed') := episodes_loop env ser episodes [] needed in
      if Nat.eqb (length episodes') 0
      then
        emit (Log INFO (ser_title ser ++ " no episodes needed")) ;;;
        series_loop env copy' (list_remove_first ser series0) needed'
      else
        log_missing ser episodes' ;;;
        series_loop env copy' series0 needed'
  end.

(** [getseriesepisodes(series)]: the caller's list after the call, and the
    returned [needed]. *)
Definition getseriesepisodes (env : Env) (series0 : list series)
  : M (list series * list episode) :=
  series_loop env series0 series0 [].

(** ** Cookies, formats and the catalog search *)

(** [ytdlopts.update({k: v})] *)
Definition update1 (k : string) (v : val) (opts : gmap string val) : gmap string val :=
  <[k := v]> opts.

Definition appendcookie (env : Env) (ytdlopts : gmap string val) (cookies : option string)
  : M (gmap string val) :=
  match cookies with
  | Some c =>
      let cookie_path := abspath env (CONFIGPATH env ++ c) in
      let cookie_exists := path_exists env cookie_path in
      let! ytdlopts :=
        (if cookie_exists
         then emit (Log DEBUG ("  Cookies file used: " ++ cookie_path)) ;;;
              ret (update1 "cookiefile" (VStr cookie_path) ytdlopts)
         else ret ytdlopts) in
      (if negb cookie_exists
       then emit (Log WARNING "  cookie files specified but doesnt exist.")
       else ret tt) ;;;
      ret ytdlopts
  | None => ret ytdlopts
  end.

Definition customformat (ytdlopts : gmap string val) (fmt : option string) : gmap string val :=
  match fmt with
  | Some f => update1 "format" (VStr f) ytdlopts
  | None => ytdlopts
  end.

Definition ytdl_eps_search_opts (self : SonarrYTDL) (env : Env)
    (regextitle : string) (playlistreverse : bool) (cookies : option string)
  : M (gmap string val) :=
  let ytdlopts : gmap string val :=
    {[ "ignoreerrors" := VBool true;
       "playlistreverse" := VBool playlistreverse;
       "matchtitle" := VStr regextitle;
       "quiet" := VBool true ]} in
  let ytdlopts :=
    if debug self
    then update1 "quiet" (VBool false)
           (update1 "logger" VLogger
              (update1 "progress_hooks" (VHooks [ytdl_hooks]) ytdlopts))
    else ytdlopts in
  let! ytdlopts := appendcookie env ytdlopts cookies in
  (if debug self
   then emit (Log DEBUG "Youtube-DL opts used for episode matching") ;;;
        emit (LogOpts DEBUG ytdlopts)
   else ret tt) ;;;
  ret ytdlopts.

(** [entries and entries != [None]] *)
Definition usable_entries (entries : option (list (option entry))) : option (option entry) :=
  match entries with
  | Some [None] => None
  | Some (first :: _) => Some first
  | _ => None
  end.

(** [ytsearch(ydl_opts, playlist)].  The result is what the Python call
    evaluates to: [Some (found, url)] for a returned pair, [None] for the
    value [None] of a body that ends without [return].  The handler of the
    first [try] logs and returns nothing; the rest is its [else] branch. *)
Definition ytsearch (env : Env) (ydl_opts : gmap string val) (playlist : string)
  : M (option (bool * string)) :=
  emit (ExtractInfo ydl_opts playlist) ;;;
  match extract_info env ydl_opts playlist with
  | Raise e =>
      emit (LogException "extract_info failed" e) ;;;
      ret None
  | Ret InfoNone => raise AttributeError
  | Ret (InfoDict entries webpage_url) =>
      let! video_url :=
        match usable_entries entries with
        | Some (Some first) => ret (entry_webpage_url first)
        | Some None =>
            emit (LogException "error getting video_url" AttributeError) ;;;
            ret None
        | None => ret webpage_url
        end in
      match video_url with
      | Some v =>
          if String.eqb playlist v then ret (Some (false, "")) else ret (Some (true, v))
      | None =>
          emit (Log ERROR "No video_url") ;;;
          ret (Some (false, ""))
      end
  end.

(** ** The download orchestrator *)

Definition display_title (ser : series) (eps : episode) : string :=
  match ser_preprend_with_title ser with
  | Some true => ser_title ser ++ " - " ++ eps_title eps
  | _ => eps_title eps
  end.

Definition episode_title_no_colon (eps : episode) : string :=
  Str.replace "  " " " (Str.replace ":" "" (eps_title eps)).

Definition ser_title_no_colon (ser : series) : string :=
  Str.replace ":" "" (ser_title ser).

(** The ["outtmpl"] entry:
    ["/sonarr_root{0}/Season {1}/{2}.S{1}E{3:02d}.{4}.%(ext)s".format(...)]. *)
Definition outtmpl (ser : series) (eps : episode) : string :=
  "/sonarr_root" ++ ser_path ser
  ++ "/Season " ++ str_of_Z (eps_seasonNumber eps)
  ++ "/" ++ ser_title_no_colon ser
  ++ ".S" ++ str_of_Z (eps_seasonNumber eps)
  ++ "E" ++ fmt_02d (eps_episodeNumber eps)
  ++ "." ++ episode_title_no_colon eps
  ++ ".%(ext)s".

Definition subtitle_postprocessors : list (gmap string string) :=
  [ {[ "key" := "FFmpegSubtitlesConvertor"; "format" := "srt" ]};
    {[ "key" := "FFmpegEmbedSubtitle" ]} ].

(** The option set built under [if found:], up to the [try]. *)
Definition ytdl_format_options (self : SonarrYTDL) (env : Env)
    (ser : series) (eps : episode) (cookies : option string)
  : M (gmap string val) :=
  let opts : gmap string val :=
    {[ "format" := VStr (ytdl_format self);
       "quiet" := VBool true;
       "merge_output_format" := VStr (ytdl_merge_output_format self);
       "outtmpl" := VStr (outtmpl ser eps);
       "progress_hooks" := VHooks [ytdl_hooks];
       "noplaylist" := VBool true ]} in
  let! opts := appendcookie env opts cookies in
  let opts :=
    match ser_format ser with
    | Some f => customformat opts (Some f)
    | None => opts
    end in
  let with_subtitles := match ser_subtitles ser with Some true => true | _ => false end in
  let postprocessors := if with_subtitles then subtitle_postprocessors else [] in
  let! opts :=
    (if with_subtitles
     then
       let! langs := lift (getitem (ser_subtitles_languages ser)) in
       ret (update1 "writesubtitles" (VBool true)
             (update1 "allsubtitles" (VBool true)
               (update1 "writeautomaticsub" (VBool true)
                 (update1 "subtitleslangs" (VStrs langs)
                   (update1 "embedsubtitles" (VBool true) opts)))))
     else ret opts) in
  let opts := update1 "postprocessors" (VPostprocessors postprocessors) opts in
  if debug self
  then
    let opts :=
      update1 "quiet" (VBool false)
        (update1 "logger" VLogger
          (update1 "progress_hooks" (VHooks [ytdl_hooks_debug]) opts)) in
    emit (Log DEBUG "Youtube-DL opts used for downloading") ;;;
    emit (LogOpts DEBUG opts) ;;;
    ret opts
  else ret opts.

(** The [try] around the transfer, the rescan and the success line. *)
Definition transfer (env : Env) (ser : series) (shown : string)
    (opts : gmap string val) (dlurl : string) : M unit :=
  try_except
    (emit (Download opts [dlurl]) ;;;
     lift (ydl_download env opts [dlurl]) ;;;
     emit (RescanSeries (ser_id ser)) ;;;
     lift (rescanseries env (ser_id ser)) ;;;
     emit (Log INFO ("      Downloaded - " ++ shown)))
    (fun e => emit (LogException ("      Failed - " ++ shown) e)).

(** The body of the inner loop for an episode of the series. *)
Definition download_episode (self : SonarrYTDL) (env : Env)
    (ser : series) (e : Z) (eps : episode) : M unit :=
  let! url := lift (getitem (ser_url ser)) in
  let shown := display_title ser eps in
  let cookies := ser_cookies_file ser in
  let! playlistreverse := lift (getitem (ser_playlistreverse ser)) in
  let! ydleps := ytdl_eps_search_opts self env (upperescape shown) playlistreverse cookies in
  let! result := ytsearch env ydleps url in
  match result with
  | None => raise TypeError  (* found, dlurl = None *)
  | Some (found, dlurl) =>
      if found
      then
        emit (Log INFO ("    " ++ str_of_Z (e + 1) ++ ": Found - " ++ shown)) ;;;
        let! opts := ytdl_format_options self env ser eps cookies in
        transfer env ser shown opts dlurl
      else emit (Log INFO ("    " ++ str_of_Z (e + 1) ++ ": Missing - " ++ shown))
  end.

Definition download (self : SonarrYTDL) (env : Env)
    (series0 : list series) (episodes : list episode) : M unit :=
  if negb (Nat.eqb (length series0) 0)
  then
    emit (Log INFO "Processing Wanted Downloads") ;;;
    for_each series0 (fun ser =>
      emit (Log INFO ("  " ++ ser_title ser ++ ":")) ;;;
      for_enumerate 0 episodes (fun e eps =>
        if Z.eqb (ser_id ser) (eps_seriesId eps)
        then download_episode self env ser e eps
        else ret tt))
  else emit (Log INFO "Nothing to process").

(** The statements of [main] after [client = SonarrYTDL()]. *)
Definition main_pass (self : SonarrYTDL) (env : Env) : M unit :=
  let! series0 := filterseries self env in
  let! (series1, episodes) := getseriesepisodes env series0 in
  download self env series1 episodes ;;;
  emit (Log INFO "Waiting...").

(** ** Reference forms used to state the properties *)

(** The needed episodes of one series, computed without the list surgery
    of the loop: the episodes that pass the test, in order, with their
    titles rewritten. *)
Fixpoint kept_of (env : Env) (ser : series) (episodes : list episode)
  : outcome (list episode) :=
  match episodes with
  | [] => Ret []
  | eps :: rest =>
      match eps_date_of env ser eps with
      | Raise e => Raise e
      | Ret d =>
          if excluded env eps d
          then kept_of env ser rest
          else
            match rewrite_title env ser eps with
            | Raise e => Raise e
            | Ret eps' =>
                match kept_of env ser rest with
                | Raise e => Raise e
                | Ret kept => Ret (eps' :: kept)
                end
            end
      end
  end.

Definition needed_of (env : Env) (ser : series) : list episode :=
  match get_episodes_by_series_id env (ser_id ser) with
  | Ret episodes =>
      match kept_of env ser episodes with
      | Ret kept => kept
      | Raise _ => []
      end
  | Raise _ => []
  end.

Definition has_needed (env : Env) (ser : series) : bool :=
  negb (Nat.eqb (length (needed_of env ser)) 0).

(** The media manager lists the episodes of [ser] and each of them goes
    through the test and the rewrite without an exception. *)
Definition answers (env : Env) (ser : series) : Prop :=
  exists episodes kept,
    get_episodes_by_series_id env (ser_id ser) = Ret episodes
    /\ kept_of env ser episodes = Ret kept.

(** An episode that passes the need test of [ser]. *)
Definition due (env : Env) (ser : series) (eps : episode) : Prop :=
  eps_monitored eps = true /\ eps_hasFile eps = false
  /\ exists d, eps_date_of env ser eps = Ret d /\ d <= now env.

(** The path [appendcookie] tests and stores. *)
Definition cookie_path_of (env : Env) (c : string) : string :=
  abspath env (CONFIGPATH env ++ c).

(** A log of a successful download of [shown]: the success line is there
    and no failure line for it. *)
Definition reported_successful (shown : string) (tr : list event) : Prop :=
  In (Log INFO ("      Downloaded - " ++ shown)) tr
  /\ forall e, ~ In (LogException ("      Failed - " ++ shown) e) tr.

(** A computation that starts no transfer. *)
Definition no_transfer {A} (m : M A) : Prop :=
  forall opts urls, ~ In (Download opts urls) (snd m).

(** No two entries of a list of series share a title. *)
Definition titles_distinct (l : list series) : Prop := List.NoDup (map ser_title l).

(** ** A concrete pass

    The configured series "Example Show" is series 42 of the media
    manager, with two episodes. *)
Module Scenario.

Definition remote (id : Z) (title path : string) : series :=
  {| ser_id := id; ser_title := title; ser_path := path; ser_monitored := true;
     ser_subtitles := None; ser_playlistreverse := None;
     ser_subtitles_languages := None; ser_subtitles_autogenerated := None;
     ser_sonarr_regex_match := None; ser_sonarr_regex_replace := None;
     ser_site_regex_match := None; ser_site_regex_replace := None;
     ser_offset := None; ser_cookies_file := None; ser_format := None;
     ser_url := None; ser_preprend_with_title := None |}.

Definition entry_for (title url : string) : wanted :=
  {| w_title := title; w_url := url; w_regex := None; w_offset := None;
     w_cookies_file := None; w_format := None; w_playlistreverse := None;
     w_subtitles := None; w_preprend_with_title := None |}.

Definition episode_of (id number : Z) (title : string) (aired : option string)
    (has_file : bool) : episode :=
  {| eps_id := id; eps_seriesId := 42; eps_title := title; eps_seasonNumber := 1;
     eps_episodeNumber := number; eps_airDateUtc := aired; eps_monitored := true;
     eps_hasFile := has_file |}.

Definition playlist : string := "https://catalog.example/playlist".
Definition video : string := "https://catalog.example/watch/1".

Definition show : series := remote 42 "Example Show" "/tv/Example Show".
Definition wanted_show : wanted := entry_for "Example Show" playlist.
Definition policy : series := apply_wanted wanted_show show.

Definition pilot : episode := episode_of 1 1 "Pilot" (Some "2020-01-01T00:00:00Z") false.
Definition second : episode := episode_of 2 2 "Second" None false.
Definition spaced : episode := episode_of 3 3 "A   B" None false.
Definition on_disk : episode := episode_of 4 4 "Fourth" None true.

Definition self : SonarrYTDL :=
  {| debug := false; ytdl_format := "best"; ytdl_merge_output_format := "mkv";
     wanted_series := [wanted_show] |}.

(** Twice the same title in the configuration. *)
Definition self_twice : SonarrYTDL :=
  {| debug := false; ytdl_format := "best"; ytdl_merge_output_format := "mkv";
     wanted_series := [wanted_show; entry_for "Example Show" video] |}.

(** 2020-01-01T00:00:00, and a [now] of 2024-01-01T00:00:00. *)
Definition t2020 : Z := 737424 * Datetime.us_per_day.
Definition t2024 : Z := 738885 * Datetime.us_per_day.

Definition found_video : info :=
  InfoDict (Some [Some {| entry_webpage_url := Some video |}]) None.

(** Every collaborator answers; [episodes] is the episode list of the media
    manager, [search], [fetch] and [rescan] are the answers of yt-dlp and of
    the rescan command. *)
Definition env_with (episodes : list episode) (search : outcome info)
    (fetch rescan : outcome unit) : Env :=
  {| now := t2024;
     CONFIGPATH := "/config/";
     strptime := fun text =>
       if String.eqb text "2020-01-01T00:00:00Z" then Ret t2020 else Raise ValueError;
     re_sub := fun _ _ text => Ret text;
     abspath := fun p => p;
     path_exists := fun p => String.eqb p "/config/cookies.txt";
     get_series := Ret [show];
     get_episodes_by_series_id := fun _ => Ret episodes;
     rescanseries := fun _ => rescan;
     extract_info := fun _ _ => search;
     ydl_download := fun _ _ => fetch |}.

Definition env_ok : Env :=
  env_with [pilot; second] (Ret found_video) (Ret tt) (Ret tt).
Definition env_rescan_fails : Env :=
  env_with [pilot; second] (Ret found_video) (Ret tt) (Raise (External "rescan")).
Definition env_search_fails : Env :=
  env_with [pilot; second] (Raise (External "extract_info")) (Ret tt) (Ret tt).

(** The only episode is on disk already. *)
Definition env_on_disk : Env :=
  env_with [on_disk] (Ret found_video) (Ret tt) (Ret tt).

End Scenario.

(** ** utils.py: file names *)

Module Text.

Fixpoint all (p : ascii -> bool) (s : string) : bool :=
  match s with
  | EmptyString => true
  | String c s' => p c && all p s'
  end.

Definition is_ascii (c : ascii) : bool := Nat.ltb (nat_of_ascii c) 128.

(** [c.isspace()] on Basic Latin. *)
Definition is_space (c : ascii) : bool :=
  let n := nat_of_ascii c in
  (Nat.leb 9 n && Nat.leb n 13) || (Nat.leb 28 n && Nat.leb n 32).

Fixpoint lstrip (s : string) : string :=
  match s with
  | EmptyString => EmptyString
  | String c s' => if is_space c then lstrip s' else s
  end.

Fixpoint rstrip (s : string) : string :=
  match s with
  | EmptyString => EmptyString
  | String c s' =>
      match rstrip s' with
      | EmptyString => if is_space c then EmptyString else String c EmptyString
      | rest => String c rest
      end
  end.

(** [s.strip()] *)
Definition strip (s : string) : string := rstrip (lstrip s).

(** [s[:n]] *)
Fixpoint take (n : nat) (s : string) : string :=
  match n, s with
  | S k, String c s' => String c (take k s')
  | _, _ => EmptyString
  end.

(** [re.sub(cls, replacement, s)] for a class [cls] of single characters
    and a replacement without a backslash, which is inserted as it is. *)
Fixpoint sub_chars (cls : ascii -> bool) (replacement s : string) : string :=
  match s with
  | EmptyString => EmptyString
  | String c s' =>
      if cls c then replacement ++ sub_chars cls replacement s'
      else String c (sub_chars cls replacement s')
  end.

End Text.

(** The class of invalid characters of [sanitize_filename], by character
    code: less-than, greater-than, colon, double quote, slash, backslash,
    bar, question mark, asterisk, newline, carriage return and tab. *)
Definition invalid_char (c : ascii) : bool :=
  existsb (Nat.eqb (nat_of_ascii c)) [60; 62; 58; 34; 47; 92; 124; 63; 42; 10; 13; 9]%nat.

(** [sanitize_filename(name, replacement)]; the default replacement is
    [" -"].  Stripping and slicing count bytes, which are the characters of
    a name in Basic Latin. *)
Definition sanitize_filename (name replacement : string) : string :=
  let sanitized_name := Text.sub_chars invalid_char replacement name in
  let sanitized_name := Text.strip sanitized_name in
  let sanitized_name := Str.replace "  " " " sanitized_name in
  let max_length := 255%nat in
  Text.take max_length sanitized_name.

(** The text starts with a character that is no whitespace, or is empty. *)
Definition starts_clean (s : string) : Prop :=
  match Str.first s with
  | Some c => Text.is_space c = false
  | None => True
  end.

(** The characters [upperescape] rewrites: parentheses, colon, apostrophe,
    comma, exclamation mark, backslash, hyphen and space.  A title is plain
    when it is in Basic Latin and has none of them. *)
Definition plain_char (c : ascii) : bool :=
  Text.is_ascii c
  && negb (existsb (Nat.eqb (nat_of_ascii c)) [40; 41; 58; 39; 44; 33; 92; 45; 32]%nat).

(** ** Reference forms for the search and the transfers *)

(** The URL [ytsearch] reads off a result dictionary: the first entry's
    when the entries are usable, else the result's own. *)
Definition resolved_url (entries : option (list (option entry)))
    (webpage_url : option string) : option string :=
  match usable_entries entries with
  | Some (Some first) => entry_webpage_url first
  | Some None => None
  | None => webpage_url
  end.

Definition is_transfer (ev : event) : bool :=
  match ev with Download _ _ => true | _ => false end.

Definition is_rescan (ev : event) : bool :=
  match ev with RescanSeries _ => true | _ => false end.

Definition is_search (ev : event) : bool :=
  match ev with ExtractInfo _ _ => true | _ => false end.

(** How many events of a kind a trace holds. *)
Definition count (kind : event -> bool) (tr : list event) : nat :=
  length (List.filter kind tr).

(** ** Reference forms for the need filter *)

(** The shift a series asks for, in microseconds: the weeks, days, hours
    and minutes of its offset, and nothing without an offset. *)
Definition shift_of (ser : series) : Z :=
  match ser_offset ser with
  | Some offset =>
      offset_field "weeks" offset * (7 * Datetime.us_per_day)
      + offset_field "days" offset * Datetime.us_per_day
      + offset_field "hours" offset * Datetime.us_per_hour
      + offset_field "minutes" offset * Datetime.us_per_minute
  | None => 0
  end.

(** An episode that has aired for a series: it has no air date, or the
    date read from it, shifted, is not after [now]. *)
Definition aired (env : Env) (ser : series) (eps : episode) : Prop :=
  match eps_airDateUtc eps with
  | None => True
  | Some text => exists t, strptime env text = Ret t /\ t + shift_of ser <= now env
  end.

(** The need test in the words of the specification: monitored, without a
    file, and not dated after [now] once the offset is applied; an episode
    without an air date is due at once. *)
Definition wanted_now (env : Env) (ser : series) (eps : episode) : bool :=
  eps_monitored eps && negb (eps_hasFile eps)
  && match eps_airDateUtc eps with
     | None => true
     | Some text =>
         match strptime env text with
         | Ret t => t + shift_of ser <=? now env
         | Raise _ => false
         end
     end.

(** The episode with the title the rule of the series gives it. *)
Definition retitled (env : Env) (ser : series) (eps : episode) : episode :=
  match ser_sonarr_regex_match ser, ser_sonarr_regex_replace ser with
  | Some pattern, Some replacement =>
      match re_sub env pattern replacement (eps_title eps) with
      | Ret title => set_eps_title eps title
      | Raise _ => eps
      end
  | _, _ => eps
  end.

(** What the media manager lists for a series. *)
Definition listing_of (env : Env) (ser : series) : list episode :=
  match get_episodes_by_series_id env (ser_id ser) with
  | Ret episodes => episodes
  | Raise _ => []
  end.

(** ** A pass with dated episodes

    The show is configured with an offset of one week.  Its listing has an
    episode of 2020, one without a date, one of 2030, two with a file (one
    of them of 2030) and one aired four days before [now]. *)
Module Dated.

Definition t2030 : Z := 741077 * Datetime.us_per_day.
Definition recent : Z := Scenario.t2024 - 4 * Datetime.us_per_day.

Definition late : episode :=
  Scenario.episode_of 5 5 "Fifth" (Some "2030-01-01T00:00:00Z") false.
Definition stored_late : episode :=
  Scenario.episode_of 6 6 "Sixth" (Some "2030-01-01T00:00:00Z") true.
Definition fresh : episode :=
  Scenario.episode_of 7 7 "Seventh" (Some "2023-12-28T00:00:00Z") false.

Definition listing : list episode :=
  [Scenario.pilot; Scenario.second; late; Scenario.on_disk; stored_late; fresh].

Definition env : Env :=
  {| now := Scenario.t2024;
     CONFIGPATH := "/config/";
     strptime := fun text =>
       if String.eqb text "2020-01-01T00:00:00Z" then Ret Scenario.t2020
       else if String.eqb text "2030-01-01T00:00:00Z" then Ret t2030
       else if String.eqb text "2023-12-28T00:00:00Z" then Ret recent
       else Raise ValueError;
     re_sub := fun _ _ text => Ret text;
     abspath := fun p => p;
     path_exists := fun _ => false;
     get_series := Ret [Scenario.show];
     get_episodes_by_series_id := fun _ => Ret listing;
     rescanseries := fun _ => Ret tt;
     extract_info := fun _ _ => Ret Scenario.found_video;
     ydl_download := fun _ _ => Ret tt |}.

Definition wanted_delayed : wanted :=
  {| w_title := "Example Show"; w_url := Scenario.playlist; w_regex := None;
     w_offset := Some {[ "weeks" := 1 ]};
     w_cookies_file := None; w_format := None; w_playlistreverse := None;
     w_subtitles := None; w_preprend_with_title := None |}.

Definition delayed : series := apply_wanted wanted_delayed Scenario.show.

End Dated.

(** ** A pass with several shows

    Two shows are configured; the media manager lists them and a third. *)
Definition self_two : SonarrYTDL :=
  {| debug := false; ytdl_format := "best"; ytdl_merge_output_format := "mkv";
     wanted_series :=
       [Scenario.wanted_show; Scenario.entry_for "Other Show" Scenario.video] |}.

Definition listing_three : list series :=
  [Scenario.show; Scenario.remote 7 "Other Show" "/tv/Other Show";
   Scenario.remote 8 "Third Show" "/tv/Third Show"].

(** ** Reference forms for the option sets, the resolver and the calls *)

(** Log records, as opposed to calls to the media manager and to yt-dlp. *)
Definition is_log (ev : event) : bool :=
  match ev with
  | Log _ _ | LogOpts _ _ | LogException _ _ => true
  | _ => false
  end.

Definition is_warning (ev : event) : bool :=
  match ev with
  | Log WARNING _ => true
  | _ => false
  end.

(** The calls of a trace, in order. *)
Definition calls (tr : list event) : list event :=
  List.filter (fun ev => negb (is_log ev)) tr.

(** The keys a search option set can hold. *)
Definition search_keys : list string :=
  ["ignoreerrors"; "playlistreverse"; "matchtitle"; "quiet"; "logger"; "progress_hooks";
   "cookiefile"].

(** The keys a transfer option set can hold. *)
Definition transfer_keys : list string :=
  ["format"; "quiet"; "merge_output_format"; "outtmpl"; "progress_hooks"; "noplaylist";
   "cookiefile"; "writesubtitles"; "allsubtitles"; "writeautomaticsub"; "subtitleslangs";
   "embedsubtitles"; "postprocessors"; "logger"].

(** The configured entries with a given title, in their order. *)
Definition entries_for (wnts : list wanted) (title : string) : list wanted :=
  List.filter (fun wnt => String.eqb (w_title wnt) title) wnts.

(** The value the last entry that has the setting gives to it. *)
Definition last_set {A} (l : list (option A)) : option A := last (omap id l).

(** The keys of a series object that come from the media manager. *)
Definition same_remote (m ser : series) : Prop :=
  ser_id m = ser_id ser /\ ser_title m = ser_title ser
  /\ ser_path m = ser_path ser /\ ser_monitored m = ser_monitored ser.

(** A pass over a given listing of the media manager: [listed] are its
    series, the rest is as in [Scenario.env_ok]. *)
Definition env_listing (listed : list series) : Env :=
  {| now := now Scenario.env_ok;
     CONFIGPATH := CONFIGPATH Scenario.env_ok;
     strptime := strptime Scenario.env_ok;
     re_sub := re_sub Scenario.env_ok;
     abspath := abspath Scenario.env_ok;
     path_exists := path_exists Scenario.env_ok;
     get_series := Ret listed;
     get_episodes_by_series_id := get_episodes_by_series_id Scenario.env_ok;
     rescanseries := rescanseries Scenario.env_ok;
     extract_info := extract_info Scenario.env_ok;
     ydl_download := ydl_download Scenario.env_ok |}.

(** A series of the media manager that is not monitored. *)
Definition unwatched (id : Z) (title path : string) : series :=
  {| ser_id := id; ser_title := title; ser_path := path; ser_monitored := false;
     ser_subtitles := None; ser_playlistreverse := None;
     ser_subtitles_languages := None; ser_subtitles_autogenerated := None;
     ser_sonarr_regex_match := None; ser_sonarr_regex_replace := None;
     ser_site_regex_match := None; ser_site_regex_replace := None;
     ser_offset := None; ser_cookies_file := None; ser_format := None;
     ser_url := None; ser_preprend_with_title := None |}.

(** [enumerate(xs)], counting from [i]. *)
Fixpoint enumerate_from {A} (i : Z) (xs : list A) : list (Z * A) :=
  match xs with
  | [] => []
  | x :: xs' => (i, x) :: enumerate_from (i + 1) xs'
  end.

(** The pairs the two loops of [download] work on, in their order: series
    by series, the numbered episodes that carry the id of the series. *)
Definition pairs (series0 : list series) (episodes : list episode)
  : list (series * (Z * episode)) :=
  flat_map (fun ser =>
    map (pair ser)
      (List.filter (fun p => Z.eqb (ser_id ser) (eps_seriesId (snd p)))
         (enumerate_from 0 episodes))) series0.

(** A computation that returns rather than raising. *)
Definition returned {A} (m : M A) : bool :=
  match fst m with
  | Ret _ => true
  | Raise _ => false
  end.

(** The items a loop gets to: those before the first one that is not [ok],
    and that one. *)
Fixpoint run_until {A} (ok : A -> bool) (l : list A) : list A :=
  match l with
  | [] => []
  | x :: l' => if ok x then x :: run_until ok l' else [x]
  end.

(** The calls [download_episode] makes for a pair. *)
Definition calls_for (self : SonarrYTDL) (env : Env) (p : series * (Z * episode))
  : list event :=
  calls (snd (download_episode self env (fst p) (fst (snd p)) (snd (snd p)))).

(** An episode the loop of [getseriesepisodes] gets past without an
    exception, said with the collaborators alone.  Its date [d] is [now]
    when it has no air date; else [strptime] reads the air date and, when
    the series has an offset, [offsethandler] shifts it.  Then the episode
    is dropped (not monitored, or with a file, or with [d] after [now]), or
    the series has no rewriting rule, or it has the pattern and the
    replacement and [re.sub] returns. *)
Definition passes (env : Env) (ser : series) (eps : episode) : Prop :=
  exists d,
    match eps_airDateUtc eps with
    | None => d = now env
    | Some text =>
        exists t,
          strptime env text = Ret t
          /\ match ser_offset ser with
             | Some offset => offsethandler t offset = Ret d
             | None => d = t
             end
    end
    /\ (eps_monitored eps = false \/ eps_hasFile eps = true \/ now env < d
        \/ match ser_sonarr_regex_match ser with
           | None => True
           | Some pattern =>
               exists replacement title,
                 ser_sonarr_regex_replace ser = Some replacement
                 /\ re_sub env pattern replacement (eps_title eps) = Ret title
           end).

(** The media manager lists the episodes of a series and the loop over
    them returns. *)
Definition answered (env : Env) (ser : series) : bool :=
  match get_episodes_by_series_id env (ser_id ser) with
  | Ret episodes => returned (episodes_loop env ser episodes [] [])
  | Raise _ => false
  end.

(** [download_episode] returns for a pair. *)
Definition returns_for (self : SonarrYTDL) (env : Env) (p : series * (Z * episode)) : bool :=
  returned (download_episode self env (fst p) (fst (snd p)) (snd (snd p))).

(** ** utils.py and sonarr_youtubedl.py: start-up *)

Definition lower_ascii (c : ascii) : ascii :=
  let n := nat_of_ascii c in
  if (Nat.leb 65 n && Nat.leb n 90)%bool then ascii_of_nat (n + 32)%nat else c.

(** [s.lower()] on Basic Latin; bytes of other characters are kept. *)
Fixpoint lower (s : string) : string :=
  match s with
  | EmptyString => EmptyString
  | String c s' => String (lower_ascii c) (lower s')
  end.

(** The sections of the configuration file that [__init__] reads, with
    values of the types of the template; [None] is an absent key. *)
Record sonarrytdl_section := {
  cfg_scan_interval : option Z;
  cfg_debug : option bool }.

Record sonarr_section := {
  cfg_version : option string;
  cfg_ssl : option bool;
  cfg_basedir : option string;
  cfg_host : option string;
  cfg_port : option Z;
  cfg_apikey : option string }.

Record ytdl_section := {
  cfg_default_format : option string;
  cfg_merge_output_format : option string }.

Record config := {
  cfg_sonarrytdl : option sonarrytdl_section;
  cfg_sonarr : option sonarr_section;
  cfg_ytdl : option ytdl_section;
  cfg_series : option (list wanted) }.

(** What start-up reads from the outside: the environment variable
    [CONFIGPATH], under its module name, and what [open] and [yaml.load]
    give for the configuration file: an exception, [None] for an empty
    file, or a mapping. *)
Record Boot := {
  CONFIGFILE : string;
  config_yml : outcome (option config) }.

(** The object [__init__] sets up. *)
Record client := {
  settings : SonarrYTDL;
  base_url : string;
  sonarr_api_version : string;
  api_key : string }.

(** How a start-up step or a pass ends: with a value, with an exception, or
    with [sys.exit], of which the argument is kept. *)
Inductive result (A : Type) :=
  | Done (a : A)
  | Failed (e : exn)
  | Exit (message : option string).
Arguments Done {A} a.
Arguments Failed {A} e.
Arguments Exit {A} message.

(** [checkconfig()] *)
Definition checkconfig (boot : Boot) (env : Env) : result (option config) * list event :=
  let config_template := abspath env (CONFIGFILE boot ++ ".template") in
  let config_template_exists := path_exists env (abspath env config_template) in
  let config_file := abspath env (CONFIGFILE boot) in
  let config_file_exists := path_exists env (abspath env config_file) in
  if negb config_file_exists
  then
    (Exit None,
     ([Log CRITICAL "Configuration file not found."]
      ++ (if negb config_template_exists
          then [System ("cp /app/config.yml.template " ++ config_template)]
          else [])
      ++ [Log CRITICAL "Create a config.yml using config.yml.template as an example."])%list)
  else
    match config_yml boot with
    | Ret cfg => (Done cfg, [Log INFO "Configuration Found. Loading file."])
    | Raise e => (Failed e, [Log INFO "Configuration Found. Loading file."])
    end.

(** [set_scan_interval(interval)]; [SCANINTERVAL] is the module variable, of
    which the new value is returned. *)
Definition set_scan_interval (SCANINTERVAL interval : Z) : M Z :=
  if negb (Z.eqb interval SCANINTERVAL)
  then
    emit (Log INFO ("Scan interval set to every " ++ str_of_Z interval
                    ++ " minutes by config.yml")) ;;;
    ret interval
  else
    emit (Log INFO ("Default scan interval of every " ++ str_of_Z interval
                    ++ " minutes in use")) ;;;
    ret SCANINTERVAL.

(** [cfg[name]] on what [yaml.load] gave. *)
Definition section {A} (cfg : option config) (name : config -> option A) : outcome A :=
  match cfg with
  | Some mapping => getitem (name mapping)
  | None => Raise TypeError
  end.

(** [try: m  except AttributeError: h]: other exceptions pass. *)
Definition try_except_attribute {A} (m : M A) (h : M A) : M A :=
  match m with
  | (Raise AttributeError, tr) => let '(r, tr') := h in (r, (tr ++ tr')%list)
  | _ => m
  end.

(** The body of the first [try] of [__init__]. *)
Definition init_sonarrytdl (SCANINTERVAL : Z) (cfg : option config) : M (Z * bool) :=
  let! sonarrytdl := lift (section cfg cfg_sonarrytdl) in
  let! interval := lift (getitem (cfg_scan_interval sonarrytdl)) in
  let! scan := set_scan_interval SCANINTERVAL interval in
  let! debug :=
    try_except_attribute
      (let! sonarrytdl := lift (section cfg cfg_sonarrytdl) in
       let! debug := lift (getitem (cfg_debug sonarrytdl)) in
       (if debug : bool then emit (Log DEBUG "DEBUGGING ENABLED") else ret tt) ;;;
       ret debug)
      (emit (LogException "AttributeError" AttributeError) ;;;
       ret false) in
  ret (scan, debug).

(** The body of the second: base URL, API path and API key. *)
Definition init_sonarr (cfg : option config) : M (string * string * string) :=
  let! sonarr := lift (section cfg cfg_sonarr) in
  let version := match cfg_version sonarr with Some v => v | None => "" end in
  let! api :=
    (if String.eqb (lower version) "v4"
     then emit (Log DEBUG "Sonarr api set to v4") ;;; ret "api/v3"
     else ret "api") in
  let! ssl := lift (getitem (cfg_ssl sonarr)) in
  let scheme := if ssl : bool then "https" else "http" in
  let basedir :=
    match cfg_basedir sonarr with
    | Some (String c rest) => "/" ++ String c rest
    | _ => ""
    end in
  let! host := lift (getitem (cfg_host sonarr)) in
  let! port := lift (getitem (cfg_port sonarr)) in
  let url := scheme ++ "://" ++ host ++ ":" ++ str_of_Z port ++ basedir in
  let! apikey := lift (getitem (cfg_apikey sonarr)) in
  ret (url, api, apikey).

(** The bodies of the last three. *)
Definition init_format (cfg : option config) : M string :=
  let! ytdl := lift (section cfg cfg_ytdl) in
  lift (getitem (cfg_default_format ytdl)).

Definition init_merge_format (cfg : option config) : M string :=
  let! ytdl := lift (section cfg cfg_ytdl) in
  lift (getitem (cfg_merge_output_format ytdl)).

Definition init_series (cfg : option config) : M (list wanted) :=
  lift (section cfg cfg_series).

(** [try: body  except Exception: logger.exception(logged); sys.exit(message)],
    followed by [rest]; the fourth block of [__init__] logs nothing. *)
Definition guarded {A B} (body : M A) (logged message : option string)
    (rest : A -> result B * list event) : result B * list event :=
  match body with
  | (Ret a, tr) => let '(r, tr') := rest a in (r, (tr ++ tr')%list)
  | (Raise e, tr) =>
      (Exit message,
       (tr ++ match logged with Some text => [LogException text e] | None => [] end)%list)
  end.

(** [__init__] after [cfg = checkconfig()]: the object and the new value of
    [SCANINTERVAL]. *)
Definition init (SCANINTERVAL : Z) (cfg : option config) : result (client * Z) * list event :=
  guarded (init_sonarrytdl SCANINTERVAL cfg)
    (Some "Error with sonarrytdl config.yml values.") None (fun '(scan, debug0) =>
  guarded (init_sonarr cfg)
    (Some "Error with sonarr config.yml values.") None (fun '(url, api, apikey) =>
  guarded (init_format cfg)
    (Some "Error with ytdl config.yml values.") None (fun format =>
  guarded (init_merge_format cfg)
    None (Some "Error with ytdl config.yml values.") (fun merge_format =>
  guarded (init_series cfg)
    (Some "Error with series config.yml values.") None (fun wanted0 =>
  (Done
     ({| settings := {| debug := debug0; ytdl_format := format;
                        ytdl_merge_output_format := merge_format;
                        wanted_series := wanted0 |};
         base_url := url; sonarr_api_version := api; api_key := apikey |}, scan),
   [])))))).

(** [SonarrYTDL()] *)
Definition construct (SCANINTERVAL : Z) (boot : Boot) (env : Env)
  : result (client * Z) * list event :=
  match checkconfig boot env with
  | (Done cfg, tr) => let '(r, tr') := init SCANINTERVAL cfg in (r, (tr ++ tr')%list)
  | (Failed e, tr) => (Failed e, tr)
  | (Exit message, tr) => (Exit message, tr)
  end.

(** [main()]: one pass.  It ends with the new value of [SCANINTERVAL]. *)
Definition main (SCANINTERVAL : Z) (boot : Boot) (env : Env) : result Z * list event :=
  match construct SCANINTERVAL boot env with
  | (Done (client0, scan), tr) =>
      match main_pass (settings client0) env with
      | (Ret _, tr') => (Done scan, (tr ++ tr')%list)
      | (Raise e, tr') => (Failed e, (tr ++ tr')%list)
      end
  | (Failed e, tr) => (Failed e, tr)
  | (Exit message, tr) => (Exit message, tr)
  end.

(** The keys without which [__init__] does not finish. *)
Definition complete (cfg : config) : Prop :=
  exists a b c,
    cfg_sonarrytdl cfg = Some a /\ cfg_sonarr cfg = Some b /\ cfg_ytdl cfg = Some c
    /\ is_Some (cfg_scan_interval a) /\ is_Some (cfg_debug a)
    /\ is_Some (cfg_ssl b) /\ is_Some (cfg_host b) /\ is_Some (cfg_port b)
    /\ is_Some (cfg_apikey b)
    /\ is_Some (cfg_default_format c) /\ is_Some (cfg_merge_output_format c)
    /\ is_Some (cfg_series cfg).

(** A configuration with every key; [debug0] is the debug flag or its
    absence, [wanted0] the configured series. *)
Definition config_of (debug0 : option bool) (version : option string)
    (wanted0 : list wanted) : config :=
  {| cfg_sonarrytdl := Some {| cfg_scan_interval := Some 30; cfg_debug := debug0 |};
     cfg_sonarr :=
       Some {| cfg_version := version; cfg_ssl := Some false; cfg_basedir := None;
               cfg_host := Some "sonarr.example"; cfg_port := Some 8989;
               cfg_apikey := Some "0123456789abcdef" |};
     cfg_ytdl :=
       Some {| cfg_default_format := Some "best"; cfg_merge_output_format := Some "mkv" |};
     cfg_series := Some wanted0 |}.

(** The configuration file is /config/config.yml and holds [cfg]. *)
Definition boot_of (cfg : config) : Boot :=
  {| CONFIGFILE := "/config/config.yml"; config_yml := Ret (Some cfg) |}.

(** Log records at level INFO or above. *)
Definition is_notice (ev : event) : bool :=
  match ev with
  | Log DEBUG _ | LogOpts DEBUG _ => false
  | Log _ _ | LogOpts _ _ | LogException _ _ => true
  | _ => false
  end.

(** An environment in which every path exists, the configuration file
    among them; the rest is as in [base]. *)
Definition env_started (base : Env) : Env :=
  {| now := now base;
     CONFIGPATH := CONFIGPATH base;
     strptime := strptime base;
     re_sub := re_sub base;
     abspath := abspath base;
     path_exists := fun _ => true;
     get_series := get_series base;
     get_episodes_by_series_id := get_episodes_by_series_id base;
     rescanseries := rescanseries base;
     extract_info := extract_info base;
     ydl_download := ydl_download base |}.

(** * Properties *)

(** ** Outcomes and loops *)

(** A [bind] that returns: both halves returned. *)
Lemma bind_inv {A B} (m : M A) (f : A -> M B) (b : B) (tr : list event) :
  bind m f = (Ret b, tr) ->
  exists a tr1 tr2, m = (Ret a, tr1) /\ f a = (Ret b, tr2) /\ tr = (tr1 ++ tr2)%list.
Proof.
  destruct m as [[a|e] tr1]; simpl; [|discriminate].
  destruct (f a) as [r tr2] eqn:Hf. intros [= -> <-]. eauto 6.
Qed.

Lemma surjective_pairing_ret {A} (m : M A) (a : A) :
  fst m = Ret a -> m = (Ret a, snd m).
Proof. destruct m as [r tr]. simpl. now intros ->. Qed.

Lemma lift_inv {A} (o : outcome A) (a : A) (tr : list event) :
  lift o = (Ret a, tr) -> o = Ret a /\ tr = [].
Proof. unfold lift. intros [= -> <-]. auto. Qed.

Ltac bind_inv H :=
  let a := fresh "a" in
  let tr1 := fresh "tr" in
  let tr2 := fresh "tr" in
  let H1 := fresh "Hm" in
  let H2 := fresh "Hk" in
  let He := fresh "Htr" in
  apply bind_inv in H; destruct H as (a & tr1 & tr2 & H1 & H2 & He).

(** A loop whose body always returns, returns. *)
Lemma for_each_total {A} (xs : list A) (body : A -> M unit) :
  (forall x, In x xs -> exists tr, body x = (Ret tt, tr)) ->
  exists tr, for_each xs body = (Ret tt, tr).
Proof.
  induction xs as [|x xs IH]; intros Hb; simpl.
  - eexists; reflexivity.
  - destruct (Hb x) as [tr1 H1]; [now left|].
    destruct IH as [tr2 H2]; [intros y Hy; apply Hb; now right|].
    rewrite H1; simpl. rewrite H2. eexists; reflexivity.
Qed.

(** ** The offset calculator *)

Lemma add_in_range (t delta : Z) :
  Datetime.valid (t + delta) -> Datetime.add t delta = Ret (t + delta).
Proof.
  unfold Datetime.valid, Datetime.add. intros [Hlo Hhi].
  apply Z.leb_le in Hlo. apply Z.ltb_lt in Hhi. now rewrite Hlo, Hhi.
Qed.

Lemma add_returns (t delta r : Z) :
  Datetime.add t delta = Ret r -> r = t + delta /\ Datetime.valid r.
Proof.
  unfold Datetime.add, Datetime.valid.
  destruct (0 <=? t + delta) eqn:Hlo; [|discriminate].
  destruct (t + delta <? Datetime.end_of_time) eqn:Hhi; [|discriminate].
  intros [= <-]. apply Z.leb_le in Hlo. apply Z.ltb_lt in Hhi. auto.
Qed.

Lemma offset_field_only (k k' : string) (offset : gmap string Z) :
  offset_field k' (only_field k offset) = if decide (k = k') then offset_field k offset else 0.
Proof.
  unfold offset_field, only_field.
  destruct (offset !! k) as [v|] eqn:Hk.
  - rewrite lookup_singleton. destruct (decide (k = k')); reflexivity.
  - rewrite lookup_empty. destruct (decide (k = k')); reflexivity.
Qed.

Lemma offset_delta_fields (offset : gmap string Z) :
  offset_delta offset =
    offset_field "weeks" offset * Datetime.us_per_week
    + offset_field "days" offset * Datetime.us_per_day
    + offset_field "hours" offset * Datetime.us_per_hour
    + offset_field "minutes" offset * Datetime.us_per_minute.
Proof. reflexivity. Qed.

(** C9. Whenever the shifted timestamp is representable, [offsethandler]
    returns the timestamp plus the weeks, days, hours and minutes of the
    specification, a missing field counting 0 and a negative one
    subtracting; the shift is the sum of the shifts of the four fields taken
    alone; the empty specification leaves the timestamp as it is and
    [{weeks: 1}] adds seven days. *)
Theorem offsethandler_additive (t : Z) (offset : gmap string Z) :
  Datetime.valid (t + offset_delta offset) ->
  offsethandler t offset =
    Ret (t + offset_field "weeks" offset * (7 * Datetime.us_per_day)
           + offset_field "days" offset * Datetime.us_per_day
           + offset_field "hours" offset * Datetime.us_per_hour
           + offset_field "minutes" offset * Datetime.us_per_minute)
  /\ offset_delta offset =
       offset_delta (only_field "weeks" offset) + offset_delta (only_field "days" offset)
       + offset_delta (only_field "hours" offset) + offset_delta (only_field "minutes" offset)
  /\ (Datetime.valid t -> offsethandler t ∅ = Ret t)
  /\ (Datetime.valid (t + 7 * Datetime.us_per_day) ->
      offsethandler t {[ "weeks" := 1 ]} = Ret (t + 7 * Datetime.us_per_day)).
Proof.
  intros Hr. repeat split.
  - unfold offsethandler. rewrite add_in_range by exact Hr.
    rewrite offset_delta_fields. f_equal. unfold Datetime.us_per_week. lia.
  - rewrite !offset_delta_fields, !offset_field_only.
    repeat (case_decide; [try discriminate | try congruence]).
    unfold Datetime.us_per_week, Datetime.us_per_day, Datetime.us_per_hour. lia.
  - intros Ht. unfold offsethandler.
    replace (offset_delta ∅) with 0 by reflexivity.
    rewrite add_in_range; rewrite Z.add_0_r; [reflexivity | exact Ht].
  - intros Ht. unfold offsethandler.
    replace (offset_delta {[ "weeks" := 1 ]}) with (7 * Datetime.us_per_day) by reflexivity.
    now rewrite add_in_range.
Qed.

Lemma offsethandler_additive_witness :
  offsethandler Scenario.t2020 {[ "weeks" := 1; "hours" := -3 ]}
  = Ret (Scenario.t2020 + 7 * Datetime.us_per_day - 3 * Datetime.us_per_hour).
Proof.
  destruct (offsethandler_additive Scenario.t2020 {[ "weeks" := 1; "hours" := -3 ]}) as [H _].
  - vm_compute. split; [discriminate | reflexivity].
  - rewrite H. reflexivity.
Defined.

(** ** Cookies *)

Lemma appendcookie_result (env : Env) (opts : gmap string val) (cookies : option string) :
  fst (appendcookie env opts cookies) =
    Ret (match cookies with
         | Some c =>
             if path_exists env (cookie_path_of env c)
             then <["cookiefile" := VStr (cookie_path_of env c)]> opts
             else opts
         | None => opts
         end).
Proof.
  unfold appendcookie, cookie_path_of. destruct cookies as [c|]; [|reflexivity].
  destruct (path_exists env _); reflexivity.
Qed.

(** C10. [appendcookie] returns an option set that agrees with the given
    one on every key other than ["cookiefile"]; it sets ["cookiefile"], to
    the resolved path, exactly when a cookie file is named and exists at
    that path, and otherwise returns the options as given. *)
Theorem appendcookie_frame (env : Env) (opts : gmap string val) (cookies : option string) :
  exists opts' : gmap string val,
    fst (appendcookie env opts cookies) = Ret opts'
    /\ (forall k : string, k <> "cookiefile" -> opts' !! k = opts !! k)
    /\ (forall c, cookies = Some c -> path_exists env (cookie_path_of env c) = true ->
        opts' = <["cookiefile" := VStr (cookie_path_of env c)]> opts)
    /\ (cookies = None -> opts' = opts)
    /\ (forall c, cookies = Some c -> path_exists env (cookie_path_of env c) = false ->
        opts' = opts)
    /\ (opts' <> opts ->
        exists c, cookies = Some c /\ path_exists env (cookie_path_of env c) = true).
Proof.
  rewrite appendcookie_result. eexists; split; [reflexivity|].
  destruct cookies as [c|].
  - destruct (path_exists env (cookie_path_of env c)) eqn:Hx.
    + repeat split.
      * intros k Hk. now rewrite lookup_insert_ne.
      * intros c' [= <-] _. reflexivity.
      * discriminate.
      * intros c' [= <-]. congruence.
      * intros _. eauto.
    + repeat split; try reflexivity.
      * intros c' [= <-]. congruence.
      * congruence.
  - repeat split; try reflexivity; try discriminate; congruence.
Qed.

Lemma appendcookie_frame_witness :
  exists opts' : gmap string val,
    fst (appendcookie Scenario.env_ok {[ "quiet" := VBool true ]} (Some "cookies.txt")) = Ret opts'
    /\ opts' !! "quiet" = Some (VBool true)
    /\ opts' !! "cookiefile" = Some (VStr "/config/cookies.txt").
Proof.
  destruct (appendcookie_frame Scenario.env_ok {[ "quiet" := VBool true ]} (Some "cookies.txt"))
    as (opts' & Hr & Hframe & Hset & _).
  exists opts'. split; [exact Hr|]. split.
  - rewrite (Hframe "quiet"); [reflexivity | discriminate].
  - rewrite (Hset "cookies.txt"); reflexivity.
Defined.

(** ** The title pattern compiler *)

(** C3. A title with [" AND "] compiles to a pattern that still spells AND
    and nothing else, and a title with [" & "] to one that spells the
    ampersand: the statement that looks for AND searches for spaces written
    with a backslash, which an unescaped title does not contain.  Neither
    pattern matches the title written the other way. *)
Theorem upperescape_and_not_interchangeable :
  upperescape "Tom and Jerry" = "TOM" ++ bs ++ "s*AND" ++ bs ++ "s*JERRY"
  /\ upperescape "Tom & Jerry" = "TOM" ++ bs ++ "s*&" ++ bs ++ "s*JERRY"
  /\ Str.contains "(AND|&)" (upperescape "Tom and Jerry") = false
  /\ Str.contains "(AND|&)" (upperescape "Tom & Jerry") = false
  /\ Re.search (upperescape "Tom and Jerry") "Tom and Jerry" = Some true
  /\ Re.search (upperescape "Tom and Jerry") "Tom & Jerry" = Some false
  /\ Re.search (upperescape "Tom & Jerry") "Tom and Jerry" = Some false.
Proof. repeat split; vm_compute; reflexivity. Qed.

(** C4. A period and a question mark go through the compiler unchanged,
    while the colon, the straight apostrophe, the comma and the exclamation
    mark become optional groups: the statements for the period and the
    question mark search for them behind a backslash.  The period is left
    to stand for any one character, so the pattern of "A.B" does not match
    "AB"; the question mark is left as a quantifier of the letter before
    it, so the pattern of "Who? Me" does not match "Who? Me". *)
Theorem upperescape_period_question_unchanged :
  upperescape "A.B" = "A.B"
  /\ Re.search (upperescape "A.B") "AB" = Some false
  /\ upperescape "Who? Me" = "WHO?" ++ bs ++ "s*ME"
  /\ Re.search (upperescape "Who? Me") "Who? Me" = Some false
  /\ upperescape "A:B,C!D'E" = "A([:]?)B([,]?)C([!]?)D(['" ++ curly_apostrophe ++ "]?)E"
  /\ Re.search (upperescape "A:B,C!D'E") "ABCDE" = Some true
  /\ Re.search (upperescape "A:B,C!D'E") "A:B,C!D'E" = Some true.
Proof. repeat split; vm_compute; reflexivity. Qed.

(** ** The series configuration resolver *)

Lemma apply_wanted_title (wnt : wanted) (ser : series) :
  ser_title (apply_wanted wnt ser) = ser_title ser.
Proof. reflexivity. Qed.

Lemma match_wanted_title (wnts : list wanted) (ser : series) (hits : nat) :
  ser_title (fst (match_wanted wnts ser hits)) = ser_title ser.
Proof.
  revert ser hits. induction wnts as [|wnt wnts IH]; intros ser hits; simpl; [reflexivity|].
  destruct (String.eqb _ _); rewrite IH; reflexivity.
Qed.

(** Without the title among the configured ones, no hit. *)
Lemma match_wanted_no_hit (wnts : list wanted) (ser : series) (hits : nat) :
  ~ In (ser_title ser) (map w_title wnts) ->
  snd (match_wanted wnts ser hits) = hits.
Proof.
  revert ser hits. induction wnts as [|wnt wnts IH]; intros ser hits Hn; simpl; [reflexivity|].
  destruct (String.eqb (w_title wnt) (ser_title ser)) eqn:Heq.
  - apply String.eqb_eq in Heq. exfalso. apply Hn. simpl. now left.
  - apply IH. intros Hin. apply Hn. simpl. now right.
Qed.

(** With pairwise distinct configured titles, at most one hit. *)
Lemma match_wanted_hits (wnts : list wanted) (ser : series) (hits : nat) :
  List.NoDup (map w_title wnts) ->
  (snd (match_wanted wnts ser hits) <= S hits)%nat.
Proof.
  revert ser hits. induction wnts as [|wnt wnts IH]; intros ser hits Hnd; simpl; [lia|].
  apply NoDup_cons_iff in Hnd as [Hnotin Hnd].
  destruct (String.eqb (w_title wnt) (ser_title ser)) eqn:Heq.
  - apply String.eqb_eq in Heq.
    rewrite match_wanted_no_hit; [lia|].
    rewrite apply_wanted_title, <- Heq. exact Hnotin.
  - now apply IH.
Qed.

(** The titles of [matched], in order, with the hits of each series. *)
Lemma matched_titles (wnts : list wanted) (series0 : list series) :
  map ser_title (matched_of wnts series0) =
    flat_map (fun ser => replicate (snd (match_wanted wnts ser O)) (ser_title ser)) series0.
Proof.
  unfold matched_of. induction series0 as [|ser l IH]; simpl; [reflexivity|].
  rewrite map_app, IH. f_equal.
  pose proof (match_wanted_title wnts ser O) as Ht.
  destruct (match_wanted wnts ser O) as [ser' hits]; simpl in *.
  rewrite <- Ht. clear. induction hits; simpl; congruence.
Qed.

Lemma matched_titles_distinct (wnts : list wanted) (series0 : list series) :
  List.NoDup (map w_title wnts) -> titles_distinct series0 ->
  titles_distinct (matched_of wnts series0).
Proof.
  unfold titles_distinct. intros Hw. rewrite matched_titles.
  induction series0 as [|ser l IH]; simpl; intros Hs; [constructor|].
  apply NoDup_cons_iff in Hs as [Hnotin Hs].
  assert (Hsub : forall x, In x (flat_map (fun ser0 =>
             replicate (snd (match_wanted wnts ser0 O)) (ser_title ser0)) l) ->
             In x (map ser_title l)).
  { clear. induction l as [|s l IHl]; simpl; [tauto|].
    intros x Hx. apply in_app_or in Hx as [Hx|Hx].
    - left. apply list_elem_of_In, elem_of_replicate in Hx. symmetry. tauto.
    - right. auto. }
  pose proof (match_wanted_hits wnts ser O Hw) as Hh.
  destruct (snd (match_wanted wnts ser O)) as [|[|n]]; simpl; try lia.
  - auto.
  - apply NoDup_cons_iff. split; auto.
Qed.

Lemma filterseries_returns (self : SonarrYTDL) (env : Env) (series0 : list series) :
  get_series env = Ret series0 ->
  exists tr, filterseries self env = (Ret (matched_of (wanted_series self) series0), tr).
Proof.
  intros Hg. unfold filterseries. rewrite Hg. simpl.
  destruct (for_each_total (matched_of (wanted_series self) series0)
              (fun check => if negb (ser_monitored check)
                 then emit (Log WARNING (leftover_title series0 ++ " is not currently monitored"))
                 else ret tt)) as [tr Htr].
  { intros x _. destruct (negb _); eexists; reflexivity. }
  rewrite Htr. simpl. eexists; reflexivity.
Qed.

(** C8, as the code has it. When the configured titles are pairwise
    distinct and so are the titles of the series the media manager lists,
    [filterseries] returns a list in which no two entries share a title. *)
Theorem filterseries_titles_distinct (self : SonarrYTDL) (env : Env) (series0 : list series) :
  get_series env = Ret series0 ->
  List.NoDup (map w_title (wanted_series self)) ->
  titles_distinct series0 ->
  exists matched tr,
    filterseries self env = (Ret matched, tr) /\ titles_distinct matched.
Proof.
  intros Hg Hw Hs. destruct (filterseries_returns self env series0 Hg) as [tr Hf].
  exists (matched_of (wanted_series self) series0), tr. split; [exact Hf|].
  now apply matched_titles_distinct.
Qed.

Lemma filterseries_titles_distinct_witness :
  exists matched tr,
    filterseries self_two (env_listing listing_three) = (Ret matched, tr)
    /\ titles_distinct matched
    /\ map ser_title matched = ["Example Show"; "Other Show"].
Proof.
  destruct (filterseries_titles_distinct self_two (env_listing listing_three) listing_three)
    as (matched & tr & Hf & Hd).
  - reflexivity.
  - cbn. repeat constructor; cbn; intros H; repeat destruct H as [H|H]; discriminate || assumption.
  - unfold titles_distinct. cbn.
    repeat constructor; cbn; intros H; repeat destruct H as [H|H]; discriminate || assumption.
  - exists matched, tr. split; [exact Hf|]. split; [exact Hd|].
    vm_compute in Hf. injection Hf as <- _. reflexivity.
Defined.

(** C8, as stated, fails: a title configured twice is matched twice. *)
Lemma filterseries_repeats_title :
  exists matched tr,
    filterseries Scenario.self_twice Scenario.env_ok = (Ret matched, tr)
    /\ ~ titles_distinct matched.
Proof.
  eexists _, _. split; [vm_compute; reflexivity|].
  unfold titles_distinct. simpl. intros Hnd.
  apply NoDup_cons_iff in Hnd as [Hnotin _]. apply Hnotin. simpl. now left.
Qed.

(** ** The episode need filter *)

Lemma list_remove_first_last {A} `{EqDecision A} (x : A) (l : list A) :
  ~ In x l -> list_remove_first x (l ++ [x])%list = l.
Proof.
  induction l as [|y l IH]; simpl; intros Hn.
  - destruct (decide (x = x)); congruence.
  - destruct (decide (y = x)) as [->|Hne]; [tauto|].
    f_equal. apply IH. tauto.
Qed.

Lemma list_remove_first_middle {A} `{EqDecision A} (x : A) (l r : list A) :
  ~ In x l -> list_remove_first x (l ++ x :: r)%list = (l ++ r)%list.
Proof.
  induction l as [|y l IH]; simpl; intros Hn.
  - destruct (decide (x = x)); congruence.
  - destruct (decide (y = x)) as [->|Hne]; [tauto|].
    f_equal. apply IH. tauto.
Qed.

Lemma excluded_false (env : Env) (eps : episode) (d : Z) :
  excluded env eps d = false <->
  eps_monitored eps = true /\ eps_hasFile eps = false /\ d <= now env.
Proof.
  unfold excluded. rewrite !orb_false_iff, negb_false_iff, Z.ltb_ge. tauto.
Qed.

Lemma due_iff (env : Env) (ser : series) (eps : episode) :
  due env ser eps <->
  exists d, eps_date_of env ser eps = Ret d /\ excluded env eps d = false.
Proof.
  unfold due. split.
  - intros (Hm & Hf & d & Hd & Hle). exists d. split; [exact Hd|].
    apply excluded_false. auto.
  - intros (d & Hd & Hx). apply excluded_false in Hx as (Hm & Hf & Hle). eauto 6.
Qed.

(** The rewrite touches the title only. *)
Lemma rewrite_title_fields (env : Env) (ser : series) (eps eps' : episode) :
  rewrite_title env ser eps = Ret eps' ->
  exists t, eps' = set_eps_title eps t.
Proof.
  unfold rewrite_title. destruct (ser_sonarr_regex_match ser) as [pat|].
  - destruct (getitem _) as [repl|]; [|discriminate].
    destruct (re_sub env pat repl (eps_title eps)) as [t|]; [|discriminate].
    intros [= <-]. eauto.
  - intros [= <-]. exists (eps_title eps). now destruct eps.
Qed.

Lemma due_rewrite (env : Env) (ser : series) (eps eps' : episode) :
  rewrite_title env ser eps = Ret eps' -> due env ser eps -> due env ser eps'.
Proof.
  intros Hr Hd. apply rewrite_title_fields in Hr as [t ->]. exact Hd.
Qed.

(** An episode that fails the test is not among those kept before it. *)
Lemma excluded_not_visited (env : Env) (ser : series) (eps : episode) (d : Z)
    (visited : list episode) :
  Forall (due env ser) visited ->
  eps_date_of env ser eps = Ret d -> excluded env eps d = true ->
  ~ In eps visited.
Proof.
  intros Hall Hd Hx Hin. rewrite List.Forall_forall in Hall.
  apply Hall, due_iff in Hin as (d' & Hd' & Hx'). congruence.
Qed.

(** The loop over the episodes computes [kept_of]: it leaves the kept
    episodes behind [visited] and behind [needed], raises where [kept_of]
    raises, and logs nothing. *)
Lemma episodes_loop_kept_of (env : Env) (ser : series) (rest visited needed : list episode) :
  Forall (due env ser) visited ->
  episodes_loop env ser rest visited needed =
    (match kept_of env ser rest with
     | Ret kept => Ret ((visited ++ kept)%list, (needed ++ kept)%list)
     | Raise e => Raise e
     end, []).
Proof.
  revert visited needed. induction rest as [|eps rest IH]; intros visited needed Hv; simpl.
  - now rewrite !app_nil_r.
  - destruct (eps_date_of env ser eps) as [d|e] eqn:Hd; simpl; [|reflexivity].
    destruct (excluded env eps d) eqn:Hx.
    + rewrite list_remove_first_last by (eapply excluded_not_visited; eauto).
      rewrite IH by exact Hv. reflexivity.
    + destruct (rewrite_title env ser eps) as [eps'|e] eqn:Hr; simpl; [|reflexivity].
      rewrite IH.
      * destruct (kept_of env ser rest) as [kept|e]; simpl; [|reflexivity].
        now rewrite <- !app_assoc.
      * apply Forall_app. split; [exact Hv|]. constructor; [|constructor].
        eapply due_rewrite; [exact Hr|]. apply due_iff. eauto.
Qed.

(** What [kept_of] keeps: exactly the rewritten due episodes. *)
Lemma kept_of_sound (env : Env) (ser : series) (episodes kept : list episode) :
  kept_of env ser episodes = Ret kept ->
  forall e, In e kept ->
    exists eps, In eps episodes /\ due env ser eps /\ rewrite_title env ser eps = Ret e.
Proof.
  revert kept. induction episodes as [|eps rest IH]; simpl; intros kept Hk e Hin.
  - injection Hk as <-. destruct Hin.
  - destruct (eps_date_of env ser eps) as [d|] eqn:Hd; [|discriminate].
    destruct (excluded env eps d) eqn:Hx.
    + destruct (IH kept Hk e Hin) as (eps0 & H0 & H1). eauto.
    + destruct (rewrite_title env ser eps) as [eps'|] eqn:Hr; [|discriminate].
      destruct (kept_of env ser rest) as [kept'|]; [|discriminate].
      injection Hk as <-. destruct Hin as [<-|Hin].
      * exists eps. split; [now left|]. split; [|exact Hr]. apply due_iff; eauto.
      * destruct (IH kept' eq_refl e Hin) as (eps0 & H0 & H1). eauto.
Qed.

Lemma kept_of_complete (env : Env) (ser : series) (episodes kept : list episode) :
  kept_of env ser episodes = Ret kept ->
  forall eps, In eps episodes -> due env ser eps ->
    exists e, rewrite_title env ser eps = Ret e /\ In e kept.
Proof.
  revert kept. induction episodes as [|eps0 rest IH]; simpl; intros kept Hk eps Hin Hdue.
  - destruct Hin.
  - destruct (eps_date_of env ser eps0) as [d|] eqn:Hd; [|discriminate].
    destruct (excluded env eps0 d) eqn:Hx.
    + destruct Hin as [<-|Hin]; [|eauto].
      apply due_iff in Hdue as (d' & Hd' & Hx'). congruence.
    + destruct (rewrite_title env ser eps0) as [eps'|] eqn:Hr; [|discriminate].
      destruct (kept_of env ser rest) as [kept'|]; [|discriminate].
      injection Hk as <-. destruct Hin as [<-|Hin].
      * exists eps'. split; [exact Hr | now left].
      * destruct (IH kept' eq_refl eps Hin Hdue) as (e & He & Hk'). exists e. split; [exact He | now right].
Qed.

Lemma for_enumerate_total {A} (xs : list A) (i : Z) (body : Z -> A -> M unit) :
  (forall j x, exists tr, body j x = (Ret tt, tr)) ->
  exists tr, for_enumerate i xs body = (Ret tt, tr).
Proof.
  intros Hb. revert i. induction xs as [|x xs IH]; intros i; simpl.
  - eexists; reflexivity.
  - destruct (Hb i x) as [tr1 H1]. destruct (IH (i + 1)) as [tr2 H2].
    rewrite H1; simpl. rewrite H2. eexists; reflexivity.
Qed.

Lemma log_missing_total (ser : series) (episodes : list episode) :
  exists tr, log_missing ser episodes = (Ret tt, tr).
Proof.
  unfold log_missing. simpl.
  destruct (for_enumerate_total episodes 0 (fun i e =>
    emit (Log INFO ("  " ++ str_of_Z (i + 1) ++ ": " ++ ser_title ser ++ " - " ++ eps_title e))))
    as [tr Htr].
  { intros j x. eexists; reflexivity. }
  rewrite Htr. eexists; reflexivity.
Qed.

Lemma needed_of_answer (env : Env) (ser : series) (episodes kept : list episode) :
  get_episodes_by_series_id env (ser_id ser) = Ret episodes ->
  kept_of env ser episodes = Ret kept ->
  needed_of env ser = kept.
Proof. intros Hg Hk. unfold needed_of. now rewrite Hg, Hk. Qed.

Lemma series_loop_cons (env : Env) (ser : series) (copy series0 : list series)
    (needed : list episode) :
  series_loop env (ser :: copy) series0 needed =
    (emit (GetEpisodes (ser_id ser)) ;;;
     let! episodes := lift (get_episodes_by_series_id env (ser_id ser)) in
     let! (episodes', needed') := episodes_loop env ser episodes [] needed in
     if Nat.eqb (length episodes') 0
     then
       emit (Log INFO (ser_title ser ++ " no episodes needed")) ;;;
       series_loop env copy (list_remove_first ser series0) needed'
     else
       log_missing ser episodes' ;;;
       series_loop env copy series0 needed').
Proof. reflexivity. Qed.

(** A run of the series loop that returns had an answer for every series. *)
Lemma series_loop_answers (env : Env) (copy series0 : list series) (needed : list episode)
    (res : list series * list episode) (tr : list event) :
  series_loop env copy series0 needed = (Ret res, tr) ->
  Forall (answers env) copy.
Proof.
  revert series0 needed tr. induction copy as [|ser copy IH]; intros series0 needed tr H.
  - constructor.
  - rewrite series_loop_cons in H. bind_inv H. bind_inv Hk.
    apply lift_inv in Hm0 as [Hget _].
    bind_inv Hk0. rewrite episodes_loop_kept_of in Hm0 by constructor.
    destruct (kept_of env ser a0) as [kept|] eqn:Hkept; [|discriminate].
    injection Hm0 as <- <-. cbn beta iota in Hk.
    constructor.
    + exists a0, kept. auto.
    + destruct (Nat.eqb (length kept) 0); bind_inv Hk; eauto.
Qed.

(** The series loop on [A ++ copy], where [A] are the series already seen
    and kept: it keeps the series with a needed episode and collects the
    needed episodes of all. *)
Lemma series_loop_run (env : Env) (copy A : list series) (needed : list episode) :
  (forall s, In s A -> has_needed env s = true) ->
  Forall (answers env) copy ->
  exists tr,
    series_loop env copy (A ++ copy)%list needed =
      (Ret ((A ++ List.filter (has_needed env) copy)%list,
            (needed ++ flat_map (needed_of env) copy)%list), tr).
Proof.
  revert A needed. induction copy as [|ser copy IH]; intros A needed HA Hans.
  - simpl. rewrite !app_nil_r. eexists; reflexivity.
  - apply Forall_cons_1 in Hans as [(episodes & kept & Hget & Hkept) Hans].
    pose proof (needed_of_answer env ser episodes kept Hget Hkept) as Hn.
    simpl. rewrite Hget. simpl. rewrite episodes_loop_kept_of by constructor.
    rewrite Hkept. simpl.
    assert (Hhas : has_needed env ser = negb (Nat.eqb (length kept) 0))
      by (unfold has_needed; now rewrite Hn).
    rewrite Hhas, Hn.
    destruct (Nat.eqb (length kept) 0) eqn:Hlen; simpl.
    + assert (kept = []) as -> by (destruct kept; [reflexivity | discriminate]).
      rewrite list_remove_first_middle.
      * destruct (IH A (needed ++ [])%list HA Hans) as [tr Htr]. rewrite Htr.
        rewrite !app_nil_r. eexists; reflexivity.
      * intros Hin. apply HA in Hin. rewrite Hhas in Hin. discriminate.
    + destruct (log_missing_total ser kept) as [tr1 Htr1]. rewrite Htr1. simpl.
      destruct (IH (A ++ [ser])%list (needed ++ kept)%list) as [tr Htr].
      * intros s Hs. apply in_app_or in Hs as [Hs|[<-|[]]]; [auto|].
        exact Hhas.
      * exact Hans.
      * rewrite <- app_assoc in Htr. simpl in Htr. rewrite Htr.
        rewrite <- !app_assoc. simpl. eexists; reflexivity.
Qed.

(** [getseriesepisodes], when it returns: the caller's list keeps the
    series with a needed episode, and [needed] lists the needed episodes of
    every series, in order. *)
Lemma getseriesepisodes_result (env : Env) (series0 series1 : list series)
    (needed : list episode) (tr : list event) :
  getseriesepisodes env series0 = (Ret (series1, needed), tr) ->
  Forall (answers env) series0
  /\ series1 = List.filter (has_needed env) series0
  /\ needed = flat_map (needed_of env) series0.
Proof.
  unfold getseriesepisodes. intros H.
  pose proof (series_loop_answers _ _ _ _ _ _ H) as Hans.
  destruct (series_loop_run env series0 [] [] (fun s (Hs : In s []) => match Hs with end) Hans)
    as [tr' Hrun].
  simpl in Hrun. rewrite Hrun in H. injection H as <- <- _. auto.
Qed.

(** And it returns whenever every series has an answer. *)
Lemma getseriesepisodes_total (env : Env) (series0 : list series) :
  Forall (answers env) series0 ->
  exists tr,
    getseriesepisodes env series0 =
      (Ret (List.filter (has_needed env) series0, flat_map (needed_of env) series0), tr).
Proof.
  intros Hans. unfold getseriesepisodes.
  exact (series_loop_run env series0 [] [] (fun s (Hs : In s []) => match Hs with end) Hans).
Qed.

Lemma rewrite_title_hasFile (env : Env) (ser : series) (eps e : episode) :
  rewrite_title env ser eps = Ret e ->
  eps_hasFile e = eps_hasFile eps /\ eps_monitored e = eps_monitored eps
  /\ eps_airDateUtc e = eps_airDateUtc eps.
Proof. intros H. apply rewrite_title_fields in H as [t ->]. auto. Qed.

(** Where every needed episode comes from. *)
Lemma needed_origin (env : Env) (series0 : list series) (e : episode) :
  In e (flat_map (needed_of env) series0) ->
  exists ser episodes eps,
    In ser series0 /\ get_episodes_by_series_id env (ser_id ser) = Ret episodes
    /\ In eps episodes /\ due env ser eps /\ rewrite_title env ser eps = Ret e.
Proof.
  intros Hin. apply in_flat_map in Hin as (ser & Hser & Hin).
  unfold needed_of in Hin.
  destruct (get_episodes_by_series_id env (ser_id ser)) as [episodes|] eqn:Hget; [|destruct Hin].
  destruct (kept_of env ser episodes) as [kept|] eqn:Hk; [|destruct Hin].
  destruct (kept_of_sound env ser episodes kept Hk e Hin) as (eps & H1 & H2 & H3).
  exists ser, episodes, eps. auto.
Qed.

(** The date the loop computes, read off the environment: [now] without an
    air date, else the parsed date plus the shift of the series. *)
Lemma eps_date_of_shift (env : Env) (ser : series) (eps : episode) (d : Z) :
  eps_date_of env ser eps = Ret d ->
  match eps_airDateUtc eps with
  | None => d = now env
  | Some text => exists t, strptime env text = Ret t /\ d = t + shift_of ser
  end.
Proof.
  unfold eps_date_of, shift_of. destruct (eps_airDateUtc eps) as [text|]; [|now intros [= <-]].
  destruct (strptime env text) as [t|]; [|discriminate].
  destruct (ser_offset ser) as [offset|].
  - unfold offsethandler. intros H. apply add_returns in H as [-> _].
    exists t. split; [reflexivity|]. rewrite offset_delta_fields.
    unfold Datetime.us_per_week. lia.
  - intros [= <-]. exists t. split; [reflexivity | lia].
Qed.

Lemma due_aired (env : Env) (ser : series) (eps : episode) :
  due env ser eps -> aired env ser eps.
Proof.
  intros (_ & _ & d & Hd & Hle). apply eps_date_of_shift in Hd. unfold aired.
  destruct (eps_airDateUtc eps) as [text|]; [|exact I].
  destruct Hd as (t & Ht & ->). eauto.
Qed.

Lemma aired_due (env : Env) (ser : series) (eps : episode) (d : Z) :
  eps_date_of env ser eps = Ret d -> aired env ser eps ->
  eps_monitored eps = true -> eps_hasFile eps = false -> due env ser eps.
Proof.
  intros Hd Ha Hm Hf. split; [exact Hm|]. split; [exact Hf|]. exists d. split; [exact Hd|].
  apply eps_date_of_shift in Hd. unfold aired in Ha.
  destruct (eps_airDateUtc eps) as [text|]; [|lia].
  destruct Hd as (t & Ht & ->). destruct Ha as (t' & Ht' & Hle). congruence.
Qed.

(** A run of the test over a listing computes the date of every episode. *)
Lemma kept_of_dates (env : Env) (ser : series) (episodes kept : list episode) :
  kept_of env ser episodes = Ret kept ->
  forall eps, In eps episodes -> exists d, eps_date_of env ser eps = Ret d.
Proof.
  revert kept. induction episodes as [|eps0 rest IH]; simpl; intros kept Hk eps Hin.
  - destruct Hin.
  - destruct (eps_date_of env ser eps0) as [d|] eqn:Hd; [|discriminate].
    destruct Hin as [<-|Hin]; [eauto|].
    destruct (excluded env eps0 d); [eauto|].
    destruct (rewrite_title env ser eps0) as [eps'|]; [|discriminate].
    destruct (kept_of env ser rest) as [kept'|]; [eauto | discriminate].
Qed.

(** Where the loop over a listing returns, it keeps what the words of the
    specification keep. *)
Lemma kept_of_spec (env : Env) (ser : series) (episodes kept : list episode) :
  kept_of env ser episodes = Ret kept ->
  kept = map (retitled env ser) (List.filter (wanted_now env ser) episodes).
Proof.
  revert kept. induction episodes as [|eps rest IH]; simpl; intros kept Hk.
  - now injection Hk as <-.
  - destruct (eps_date_of env ser eps) as [d|] eqn:Hd; [|discriminate].
    assert (Htest : excluded env eps d = negb (wanted_now env ser eps)).
    { apply eps_date_of_shift in Hd. unfold excluded, wanted_now.
      destruct (eps_monitored eps), (eps_hasFile eps); cbn [negb andb orb]; try reflexivity.
      destruct (eps_airDateUtc eps) as [text|].
      - destruct Hd as (t & -> & ->). cbn [negb]. apply Z.ltb_antisym.
      - subst d. cbn [negb]. apply Z.ltb_irrefl. }
    rewrite Htest in Hk. destruct (wanted_now env ser eps); cbn [negb] in Hk; [|auto].
    destruct (rewrite_title env ser eps) as [eps'|] eqn:Hr; [|discriminate].
    destruct (kept_of env ser rest) as [kept'|]; [|discriminate].
    injection Hk as <-. cbn [map]. f_equal; [|auto].
    unfold rewrite_title in Hr. unfold retitled.
    destruct (ser_sonarr_regex_match ser) as [pat|]; [|now injection Hr as <-].
    destruct (ser_sonarr_regex_replace ser) as [repl|]; [|discriminate].
    cbn [getitem] in Hr.
    destruct (re_sub env pat repl (eps_title eps)) as [t|]; [|discriminate].
    now injection Hr as <-.
Qed.

(** C5. When the need filter returns:
    - no episode with a file is among the needed ones, whatever its air
      date;
    - a listed episode that is monitored, has no file and has no air date
      is among them (with its title rewritten), and so is one whose air
      date, read by [strptime] and shifted by the weeks, days, hours and
      minutes of the offset of its series, is not after [now];
    - every needed episode comes from a listed episode that is monitored,
      has no file and has aired in this sense for the series it is listed
      under;
    - an episode whose air date, so shifted, is after [now] for every
      series of the list is not among the needed ones;
    - in all, the needed list is, series by series in the order of the
      list, the listed episodes that are monitored, have no file and are
      not dated after [now] once shifted, in the order of the listing and
      with their rewritten titles. *)
Theorem need_filter_cases (env : Env) (series0 series1 : list series)
    (needed : list episode) (tr : list event) :
  getseriesepisodes env series0 = (Ret (series1, needed), tr) ->
  (forall e, In e needed -> eps_hasFile e = false)
  /\ (forall ser episodes eps,
        In ser series0 ->
        get_episodes_by_series_id env (ser_id ser) = Ret episodes ->
        In eps episodes ->
        eps_monitored eps = true -> eps_hasFile eps = false ->
        match eps_airDateUtc eps with
        | None => True
        | Some text => exists t, strptime env text = Ret t /\ t + shift_of ser <= now env
        end ->
        exists e, rewrite_title env ser eps = Ret e /\ In e needed)
  /\ (forall e, In e needed ->
        exists ser episodes eps,
          In ser series0 /\ get_episodes_by_series_id env (ser_id ser) = Ret episodes
          /\ In eps episodes /\ rewrite_title env ser eps = Ret e
          /\ eps_monitored eps = true /\ eps_hasFile eps = false
          /\ match eps_airDateUtc eps with
             | None => True
             | Some text =>
                 exists t, strptime env text = Ret t /\ t + shift_of ser <= now env
             end)
  /\ (forall e text t,
        eps_airDateUtc e = Some text -> strptime env text = Ret t ->
        (forall ser, In ser series0 -> now env < t + shift_of ser) ->
        ~ In e needed)
  /\ needed =
       flat_map (fun ser =>
         map (retitled env ser) (List.filter (wanted_now env ser) (listing_of env ser)))
         series0.
Proof.
  intros H. apply getseriesepisodes_result in H as (Hans & _ & ->).
  rewrite List.Forall_forall in Hans.
  split; [|split; [|split; [|split]]].
  - intros e He. apply needed_origin in He as (ser & episodes & eps & _ & _ & _ & Hdue & Hr).
    apply rewrite_title_hasFile in Hr as (-> & _). apply Hdue.
  - intros ser episodes eps Hser Hget Heps Hmon Hfile Haired.
    destruct (Hans ser Hser) as (episodes' & kept & Hget' & Hk).
    rewrite Hget in Hget'. injection Hget' as <-.
    destruct (kept_of_dates env ser episodes kept Hk eps Heps) as [d Hd].
    destruct (kept_of_complete env ser episodes kept Hk eps Heps) as (e & Hr & Hin).
    + exact (aired_due env ser eps d Hd Haired Hmon Hfile).
    + exists e. split; [exact Hr|]. apply in_flat_map. exists ser. split; [exact Hser|].
      now rewrite (needed_of_answer env ser episodes kept Hget Hk).
  - intros e He. apply needed_origin in He
      as (ser & episodes & eps & Hser & Hget & Heps & Hdue & Hr).
    exists ser, episodes, eps.
    pose proof (due_aired env ser eps Hdue) as Ha. destruct Hdue as (Hm & Hf & _).
    auto 10.
  - intros e text t Hair Hparse Hlate He. apply needed_origin in He
      as (ser & episodes & eps & Hser & _ & _ & Hdue & Hr).
    apply rewrite_title_hasFile in Hr as (_ & _ & Hsame).
    apply due_aired in Hdue. unfold aired in Hdue. rewrite <- Hsame, Hair in Hdue.
    destruct Hdue as (t' & Ht' & Hle). specialize (Hlate ser Hser).
    rewrite Hparse in Ht'. injection Ht' as <-. lia.
  - clear - Hans. induction series0 as [|ser l IH]; [reflexivity|].
    cbn [flat_map]. rewrite IH by (intros s Hs; apply Hans; now right). f_equal.
    destruct (Hans ser (or_introl eq_refl)) as (episodes & kept & Hget & Hk).
    rewrite (needed_of_answer env ser episodes kept Hget Hk).
    unfold listing_of. rewrite Hget. now apply kept_of_spec.
Qed.

Lemma need_filter_cases_witness :
  exists series1 needed tr,
    getseriesepisodes Dated.env [Dated.delayed] = (Ret (series1, needed), tr)
    /\ In Scenario.pilot needed /\ In Scenario.second needed
    /\ ~ In Dated.late needed /\ ~ In Dated.fresh needed
    /\ ~ In Dated.stored_late needed /\ ~ In Scenario.on_disk needed.
Proof.
  eexists _, _, _. split; [vm_compute; reflexivity|].
  destruct (need_filter_cases Dated.env [Dated.delayed] _ _ _ eq_refl)
    as (Hfile & Hin & _ & Hout & _).
  assert (Hkeep : forall eps,
            In eps Dated.listing -> eps_monitored eps = true -> eps_hasFile eps = false ->
            aired Dated.env Dated.delayed eps ->
            In eps [Scenario.pilot; Scenario.second]).
  { intros eps Heps Hm Hf Ha.
    destruct (Hin Dated.delayed Dated.listing eps (or_introl eq_refl) eq_refl Heps Hm Hf Ha)
      as (e & [= <-] & He). exact He. }
  split; [apply Hkeep; [now left | reflexivity | reflexivity|];
          exists Scenario.t2020; split; [reflexivity | vm_compute; discriminate]|].
  split; [apply Hkeep; [right; now left | reflexivity | reflexivity | exact I]|].
  split; [apply (Hout Dated.late "2030-01-01T00:00:00Z" Dated.t2030 eq_refl eq_refl);
          intros ser [<-|[]]; vm_compute; reflexivity|].
  split; [apply (Hout Dated.fresh "2023-12-28T00:00:00Z" Dated.recent eq_refl eq_refl);
          intros ser [<-|[]]; vm_compute; reflexivity|].
  split; intros Hbad; apply Hfile in Hbad; discriminate.
Defined.



(** The two outcomes side by side: a series with needed episodes stays, a
    series whose only episode has a file goes. *)
Example series_kept_and_dropped :
  fst (getseriesepisodes Scenario.env_ok [Scenario.policy])
    = Ret ([Scenario.policy], [Scenario.pilot; Scenario.second])
  /\ fst (getseriesepisodes Scenario.env_on_disk [Scenario.policy]) = Ret ([], []).
Proof. split; vm_compute; reflexivity. Qed.

(** ** Replacement of characters *)

Module StrFacts.

Import Str.

Lemma contains_single_nil (c : ascii) : contains (String c "") "" = false.
Proof. reflexivity. Qed.

Lemma contains_single_cons (c a : ascii) (s : string) :
  contains (String c "") (String a s) = Ascii.eqb c a || contains (String c "") s.
Proof. simpl. now destruct (Ascii.eqb c a). Qed.

Lemma contains_single_app (c : ascii) (x y : string) :
  contains (String c "") (x ++ y) = contains (String c "") x || contains (String c "") y.
Proof.
  induction x as [|a x IH].
  - simpl. destruct y; reflexivity.
  - change (String a x ++ y) with (String a (x ++ y)).
    rewrite !contains_single_cons, IH. now rewrite orb_assoc.
Qed.

(** A replacement brings in no character that is neither in the text nor
    in the replacement. *)
Lemma replace_go_no_new_char (c : ascii) (old new : string) (skip : nat) (s : string) :
  contains (String c "") new = false ->
  contains (String c "") s = false ->
  contains (String c "") (replace_go old new skip s) = false.
Proof.
  intros Hnew. revert skip. induction s as [|a s IH]; intros skip Hs; [reflexivity|].
  rewrite contains_single_cons in Hs. apply orb_false_iff in Hs as [Ha Hs].
  simpl. destruct skip as [|k]; [|now apply IH].
  destruct (startswith old (String a s)).
  - rewrite contains_single_app, Hnew. now apply IH.
  - rewrite contains_single_cons, Ha. now apply IH.
Qed.

(** Replacing a character by a text without it removes it. *)
Lemma replace_char_gone (c : ascii) (new s : string) :
  contains (String c "") new = false ->
  contains (String c "") (replace (String c "") new s) = false.
Proof.
  intros Hnew. unfold replace. induction s as [|a s IH]; [reflexivity|].
  simpl. destruct (Ascii.eqb c a) eqn:Hca.
  - rewrite contains_single_app, Hnew. exact IH.
  - rewrite contains_single_cons, Hca. exact IH.
Qed.

Lemma collapse_one (a : ascii) : replace "  " " " (String a "") = String a "".
Proof.
  unfold replace. cbn [replace_go startswith].
  now destruct (Ascii.eqb " " a).
Qed.

(** Two spaces become one, and the scan goes on behind them. *)
Lemma collapse_pair (s : string) :
  replace "  " " " (String space (String space s)) = String space (replace "  " " " s).
Proof. reflexivity. Qed.

Lemma collapse_other (a b : ascii) (s : string) :
  Ascii.eqb space a && Ascii.eqb space b = false ->
  replace "  " " " (String a (String b s)) = String a (replace "  " " " (String b s)).
Proof.
  intros H. unfold replace. cbn [replace_go startswith]. fold space.
  destruct (Ascii.eqb space a); [|reflexivity].
  cbn [andb] in H. now rewrite H.
Qed.

Lemma collapse_first (s : string) : first (replace "  " " " s) = first s.
Proof.
  destruct s as [|a [|b s]]; [reflexivity | now rewrite collapse_one |].
  destruct (Ascii.eqb space a && Ascii.eqb space b) eqn:H.
  - apply andb_true_iff in H as [Ha Hb].
    apply Ascii.eqb_eq in Ha, Hb. subst. now rewrite collapse_pair.
  - now rewrite collapse_other.
Qed.

Lemma contains2_cons (a : ascii) (s : string) :
  contains "  " (String a s) =
    (Ascii.eqb space a && match first s with Some b => Ascii.eqb space b | None => false end)
    || contains "  " s.
Proof.
  cbn [contains startswith]. fold space.
  destruct (Ascii.eqb space a); cbn [andb orb]; [|reflexivity].
  destruct s as [|b s]; cbn [first]; [reflexivity|]. now destruct (Ascii.eqb space b).
Qed.

Lemma contains3_pair (s : string) :
  contains "   " (String space (String space s)) = false ->
  match first s with Some b => Ascii.eqb space b | None => false end = false
  /\ contains "   " s = false.
Proof.
  destruct s as [|b s]; [auto|].
  cbn [contains startswith first]. rewrite !Ascii.eqb_refl. fold space.
  destruct (Ascii.eqb space b) eqn:Hb; cbn [orb].
  - discriminate.
  - intros H. split; [reflexivity|]. exact H.
Qed.

Lemma contains3_cons (a : ascii) (s : string) :
  contains "   " (String a s) = false -> contains "   " s = false.
Proof.
  cbn [contains]. intros H. apply orb_false_iff in H as [_ H]. exact H.
Qed.

(** One pass over a text without three spaces in a row leaves no two
    spaces in a row. *)
Lemma collapse_no_double (s : string) :
  contains "   " s = false -> contains "  " (replace "  " " " s) = false.
Proof.
  remember (String.length s) as n eqn:Hn. revert s Hn.
  induction n as [n IH] using lt_wf_ind. intros s Hn H3.
  destruct s as [|a [|b s]].
  - reflexivity.
  - rewrite collapse_one. cbn [contains startswith].
    now destruct (Ascii.eqb " " a).
  - destruct (Ascii.eqb space a && Ascii.eqb space b) eqn:Hab.
    + apply andb_true_iff in Hab as [Ha Hb].
      apply Ascii.eqb_eq in Ha, Hb. subst a b.
      rewrite collapse_pair, contains2_cons, collapse_first.
      apply contains3_pair in H3 as [Hfirst H3]. rewrite Hfirst, andb_false_r. simpl.
      apply (IH (String.length s)); [simpl in Hn; lia | reflexivity | exact H3].
    + rewrite collapse_other by exact Hab.
      rewrite contains2_cons, collapse_first. cbn [first].
      apply orb_false_iff. split; [exact Hab|].
      apply (IH (String.length (String b s))); [simpl in *; lia | reflexivity |].
      eapply contains3_cons; exact H3.
Qed.

End StrFacts.

(** ** The download orchestrator *)

Lemma str_of_Z_nonempty (n : Z) : (1 <= String.length (str_of_Z n))%nat.
Proof.
  unfold str_of_Z, NilZero.string_of_int.
  destruct (Z.to_int n) as [d|d]; destruct d; simpl; lia.
Qed.

Lemma fmt_02d_width (n : Z) : (2 <= String.length (fmt_02d n))%nat.
Proof.
  unfold fmt_02d. pose proof (str_of_Z_nonempty n) as H1.
  destruct (Nat.ltb_spec (String.length (str_of_Z n)) 2) as [Hlt|Hge]; [|lia].
  change ("0" ++ str_of_Z n) with (String "0" (str_of_Z n)). cbn [String.length]. lia.
Qed.

Lemma fmt_02d_digit (n : Z) : 0 <= n <= 9 -> fmt_02d n = "0" ++ str_of_Z n.
Proof.
  intros H. destruct n as [|p|p]; [reflexivity| |lia].
  do 4 (try destruct p as [p|p|]); try lia; reflexivity.
Qed.

Lemma update1_other (k k' : string) (v : val) (opts : gmap string val) :
  k <> k' -> update1 k v opts !! k' = opts !! k'.
Proof. intros H. unfold update1. now rewrite lookup_insert_ne. Qed.

Lemma appendcookie_returns (env : Env) (opts : gmap string val) (cookies : option string) :
  exists opts' tr,
    appendcookie env opts cookies = (Ret opts', tr)
    /\ forall k : string, k <> "cookiefile" -> opts' !! k = opts !! k.
Proof.
  unfold appendcookie. destruct cookies as [c|].
  - destruct (path_exists env _); simpl; eexists _, _; (split; [reflexivity|]).
    + intros k Hk. now apply update1_other.
    + reflexivity.
  - eexists _, _. split; reflexivity.
Qed.

(** The option set handed to the transfer carries the output path. *)
Lemma ytdl_format_options_outtmpl (self : SonarrYTDL) (env : Env) (ser : series)
    (eps : episode) (cookies : option string) (opts : gmap string val) (tr : list event) :
  ytdl_format_options self env ser eps cookies = (Ret opts, tr) ->
  opts !! "outtmpl" = Some (VStr (outtmpl ser eps)).
Proof.
  unfold ytdl_format_options. intros H.
  destruct (appendcookie_returns env
    {[ "format" := VStr (ytdl_format self);
       "quiet" := VBool true;
       "merge_output_format" := VStr (ytdl_merge_output_format self);
       "outtmpl" := VStr (outtmpl ser eps);
       "progress_hooks" := VHooks [ytdl_hooks];
       "noplaylist" := VBool true ]} cookies) as (o1 & tr1 & Hc & Hframe).
  specialize (Hframe "outtmpl" ltac:(discriminate)).
  bind_inv H. rewrite Hc in Hm. injection Hm as <- <-.
  assert (Ho2 : match ser_format ser with
                | Some f => customformat o1 (Some f)
                | None => o1
                end !! "outtmpl" = Some (VStr (outtmpl ser eps))).
  { destruct (ser_format ser); cbn [customformat];
      rewrite ?update1_other by discriminate; rewrite Hframe; reflexivity. }
  bind_inv Hk.
  assert (Ho3 : a !! "outtmpl" = Some (VStr (outtmpl ser eps))).
  { destruct (match ser_subtitles ser with Some true => true | _ => false end).
    - bind_inv Hm. injection Hk as <- _.
      rewrite !update1_other by discriminate. exact Ho2.
    - injection Hm as <- _. exact Ho2. }
  destruct (debug self).
  - bind_inv Hk0. bind_inv Hk. injection Hk0 as <- _.
    rewrite !update1_other by discriminate. exact Ho3.
  - injection Hk0 as <- _. rewrite update1_other by discriminate. exact Ho3.
Qed.

(** Traces of composed computations. *)
Lemma snd_bind {A B} (m : M A) (f : A -> M B) :
  snd (bind m f) =
    (snd m ++ match fst m with Ret a => snd (f a) | Raise _ => [] end)%list.
Proof.
  destruct m as [[a|e] tr1]; simpl.
  - now destruct (f a).
  - now rewrite app_nil_r.
Qed.

Lemma in_bind {A B} (ev : event) (m : M A) (f : A -> M B) :
  In ev (snd (bind m f)) ->
  In ev (snd m) \/ exists a, fst m = Ret a /\ In ev (snd (f a)).
Proof.
  rewrite snd_bind. intros H. apply in_app_or in H as [H|H]; [now left|].
  destruct (fst m) as [a|e]; [right; eauto | destruct H].
Qed.

Lemma no_transfer_bind {A B} (m : M A) (f : A -> M B) :
  no_transfer m -> (forall a, no_transfer (f a)) -> no_transfer (bind m f).
Proof.
  intros Hm Hf opts urls Hin. apply in_bind in Hin as [Hin|(a & _ & Hin)].
  - exact (Hm _ _ Hin).
  - exact (Hf a _ _ Hin).
Qed.

Lemma no_transfer_pure {A} (o : outcome A) : no_transfer (o, []).
Proof. intros opts urls []. Qed.

Lemma no_transfer_emit (ev : event) :
  (forall opts urls, ev <> Download opts urls) -> no_transfer (emit ev).
Proof. intros H opts urls [Heq|[]]. exact (H _ _ Heq). Qed.

Create HintDb traces.
#[local] Hint Resolve no_transfer_pure : traces.
#[local] Hint Extern 1 (no_transfer (ret _)) => apply no_transfer_pure : traces.
#[local] Hint Extern 1 (no_transfer (raise _)) => apply no_transfer_pure : traces.
#[local] Hint Extern 1 (no_transfer (lift _)) => apply no_transfer_pure : traces.
#[local] Hint Extern 1 (no_transfer (emit _)) =>
  apply no_transfer_emit; discriminate : traces.
#[local] Hint Extern 2 (no_transfer (bind _ _)) =>
  apply no_transfer_bind; [|intros ?] : traces.

Lemma no_transfer_appendcookie (env : Env) (opts : gmap string val) (cookies : option string) :
  no_transfer (appendcookie env opts cookies).
Proof.
  unfold appendcookie. destruct cookies as [c|]; [|auto with traces].
  destruct (path_exists env _); cbn [negb]; auto 10 with traces.
Qed.

Lemma no_transfer_search_opts (self : SonarrYTDL) (env : Env) (regextitle : string)
    (playlistreverse : bool) (cookies : option string) :
  no_transfer (ytdl_eps_search_opts self env regextitle playlistreverse cookies).
Proof.
  unfold ytdl_eps_search_opts.
  apply no_transfer_bind; [apply no_transfer_appendcookie|]. intros o.
  destruct (debug self); auto 10 with traces.
Qed.

Lemma no_transfer_ytsearch (env : Env) (opts : gmap string val) (url : string) :
  no_transfer (ytsearch env opts url).
Proof.
  unfold ytsearch. apply no_transfer_bind; [auto with traces|]. intros _.
  destruct (extract_info env opts url) as [[|entries webpage_url]|e]; auto with traces.
  apply no_transfer_bind.
  - destruct (usable_entries entries) as [[first|]|]; auto with traces.
  - intros [v|]; [destruct (String.eqb url v)|]; auto with traces.
Qed.

Lemma no_transfer_format_options (self : SonarrYTDL) (env : Env) (ser : series)
    (eps : episode) (cookies : option string) :
  no_transfer (ytdl_format_options self env ser eps cookies).
Proof.
  unfold ytdl_format_options.
  apply no_transfer_bind; [apply no_transfer_appendcookie|]. intros o.
  apply no_transfer_bind.
  - destruct (match ser_subtitles ser with Some true => true | _ => false end);
      auto with traces.
  - intros o'. destruct (debug self); auto 10 with traces.
Qed.

(** The transfers [transfer] starts carry the option set it was given. *)
Lemma transfer_downloads (env : Env) (ser : series) (shown : string)
    (opts : gmap string val) (dlurl : string) (o : gmap string val) (urls : list string) :
  In (Download o urls) (snd (transfer env ser shown opts dlurl)) -> o = opts.
Proof.
  unfold transfer. cbn.
  destruct (ydl_download env opts [dlurl]) as [[]|e]; cbn.
  - destruct (rescanseries env (ser_id ser)) as [[]|e]; cbn;
      intros [H|[H|[H|[]]]]; congruence.
  - intros [H|[H|[]]]; congruence.
Qed.

(** Every transfer [download_episode] starts carries the output path. *)
Lemma download_episode_outtmpl (self : SonarrYTDL) (env : Env) (ser : series)
    (e : Z) (eps : episode) (o : gmap string val) (urls : list string) :
  In (Download o urls) (snd (download_episode self env ser e eps)) ->
  o !! "outtmpl" = Some (VStr (outtmpl ser eps)).
Proof.
  unfold download_episode. intros H.
  apply in_bind in H as [H|(url & _ & H)]; [destruct H|].
  apply in_bind in H as [H|(plr & _ & H)]; [destruct H|].
  apply in_bind in H as [H|(ydleps & _ & H)];
    [exfalso; exact (no_transfer_search_opts _ _ _ _ _ _ _ H)|].
  apply in_bind in H as [H|(result & _ & H)];
    [exfalso; exact (no_transfer_ytsearch _ _ _ _ _ H)|].
  destruct result as [[[|] dlurl]|]; [| |destruct H].
  - apply in_bind in H as [[H|[]]|(_ & _ & H)]; [discriminate H|].
    apply in_bind in H as [H|(opts & Hopts & H)];
      [exfalso; exact (no_transfer_format_options _ _ _ _ _ _ _ H)|].
    apply transfer_downloads in H as ->.
    eapply ytdl_format_options_outtmpl. apply surjective_pairing_ret. exact Hopts.
  - destruct H as [H|[]]. discriminate H.
Qed.

(** C7, as the code has it. Every transfer started for a series and an
    episode is given, under ["outtmpl"], the path made of /sonarr_root, the
    series path, the folder "Season N" and the file name
    "title.SNEnn.episode title.%(ext)s": the season number is written as it
    is, the episode number in at least two digits with a leading zero below
    ten, neither title has a colon, and the episode title, after one pass
    that turns each pair of spaces into one, has no two spaces in a row
    provided it had no three in a row once its colons were gone. *)
Theorem outtmpl_shape (self : SonarrYTDL) (env : Env) (ser : series) (e : Z) (eps : episode) :
  (forall opts urls,
     In (Download opts urls) (snd (download_episode self env ser e eps)) ->
     opts !! "outtmpl" =
       Some (VStr ("/sonarr_root" ++ ser_path ser
                   ++ "/Season " ++ str_of_Z (eps_seasonNumber eps)
                   ++ "/" ++ ser_title_no_colon ser
                   ++ ".S" ++ str_of_Z (eps_seasonNumber eps)
                   ++ "E" ++ fmt_02d (eps_episodeNumber eps)
                   ++ "." ++ episode_title_no_colon eps
                   ++ ".%(ext)s")))
  /\ Str.contains ":" (ser_title_no_colon ser) = false
  /\ Str.contains ":" (episode_title_no_colon eps) = false
  /\ (Str.contains "   " (Str.replace ":" "" (eps_title eps)) = false ->
      Str.contains "  " (episode_title_no_colon eps) = false)
  /\ (2 <= String.length (fmt_02d (eps_episodeNumber eps)))%nat
  /\ (0 <= eps_episodeNumber eps <= 9 ->
      fmt_02d (eps_episodeNumber eps) = "0" ++ str_of_Z (eps_episodeNumber eps)).
Proof.
  split; [intros opts urls H; exact (download_episode_outtmpl _ _ _ _ _ _ _ H)|].
  split; [apply StrFacts.replace_char_gone; reflexivity|].
  split.
  { unfold episode_title_no_colon, Str.replace.
    apply StrFacts.replace_go_no_new_char; [reflexivity|].
    apply (StrFacts.replace_char_gone ":" "" (eps_title eps)). reflexivity. }
  split; [apply StrFacts.collapse_no_double|].
  split; [apply fmt_02d_width | apply fmt_02d_digit].
Qed.

Lemma outtmpl_shape_witness :
  exists opts,
    In (Download opts [Scenario.video])
       (snd (download_episode Scenario.self Scenario.env_ok Scenario.policy 0 Scenario.pilot))
    /\ opts !! "outtmpl"
       = Some (VStr "/sonarr_root/tv/Example Show/Season 1/Example Show.S1E01.Pilot.%(ext)s")
    /\ Str.contains "  " (episode_title_no_colon Scenario.pilot) = false
    /\ fmt_02d (eps_episodeNumber Scenario.pilot) = "01".
Proof.
  assert (Hin : exists opts, In (Download opts [Scenario.video])
            (snd (download_episode Scenario.self Scenario.env_ok Scenario.policy 0
                    Scenario.pilot))).
  { eexists. vm_compute. repeat (first [left; reflexivity | right]). }
  destruct Hin as [opts Hin]. exists opts. split; [exact Hin|].
  destruct (outtmpl_shape Scenario.self Scenario.env_ok Scenario.policy 0 Scenario.pilot)
    as (Hpath & _ & _ & Hspaces & _ & Hdigit).
  split; [exact (Hpath opts _ Hin)|].
  split; [apply Hspaces; reflexivity|].
  apply Hdigit. vm_compute. split; discriminate.
Defined.

(** C7, as stated, fails: three spaces in a row leave two. *)
Lemma outtmpl_keeps_double_space :
  episode_title_no_colon Scenario.spaced = "A  B"
  /\ Str.contains "  " (episode_title_no_colon Scenario.spaced) = true
  /\ outtmpl Scenario.policy Scenario.spaced
     = "/sonarr_root/tv/Example Show/Season 1/Example Show.S1E03.A  B.%(ext)s".
Proof. repeat split; vm_compute; reflexivity. Qed.

(** A failed rescan is handled like a failed transfer. *)
Lemma transfer_rescan_fails (env : Env) (ser : series) (shown : string)
    (opts : gmap string val) (dlurl : string) (e : exn) :
  ydl_download env opts [dlurl] = Ret tt ->
  rescanseries env (ser_id ser) = Raise e ->
  transfer env ser shown opts dlurl =
    (Ret tt, [Download opts [dlurl]; RescanSeries (ser_id ser);
              LogException ("      Failed - " ++ shown) e]).
Proof. intros Hd Hr. unfold transfer. cbn. rewrite Hd. cbn. rewrite Hr. reflexivity. Qed.

Lemma transfer_succeeds (env : Env) (ser : series) (shown : string)
    (opts : gmap string val) (dlurl : string) :
  ydl_download env opts [dlurl] = Ret tt ->
  rescanseries env (ser_id ser) = Ret tt ->
  transfer env ser shown opts dlurl =
    (Ret tt, [Download opts [dlurl]; RescanSeries (ser_id ser);
              Log INFO ("      Downloaded - " ++ shown)]).
Proof. intros Hd Hr. unfold transfer. cbn. rewrite Hd. cbn. rewrite Hr. reflexivity. Qed.

(** C2, as the code has it. When the transfer completes and the rescan
    call raises, the handler of the transfer catches the exception: the
    line "Failed - title" is logged with it, the line "Downloaded - title"
    is not, nothing is retried, and the loop goes on. *)
Theorem rescan_failure_reported_failed (env : Env) (ser : series) (shown : string)
    (opts : gmap string val) (dlurl : string) (e : exn) :
  ydl_download env opts [dlurl] = Ret tt ->
  rescanseries env (ser_id ser) = Raise e ->
  transfer env ser shown opts dlurl =
    (Ret tt, [Download opts [dlurl]; RescanSeries (ser_id ser);
              LogException ("      Failed - " ++ shown) e])
  /\ In (LogException ("      Failed - " ++ shown) e) (snd (transfer env ser shown opts dlurl))
  /\ ~ In (Log INFO ("      Downloaded - " ++ shown)) (snd (transfer env ser shown opts dlurl)).
Proof.
  intros Hd Hr. rewrite (transfer_rescan_fails env ser shown opts dlurl e Hd Hr).
  cbn [fst snd]. repeat split.
  - right. right. now left.
  - intros [H|[H|[H|[]]]]; discriminate H.
Qed.

Lemma rescan_failure_reported_failed_witness :
  transfer Scenario.env_rescan_fails Scenario.policy "Pilot" ∅ Scenario.video =
    (Ret tt, [Download ∅ [Scenario.video]; RescanSeries 42;
              LogException "      Failed - Pilot" (External "rescan")]).
Proof.
  refine (proj1 (rescan_failure_reported_failed Scenario.env_rescan_fails Scenario.policy
                   "Pilot" ∅ Scenario.video (External "rescan") _ _)); reflexivity.
Defined.

(** C2, as stated, fails: with a rescan that raises, the pass logs the
    episode as failed and never logs it as downloaded. *)
Lemma rescan_failure_not_reported_successful :
  ~ reported_successful "Pilot"
      (snd (download Scenario.self Scenario.env_rescan_fails [Scenario.policy] [Scenario.pilot])).
Proof.
  intros [_ Hno]. apply (Hno (External "rescan")).
  vm_compute. repeat (first [left; reflexivity | right]).
Qed.

(** After the failed rescan of the first episode the pass goes on to the
    second. *)
Example rescan_failure_pass_goes_on :
  fst (download Scenario.self Scenario.env_rescan_fails
         [Scenario.policy] [Scenario.pilot; Scenario.second]) = Ret tt
  /\ In (LogException "      Failed - Second" (External "rescan"))
        (snd (download Scenario.self Scenario.env_rescan_fails
                [Scenario.policy] [Scenario.pilot; Scenario.second])).
Proof.
  split; [vm_compute; reflexivity|].
  vm_compute. repeat (first [left; reflexivity | right]).
Qed.

(** ** The catalog search *)

(** When [extract_info] raises, [ytsearch] logs it and evaluates to
    [None], not to a pair. *)
Lemma ytsearch_exception (env : Env) (opts : gmap string val) (url : string) (e : exn) :
  extract_info env opts url = Raise e ->
  ytsearch env opts url =
    (Ret None, [ExtractInfo opts url; LogException "extract_info failed" e]).
Proof. intros H. unfold ytsearch. rewrite H. reflexivity. Qed.

(** The three ways to "not found" that do return the pair. *)
Lemma ytsearch_same_url (env : Env) (opts : gmap string val) (url : string) :
  extract_info env opts url = Ret (InfoDict None (Some url)) ->
  fst (ytsearch env opts url) = Ret (Some (false, "")).
Proof. intros H. unfold ytsearch. rewrite H. cbn. now rewrite String.eqb_refl. Qed.

Lemma ytsearch_no_url (env : Env) (opts : gmap string val) (url : string) :
  extract_info env opts url = Ret (InfoDict None None) ->
  fst (ytsearch env opts url) = Ret (Some (false, "")).
Proof. intros H. unfold ytsearch. rewrite H. reflexivity. Qed.

Lemma search_opts_returns (self : SonarrYTDL) (env : Env) (regextitle : string)
    (playlistreverse : bool) (cookies : option string) :
  exists opts tr,
    ytdl_eps_search_opts self env regextitle playlistreverse cookies = (Ret opts, tr).
Proof.
  unfold ytdl_eps_search_opts.
  match goal with
  | |- context [appendcookie env ?o cookies] =>
      destruct (appendcookie_returns env o cookies) as (o' & tr' & Hc & _); rewrite Hc
  end.
  destruct (debug self); cbn; eexists _, _; reflexivity.
Qed.

(** Whatever the series and the episode, a query that raises makes the
    loop body raise [TypeError]. *)
Lemma download_episode_search_exception (self : SonarrYTDL) (env : Env) (ser : series)
    (e : Z) (eps : episode) (url : string) (playlistreverse : bool) (ex : exn) :
  ser_url ser = Some url ->
  ser_playlistreverse ser = Some playlistreverse ->
  (forall opts, extract_info env opts url = Raise ex) ->
  fst (download_episode self env ser e eps) = Raise TypeError.
Proof.
  intros Hurl Hplr Hex. unfold download_episode. rewrite Hurl, Hplr.
  cbn [lift getitem bind].
  destruct (search_opts_returns self env (upperescape (display_title ser eps))
              playlistreverse (ser_cookies_file ser)) as (opts & tr & Ho).
  rewrite Ho. cbn [bind].
  rewrite (ytsearch_exception env opts url ex (Hex opts)). reflexivity.
Qed.

(** C1. With a catalog query that raises, [ytsearch] returns [None]; the
    caller's unpacking of the result then raises [TypeError] out of
    [download], and the second episode of the batch is never searched. *)
Theorem search_exception_aborts_batch :
  fst (ytsearch Scenario.env_search_fails ∅ Scenario.playlist) = Ret None
  /\ fst (download Scenario.self Scenario.env_search_fails
            [Scenario.policy] [Scenario.pilot; Scenario.second]) = Raise TypeError
  /\ forall opts url,
       In (ExtractInfo opts url)
          (snd (download Scenario.self Scenario.env_search_fails
                  [Scenario.policy] [Scenario.pilot; Scenario.second])) ->
       opts !! "matchtitle" = Some (VStr "PILOT").
Proof.
  split; [reflexivity|]. split; [vm_compute; reflexivity|].
  intros opts url Hin. vm_compute in Hin.
  repeat (destruct Hin as [Hin|Hin]; [try discriminate Hin|]); [|destruct Hin].
  injection Hin as <- _. vm_compute. reflexivity.
Qed.

(** * Further properties *)

(** ** The offset calculator: keys, units and the way back *)

Lemma offset_field_insert_other (k k' : string) (v : Z) (offset : gmap string Z) :
  k <> k' -> offset_field k' (<[k := v]> offset) = offset_field k' offset.
Proof. intros H. unfold offset_field. now rewrite lookup_insert_ne. Qed.

(** X1. A key other than weeks, days, hours and minutes has no effect on
    the shifted date, whatever its value. *)
Theorem offsethandler_ignores_other_keys (t : Z) (offset : gmap string Z) (k : string) (v : Z) :
  k <> "weeks" -> k <> "days" -> k <> "hours" -> k <> "minutes" ->
  offsethandler t (<[k := v]> offset) = offsethandler t offset.
Proof.
  intros Hw Hd Hh Hm. unfold offsethandler. f_equal.
  rewrite !offset_delta_fields, !offset_field_insert_other by assumption. reflexivity.
Qed.

Lemma offsethandler_ignores_other_keys_witness :
  offsethandler Scenario.t2020 {[ "seconds" := 30; "days" := 1 ]}
  = offsethandler Scenario.t2020 {[ "days" := 1 ]}.
Proof.
  change ({[ "seconds" := 30; "days" := 1 ]} : gmap string Z)
    with (<["seconds" := 30]> ({[ "days" := 1 ]} : gmap string Z)).
  apply offsethandler_ignores_other_keys; discriminate.
Defined.

Lemma offset_field_negated (k : string) (offset : gmap string Z) :
  offset_field k (Z.opp <$> offset) = - offset_field k offset.
Proof. unfold offset_field. rewrite lookup_fmap. now destruct (offset !! k). Qed.

Lemma offset_delta_negated (offset : gmap string Z) :
  offset_delta (Z.opp <$> offset) = - offset_delta offset.
Proof. rewrite !offset_delta_fields, !offset_field_negated. lia. Qed.

(** X2. The way back: shifting the result by the specification with every
    field negated returns the date the shift started from. *)
Theorem offsethandler_inverse (t r : Z) (offset : gmap string Z) :
  Datetime.valid t ->
  offsethandler t offset = Ret r ->
  Datetime.valid r /\ offsethandler r (Z.opp <$> offset) = Ret t.
Proof.
  unfold offsethandler. intros Ht H. apply add_returns in H as [-> Hr].
  split; [exact Hr|]. rewrite offset_delta_negated.
  replace t with (t + offset_delta offset + - offset_delta offset) at 2 by lia.
  apply add_in_range.
  replace (t + offset_delta offset + - offset_delta offset) with t by lia. exact Ht.
Qed.

Lemma offsethandler_inverse_witness :
  offsethandler (Scenario.t2020 + 3 * Datetime.us_per_hour) {[ "hours" := -3 ]}
  = Ret Scenario.t2020.
Proof.
  refine (proj2 (offsethandler_inverse Scenario.t2020
                   (Scenario.t2020 + 3 * Datetime.us_per_hour) {[ "hours" := 3 ]} _ _)).
  - vm_compute. split; [discriminate | reflexivity].
  - reflexivity.
Defined.

Lemma offset_field_singleton (k k' : string) (v : Z) :
  offset_field k' {[ k := v ]} = if decide (k = k') then v else 0.
Proof. unfold offset_field. rewrite lookup_singleton. now case_decide. Qed.

(** X3. Units: a specification acts like the one that gives its total in
    minutes, a week being seven days, a day 24 hours, an hour 60 minutes. *)
Theorem offsethandler_in_minutes (t : Z) (offset : gmap string Z) :
  offsethandler t offset =
    offsethandler t
      {[ "minutes" :=
           ((offset_field "weeks" offset * 7 + offset_field "days" offset) * 24
            + offset_field "hours" offset) * 60
           + offset_field "minutes" offset ]}.
Proof.
  unfold offsethandler. f_equal.
  rewrite (offset_delta_fields offset), (offset_delta_fields {[ _ := _ ]}).
  rewrite !offset_field_singleton.
  repeat (case_decide; [try discriminate | try congruence]).
  unfold Datetime.us_per_week, Datetime.us_per_day, Datetime.us_per_hour. lia.
Qed.

(** ** The title pattern compiler: what it leaves alone *)

Module TextFacts.

Import Str Text.

Lemma all_app (p : ascii -> bool) (x y : string) :
  all p (x ++ y) = all p x && all p y.
Proof.
  induction x as [|a x IH]; [reflexivity|].
  change (String a x ++ y) with (String a (x ++ y)). cbn [all].
  now rewrite IH, andb_assoc.
Qed.

(** A character outside [p] does not occur in a text within [p]. *)
Lemma all_excludes (p : ascii -> bool) (c : ascii) (s : string) :
  all p s = true -> p c = false -> contains (String c "") s = false.
Proof.
  intros Hs Hc. induction s as [|a s IH]; [reflexivity|].
  cbn [all] in Hs. apply andb_true_iff in Hs as [Ha Hs].
  rewrite StrFacts.contains_single_cons, (IH Hs), orb_false_r.
  destruct (Ascii.eqb_spec c a) as [->|]; [congruence | reflexivity].
Qed.

Lemma startswith_has_char (c : ascii) (old x : string) :
  startswith old x = true -> contains (String c "") old = true ->
  contains (String c "") x = true.
Proof.
  revert x. induction old as [|a old IH]; intros x Hs Hc; [discriminate Hc|].
  destruct x as [|b x]; [discriminate Hs|].
  cbn [startswith] in Hs. destruct (Ascii.eqb_spec a b) as [->|]; [|discriminate].
  rewrite StrFacts.contains_single_cons in *.
  apply orb_true_iff in Hc as [Hc|Hc]; [now rewrite Hc|].
  rewrite (IH x Hs Hc). apply orb_true_r.
Qed.

(** A text that lacks one character of [old] has no occurrence of [old]. *)
Lemma contains_needs_char (c : ascii) (old s : string) :
  contains (String c "") old = true -> contains (String c "") s = false ->
  contains old s = false.
Proof.
  intros Hc Hs. induction s as [|a s IH].
  - destruct old; [discriminate Hc | reflexivity].
  - rewrite StrFacts.contains_single_cons in Hs. apply orb_false_iff in Hs as [Ha Hs].
    cbn [contains]. rewrite (IH Hs), orb_false_r.
    destruct (startswith old (String a s)) eqn:Hst; [|reflexivity].
    pose proof (startswith_has_char c old _ Hst Hc) as H.
    rewrite StrFacts.contains_single_cons, Ha, Hs in H. discriminate H.
Qed.

(** Without an occurrence there is nothing to replace. *)
Lemma replace_absent (old new s : string) :
  old <> "" -> contains old s = false -> replace old new s = s.
Proof.
  intros Hne. unfold replace. destruct old as [|o old]; [congruence|]. clear Hne.
  induction s as [|a s IH]; intros H; [reflexivity|].
  cbn [contains] in H. apply orb_false_iff in H as [Hst H].
  cbn [replace_go]. rewrite Hst. f_equal. now apply IH.
Qed.

Lemma all_false_char (p : ascii -> bool) (old : string) :
  all p old = false -> exists c, p c = false /\ contains (String c "") old = true.
Proof.
  induction old as [|a old IH]; [discriminate|].
  cbn [all]. intros H. apply andb_false_iff in H as [H|H].
  - exists a. split; [exact H|]. rewrite StrFacts.contains_single_cons.
    now rewrite Ascii.eqb_refl.
  - destruct (IH H) as (c & Hc & Hin). exists c. split; [exact Hc|].
    rewrite StrFacts.contains_single_cons, Hin. apply orb_true_r.
Qed.

(** A search text with a character outside [p] is never found in a text
    within [p]. *)
Lemma replace_outside (p : ascii -> bool) (old new s : string) :
  all p s = true -> all p old = false -> replace old new s = s.
Proof.
  intros Hs Hold. destruct (all_false_char p old Hold) as (c & Hc & Hin).
  apply replace_absent; [intros ->; discriminate Hold|].
  apply (contains_needs_char c); [exact Hin|]. now apply (all_excludes p).
Qed.

Lemma plain_upper_ascii (c : ascii) :
  plain_char c = true -> plain_char (upper_ascii c) = true.
Proof. destruct c as [[] [] [] [] [] [] [] []]; vm_compute; auto. Qed.

Lemma plain_upper (s : string) :
  all plain_char s = true -> all plain_char (upper s) = true.
Proof.
  induction s as [|a s IH]; [reflexivity|]. cbn [all upper].
  intros H. apply andb_true_iff in H as [Ha Hs].
  now rewrite (plain_upper_ascii a Ha), (IH Hs).
Qed.

End TextFacts.

(** X4. The compiled pattern never contains a space: every space of the
    title, and of the texts put in before, has become the whitespace
    pattern. *)
Theorem upperescape_no_space (title : string) :
  Str.contains " " (upperescape title) = false.
Proof.
  unfold upperescape. cbv zeta.
  apply (StrFacts.replace_char_gone " " (bs ++ "s*")). reflexivity.
Qed.

(** X5. A title in Basic Latin without parentheses, colon, apostrophe,
    comma, exclamation mark, backslash, hyphen and space compiles to its
    upper case and nothing more; so a period, a question mark, a plus, a
    star, a bracket, a bar, a caret or a dollar sign of the title stands in
    the pattern as the operator it is. *)
Theorem upperescape_plain (title : string) :
  Text.all plain_char title = true ->
  upperescape title = Str.upper title.
Proof.
  intros H. apply TextFacts.plain_upper in H.
  unfold upperescape. cbv zeta.
  repeat (rewrite (TextFacts.replace_outside plain_char _ _ (Str.upper title))
            by (exact H || reflexivity)).
  reflexivity.
Qed.

Lemma upperescape_plain_witness :
  upperescape "C++ [what?] v1.0" = "C++" ++ bs ++ "s*[WHAT?]" ++ bs ++ "s*V1.0"
  /\ upperescape "What*is$this" = "WHAT*IS$THIS".
Proof.
  split; [reflexivity|].
  apply (upperescape_plain "What*is$this"). reflexivity.
Defined.

(** ** File names *)

Module SanitizeFacts.

Import Str Text.

Lemma all_sub_chars (p cls : ascii -> bool) (replacement s : string) :
  (forall c, cls c = false -> p c = true) ->
  all p replacement = true ->
  all p (sub_chars cls replacement s) = true.
Proof.
  intros Hcls Hr. induction s as [|a s IH]; [reflexivity|].
  cbn [sub_chars]. destruct (cls a) eqn:Ha.
  - now rewrite TextFacts.all_app, Hr, IH.
  - cbn [all]. now rewrite (Hcls a Ha), IH.
Qed.

Lemma all_lstrip (p : ascii -> bool) (s : string) :
  all p s = true -> all p (lstrip s) = true.
Proof.
  induction s as [|a s IH]; [reflexivity|]. cbn [lstrip].
  destruct (is_space a); [|auto]. cbn [all]. intros H.
  apply andb_true_iff in H as [_ H]. auto.
Qed.

Lemma all_rstrip (p : ascii -> bool) (s : string) :
  all p s = true -> all p (rstrip s) = true.
Proof.
  induction s as [|a s IH]; [reflexivity|]. cbn [all rstrip].
  intros H. apply andb_true_iff in H as [Ha Hs]. specialize (IH Hs).
  destruct (rstrip s) as [|b r].
  - destruct (is_space a); [reflexivity|]. cbn [all]. now rewrite Ha.
  - cbn [all] in *. now rewrite Ha, IH.
Qed.

Lemma all_take (p : ascii -> bool) (n : nat) (s : string) :
  all p s = true -> all p (take n s) = true.
Proof.
  revert s. induction n as [|n IH]; intros [|a s]; try reflexivity.
  cbn [all take]. intros H. apply andb_true_iff in H as [Ha Hs].
  now rewrite Ha, IH.
Qed.

Lemma all_replace_go (p : ascii -> bool) (old new : string) (skip : nat) (s : string) :
  all p new = true -> all p s = true -> all p (replace_go old new skip s) = true.
Proof.
  intros Hnew. revert skip. induction s as [|a s IH]; intros skip Hs; [reflexivity|].
  cbn [all] in Hs. apply andb_true_iff in Hs as [Ha Hs].
  cbn [replace_go]. destruct skip as [|k]; [|now apply IH].
  destruct (startswith old (String a s)).
  - rewrite TextFacts.all_app, Hnew. cbn [andb]. now apply IH.
  - cbn [all]. rewrite Ha. cbn [andb]. now apply IH.
Qed.

Lemma length_take (n : nat) (s : string) : (String.length (take n s) <= n)%nat.
Proof.
  revert s. induction n as [|n IH]; intros [|a s]; cbn [take String.length]; try lia.
  specialize (IH s). lia.
Qed.

Lemma starts_clean_lstrip (s : string) : starts_clean (lstrip s).
Proof.
  induction s as [|a s IH]; [exact I|]. cbn [lstrip].
  destruct (is_space a) eqn:Ha; [exact IH | exact Ha].
Qed.

Lemma starts_clean_rstrip (s : string) : starts_clean s -> starts_clean (rstrip s).
Proof.
  destruct s as [|a s]; [auto|]. unfold starts_clean. cbn [first rstrip]. intros Ha.
  destruct (rstrip s); [rewrite Ha|]; exact Ha.
Qed.

Lemma starts_clean_take (n : nat) (s : string) : starts_clean s -> starts_clean (take n s).
Proof. destruct n, s; auto; intros _; exact I. Qed.

End SanitizeFacts.

(** X6. For a name and a replacement in Basic Latin, the replacement free
    of the invalid characters (as the default [" -"] is), the sanitized
    name has none of the invalid characters, is at most 255 characters
    long, and does not begin with whitespace. *)
Theorem sanitize_filename_safe (name replacement : string) :
  Text.all Text.is_ascii name = true ->
  Text.all Text.is_ascii replacement = true ->
  Text.all (fun c => negb (invalid_char c)) replacement = true ->
  Text.all (fun c => negb (invalid_char c)) (sanitize_filename name replacement) = true
  /\ (String.length (sanitize_filename name replacement) <= 255)%nat
  /\ starts_clean (sanitize_filename name replacement).
Proof.
  intros _ _ Hr. unfold sanitize_filename. cbv zeta. repeat split.
  - apply SanitizeFacts.all_take. unfold Str.replace.
    apply SanitizeFacts.all_replace_go; [reflexivity|].
    apply SanitizeFacts.all_rstrip, SanitizeFacts.all_lstrip.
    apply SanitizeFacts.all_sub_chars; [|exact Hr].
    intros c Hc. now rewrite Hc.
  - apply SanitizeFacts.length_take.
  - apply SanitizeFacts.starts_clean_take. unfold starts_clean.
    rewrite StrFacts.collapse_first.
    apply SanitizeFacts.starts_clean_rstrip, SanitizeFacts.starts_clean_lstrip.
Qed.

Lemma sanitize_filename_safe_witness :
  sanitize_filename " What: is/this?  " " -" = "What - is -this -"
  /\ Text.all (fun c => negb (invalid_char c)) (sanitize_filename " What: is/this?  " " -")
     = true.
Proof.
  split; [reflexivity|].
  refine (proj1 (sanitize_filename_safe " What: is/this?  " " -" _ _ _));
    vm_compute; reflexivity.
Defined.

(** ** The catalog search: every outcome *)

(** X7. [ytsearch] ends in one of four ways and no other: [None] when the
    query raised; [AttributeError] when the query returned [None]; the pair
    (False, "") when no URL was resolved or the resolved URL is the queried
    one; and (True, url) with the resolved URL otherwise, which then
    differs from the queried one.  It sends exactly one query. *)
Theorem ytsearch_outcomes (env : Env) (opts : gmap string val) (playlist : string) :
  ((exists e, extract_info env opts playlist = Raise e)
   /\ fst (ytsearch env opts playlist) = Ret None
   \/ extract_info env opts playlist = Ret InfoNone
      /\ fst (ytsearch env opts playlist) = Raise AttributeError
   \/ exists entries webpage_url,
        extract_info env opts playlist = Ret (InfoDict entries webpage_url)
        /\ ((resolved_url entries webpage_url = None
             \/ resolved_url entries webpage_url = Some playlist)
            /\ fst (ytsearch env opts playlist) = Ret (Some (false, ""))
            \/ exists url,
                 resolved_url entries webpage_url = Some url /\ url <> playlist
                 /\ fst (ytsearch env opts playlist) = Ret (Some (true, url))))
  /\ count is_search (snd (ytsearch env opts playlist)) = 1%nat.
Proof.
  unfold ytsearch, resolved_url.
  destruct (extract_info env opts playlist) as [[|entries webpage_url]|e].
  - split; [right; left; auto | reflexivity].
  - split.
    + right. right. exists entries, webpage_url. split; [reflexivity|].
      destruct (usable_entries entries) as [[first|]|]; cbn.
      * destruct (entry_webpage_url first) as [v|]; cbn; [|left; auto].
        destruct (String.eqb_spec playlist v) as [->|Hne]; cbn; [left; auto|].
        right. exists v. auto.
      * left. auto.
      * destruct webpage_url as [v|]; cbn; [|left; auto].
        destruct (String.eqb_spec playlist v) as [->|Hne]; cbn; [left; auto|].
        right. exists v. auto.
    + destruct (usable_entries entries) as [[first|]|]; cbn.
      * destruct (entry_webpage_url first) as [v|]; cbn; [|reflexivity].
        now destruct (String.eqb playlist v).
      * reflexivity.
      * destruct webpage_url as [v|]; cbn; [|reflexivity].
        now destruct (String.eqb playlist v).
  - split; [left; eauto | reflexivity].
Qed.

(** ** The transfer: failures stay inside *)

(** X8. [transfer] never raises.  It starts exactly one transfer; it asks
    for a rescan exactly when the transfer returned; it logs the success
    line exactly when both calls returned, and a failure line exactly when
    one of them raised. *)
Theorem transfer_outcomes (env : Env) (ser : series) (shown : string)
    (opts : gmap string val) (dlurl : string) :
  let tr := snd (transfer env ser shown opts dlurl) in
  let both :=
    ydl_download env opts [dlurl] = Ret tt /\ rescanseries env (ser_id ser) = Ret tt in
  fst (transfer env ser shown opts dlurl) = Ret tt
  /\ count is_transfer tr = 1%nat
  /\ (count is_rescan tr = 1%nat <-> ydl_download env opts [dlurl] = Ret tt)
  /\ (count is_rescan tr = 0%nat <-> exists e, ydl_download env opts [dlurl] = Raise e)
  /\ (In (Log INFO ("      Downloaded - " ++ shown)) tr <-> both)
  /\ ((exists e, In (LogException ("      Failed - " ++ shown) e) tr) <-> ~ both).
Proof.
  unfold transfer. cbn.
  destruct (ydl_download env opts [dlurl]) as [[]|e1]; cbn;
    [destruct (rescanseries env (ser_id ser)) as [[]|e2]; cbn|];
    (split; [reflexivity|]); (split; [reflexivity|]);
    repeat match goal with |- _ /\ _ => split end;
    repeat match goal with |- _ <-> _ => split end;
    intros;
    repeat match goal with
      | H : _ /\ _ |- _ => destruct H
      | H : exists _, _ |- _ => destruct H
      | H : _ \/ _ |- _ => destruct H
      | H : False |- _ => destruct H
      end;
    try discriminate; try reflexivity; try tauto; eauto.
  all: try (intros []; discriminate).
  all: try (exfalso; auto; fail).
Qed.

(** ** The option sets *)

Ltac lookup_keys H :=
  repeat first
    [ rewrite lookup_insert in H; case_decide; [subst; simpl; tauto|]
    | rewrite lookup_singleton in H; case_decide; [subst; simpl; tauto|]
    | rewrite lookup_empty in H ].

(** X9. The option set of a search.  [ytdl_eps_search_opts] never raises
    and calls no collaborator.  Its result asks yt-dlp to ignore errors,
    carries the pattern under [matchtitle] and the playlist order as given,
    is quiet unless the debug flag is set, holds a logger and a progress
    hook only with the debug flag, holds [cookiefile] exactly when a cookie
    file is named and exists, and holds no other key. *)
Theorem search_opts_contents (self : SonarrYTDL) (env : Env) (regextitle : string)
    (playlistreverse : bool) (cookies : option string) :
  exists opts,
    fst (ytdl_eps_search_opts self env regextitle playlistreverse cookies) = Ret opts
    /\ opts !! "matchtitle" = Some (VStr regextitle)
    /\ opts !! "playlistreverse" = Some (VBool playlistreverse)
    /\ opts !! "ignoreerrors" = Some (VBool true)
    /\ opts !! "quiet" = Some (VBool (negb (debug self)))
    /\ opts !! "logger" = (if debug self then Some VLogger else None)
    /\ opts !! "progress_hooks" = (if debug self then Some (VHooks [ytdl_hooks]) else None)
    /\ opts !! "cookiefile" =
         match cookies with
         | Some c =>
             if path_exists env (cookie_path_of env c)
             then Some (VStr (cookie_path_of env c)) else None
         | None => None
         end
    /\ (forall k, is_Some (opts !! k) -> In k search_keys)
    /\ calls (snd (ytdl_eps_search_opts self env regextitle playlistreverse cookies)) = [].
Proof.
  unfold ytdl_eps_search_opts, appendcookie, cookie_path_of, update1.
  destruct (debug self), cookies as [c|]; cbn;
    try destruct (path_exists env _); cbn;
    eexists; (split; [reflexivity|]);
    repeat (split; [reflexivity|]); (split; [|reflexivity]);
    intros k [v H]; unfold search_keys; lookup_keys H; discriminate.
Qed.

(** X10. The option set of a transfer.  Building it raises [KeyError]
    exactly when subtitles are on and the series has no
    [subtitles_languages]; in every other case it returns, and in the
    result the format of the series overrides the global one, the container
    format is the global one, the output path is the one of the pair,
    [noplaylist] is set, the debug flag alone decides [quiet], the progress
    hook and the logger, [cookiefile] is there exactly when a cookie file is
    named and exists, the subtitle keys with the two subtitle
    postprocessors are there exactly when subtitles are on, and there is no
    other key. *)
Theorem format_options_contents (self : SonarrYTDL) (env : Env) (ser : series)
    (eps : episode) (cookies : option string) :
  let subtitled := match ser_subtitles ser with Some true => true | _ => false end in
  let result := fst (ytdl_format_options self env ser eps cookies) in
  (subtitled = true /\ ser_subtitles_languages ser = None /\ result = Raise KeyError)
  \/ ((subtitled = false \/ is_Some (ser_subtitles_languages ser))
      /\ exists opts,
           result = Ret opts
           /\ opts !! "format" =
                Some (VStr (match ser_format ser with Some f => f | None => ytdl_format self end))
           /\ opts !! "merge_output_format" = Some (VStr (ytdl_merge_output_format self))
           /\ opts !! "outtmpl" = Some (VStr (outtmpl ser eps))
           /\ opts !! "noplaylist" = Some (VBool true)
           /\ opts !! "quiet" = Some (VBool (negb (debug self)))
           /\ opts !! "progress_hooks" =
                Some (VHooks [if debug self then ytdl_hooks_debug else ytdl_hooks])
           /\ opts !! "logger" = (if debug self then Some VLogger else None)
           /\ opts !! "cookiefile" =
                match cookies with
                | Some c =>
                    if path_exists env (cookie_path_of env c)
                    then Some (VStr (cookie_path_of env c)) else None
                | None => None
                end
           /\ opts !! "postprocessors" =
                Some (VPostprocessors (if subtitled then subtitle_postprocessors else []))
           /\ (forall k,
                 In k ["writesubtitles"; "allsubtitles"; "writeautomaticsub"; "embedsubtitles"] ->
                 opts !! k = if subtitled then Some (VBool true) else None)
           /\ opts !! "subtitleslangs" =
                (if subtitled then VStrs <$> ser_subtitles_languages ser else None)
           /\ (forall k, is_Some (opts !! k) -> In k transfer_keys)).
Proof.
  unfold ytdl_format_options, appendcookie, customformat, cookie_path_of, update1.
  destruct (ser_subtitles ser) as [[|]|]; cbn;
    [destruct (ser_subtitles_languages ser) as [langs|]; cbn | |].
  2: { left. destruct cookies as [c|]; cbn; [destruct (path_exists env _); cbn|]; auto. }
  all: right; (split; [auto|]);
    destruct (debug self), cookies as [c|], (ser_format ser) as [f|]; cbn;
    try destruct (path_exists env _); cbn;
    eexists; (split; [reflexivity|]);
    repeat (split; [reflexivity|]);
    (split; [|split; [reflexivity|]]);
    first
      [ solve [ intros k Hk; cbn in Hk;
                repeat (destruct Hk as [<-|Hk]; [reflexivity|]); destruct Hk ]
      | intros k [v H]; unfold transfer_keys; lookup_keys H; discriminate ].
Qed.

(** ** The resolver: which series, which settings *)

Lemma match_wanted_fold (wnts : list wanted) (ser : series) (hits : nat) :
  match_wanted wnts ser hits =
    (fold_left (fun s wnt => apply_wanted wnt s) (entries_for wnts (ser_title ser)) ser,
     (hits + length (entries_for wnts (ser_title ser)))%nat).
Proof.
  revert ser hits. induction wnts as [|wnt wnts IH]; intros ser hits.
  - cbn. now rewrite Nat.add_0_r.
  - cbn [match_wanted entries_for List.filter].
    destruct (String.eqb (w_title wnt) (ser_title ser)) eqn:Heq.
    + rewrite IH, apply_wanted_title. cbn [fold_left length]. f_equal.
      unfold entries_for. lia.
    + apply IH.
Qed.

Lemma fold_apply_same_remote (ms : list wanted) (ser : series) :
  same_remote (fold_left (fun s wnt => apply_wanted wnt s) ms ser) ser.
Proof.
  revert ser. induction ms as [|wnt ms IH]; intros ser; cbn [fold_left].
  - unfold same_remote. auto.
  - destruct (IH (apply_wanted wnt ser)) as (H1 & H2 & H3 & H4).
    unfold same_remote. rewrite H1, H2, H3, H4. auto.
Qed.

Lemma entries_for_In (wnts : list wanted) (title : string) (wnt : wanted) :
  In wnt (entries_for wnts title) <-> In wnt wnts /\ w_title wnt = title.
Proof.
  unfold entries_for. rewrite filter_In. now rewrite String.eqb_eq.
Qed.

Lemma in_replicate {A} (n : nat) (x y : A) : In y (replicate n x) -> y = x /\ (0 < n)%nat.
Proof.
  induction n as [|n IH]; cbn; [tauto|]. intros [<-|H]; [split; [reflexivity | lia]|].
  destruct (IH H). split; [assumption | lia].
Qed.

(** The entries of [matched] one by one: the remote series it stands for
    and the configured entries that hit it. *)
Lemma matched_of_In (wnts : list wanted) (series0 : list series) (m : series) :
  In m (matched_of wnts series0) <->
  exists ser,
    In ser series0 /\ entries_for wnts (ser_title ser) <> []
    /\ m = fold_left (fun s wnt => apply_wanted wnt s) (entries_for wnts (ser_title ser)) ser.
Proof.
  unfold matched_of. rewrite in_flat_map. split.
  - intros (ser & Hser & Hin). exists ser. split; [exact Hser|].
    rewrite match_wanted_fold in Hin. cbn in Hin.
    apply in_replicate in Hin as [-> Hpos]. split; [|reflexivity].
    intros Hnil. rewrite Hnil in Hpos. cbn in Hpos. lia.
  - intros (ser & Hser & Hne & ->). exists ser. split; [exact Hser|].
    rewrite match_wanted_fold. cbn.
    destruct (entries_for wnts (ser_title ser)) as [|w ws] eqn:He; [congruence|].
    cbn [length replicate]. now left.
Qed.

Lemma matched_of_length (wnts : list wanted) (series0 : list series) :
  length (matched_of wnts series0) =
    list_sum (map (fun ser => length (entries_for wnts (ser_title ser))) series0).
Proof.
  unfold matched_of. induction series0 as [|ser l IH]; [reflexivity|].
  cbn [flat_map map list_sum]. rewrite length_app, IH, match_wanted_fold.
  now rewrite length_replicate.
Qed.

(** X11. Which series [filterseries] returns.  Every entry of the result
    stands for a series the media manager lists whose title is configured,
    with its id, title, path and monitored flag; every listed series with a
    configured title has an entry; and the result has one entry for each
    pair of a listed series and a configured entry with the same title. *)
Theorem filterseries_matches_configured (self : SonarrYTDL) (env : Env)
    (series0 : list series) :
  get_series env = Ret series0 ->
  exists matched,
    fst (filterseries self env) = Ret matched
    /\ (forall m, In m matched ->
          exists ser wnt,
            In ser series0 /\ In wnt (wanted_series self)
            /\ w_title wnt = ser_title ser /\ same_remote m ser)
    /\ (forall ser wnt,
          In ser series0 -> In wnt (wanted_series self) -> w_title wnt = ser_title ser ->
          exists m, In m matched /\ same_remote m ser)
    /\ length matched =
         list_sum (map (fun ser => length (entries_for (wanted_series self) (ser_title ser)))
                       series0).
Proof.
  intros Hg. destruct (filterseries_returns self env series0 Hg) as [tr Hf].
  exists (matched_of (wanted_series self) series0). rewrite Hf.
  split; [reflexivity|]. split; [|split].
  - intros m Hm. apply matched_of_In in Hm as (ser & Hser & Hne & ->).
    destruct (entries_for (wanted_series self) (ser_title ser)) as [|wnt ws] eqn:He;
      [congruence|].
    assert (Hw : In wnt (entries_for (wanted_series self) (ser_title ser)))
      by (rewrite He; now left).
    apply entries_for_In in Hw as [Hw Ht].
    exists ser, wnt. rewrite <- He. auto using fold_apply_same_remote.
  - intros ser wnt Hser Hw Ht. eexists. split.
    + apply matched_of_In. exists ser. split; [exact Hser|]. split; [|reflexivity].
      intros Hnil.
      assert (Hin : In wnt (entries_for (wanted_series self) (ser_title ser)))
        by (apply entries_for_In; auto).
      rewrite Hnil in Hin. destruct Hin.
    + apply fold_apply_same_remote.
  - apply matched_of_length.
Qed.

Lemma filterseries_matches_configured_witness :
  exists matched,
    fst (filterseries Scenario.self_twice Scenario.env_ok) = Ret matched
    /\ length matched = 2%nat.
Proof.
  destruct (filterseries_matches_configured Scenario.self_twice Scenario.env_ok
              [Scenario.show] eq_refl) as (matched & Hf & _ & _ & Hlen).
  exists matched. split; [exact Hf|]. rewrite Hlen. reflexivity.
Defined.
Lemma fold_apply_snoc (ms : list wanted) (wnt : wanted) (ser : series) :
  fold_left (fun s w => apply_wanted w s) (ms ++ [wnt])%list ser =
    apply_wanted wnt (fold_left (fun s w => apply_wanted w s) ms ser).
Proof. now rewrite fold_left_app. Qed.

Lemma last_set_cons {A} (o : option A) (l : list (option A)) :
  last_set (o :: l) =
    match last_set l with
    | Some a => Some a
    | None => o
    end.
Proof.
  unfold last_set. destruct o as [a|]; cbn; [rewrite last_cons|];
    now destruct (last (omap id l)).
Qed.

(** A setting that an entry overwrites only when it has it: after all the
    hits, the last entry that has it decides, else the listed value. *)
Lemma fold_apply_keep {A} (get : series -> option A) (set : wanted -> option A) :
  (forall w s, get (apply_wanted w s) = match set w with Some a => Some a | None => get s end) ->
  forall ms ser,
    get (fold_left (fun s w => apply_wanted w s) ms ser) =
      match last_set (map set ms) with
      | Some a => Some a
      | None => get ser
      end.
Proof.
  intros Hstep. induction ms as [|w ms IH]; intros ser; [reflexivity|].
  cbn [fold_left map]. rewrite IH, last_set_cons, Hstep.
  destruct (last_set (map set ms)); reflexivity.
Qed.

(** X12. Which settings an entry of the result carries.  Among the
    configured entries with the title of the series, the last one decides
    the URL, the subtitle switch and languages, the title prefix switch and
    the playlist order, and the order is reversed unless that entry gives
    [playlistreverse] as the text False; the format, the cookie file and the
    offset come from the last such entry that has the key, and from the
    listed series when none has. *)
Theorem filterseries_last_entry_wins (self : SonarrYTDL) (env : Env)
    (series0 : list series) :
  get_series env = Ret series0 ->
  exists matched,
    fst (filterseries self env) = Ret matched
    /\ forall m, In m matched ->
         exists ser wnt,
           let hits := entries_for (wanted_series self) (ser_title m) in
           In ser series0 /\ same_remote m ser
           /\ last hits = Some wnt
           /\ ser_url m = Some (w_url wnt)
           /\ ser_subtitles m = Some (match w_subtitles wnt with Some _ => true | None => false end)
           /\ ser_subtitles_languages m =
                Some (match w_subtitles wnt with
                      | Some {| sub_languages := Some l |} => l
                      | _ => ["en"]
                      end)
           /\ ser_preprend_with_title m =
                Some (match w_preprend_with_title wnt with Some _ => true | None => false end)
           /\ (exists b, ser_playlistreverse m = Some b
                 /\ (b = false <-> w_playlistreverse wnt = Some (SStr "False")))
           /\ ser_format m =
                match last_set (map w_format hits) with Some f => Some f | None => ser_format ser end
           /\ ser_cookies_file m =
                match last_set (map w_cookies_file hits) with
                | Some c => Some c
                | None => ser_cookies_file ser
                end
           /\ ser_offset m =
                match last_set (map w_offset hits) with Some o => Some o | None => ser_offset ser end.
Proof.
  intros Hg. destruct (filterseries_returns self env series0 Hg) as [tr Hf].
  exists (matched_of (wanted_series self) series0). rewrite Hf.
  split; [reflexivity|].
  intros m Hm. apply matched_of_In in Hm as (ser & Hser & Hne & ->).
  pose proof (fold_apply_same_remote (entries_for (wanted_series self) (ser_title ser)) ser)
    as Hsame.
  destruct Hsame as (Hid & Htitle & Hpath & Hmon).
  destruct (last (entries_for (wanted_series self) (ser_title ser))) as [wnt|] eqn:Hlast.
  2: { apply last_None in Hlast. congruence. }
  exists ser, wnt. cbn zeta. rewrite Htitle, Hlast.
  split; [exact Hser|]. split; [unfold same_remote; auto|]. split; [reflexivity|].
  rewrite (fold_apply_keep ser_format w_format) by (intros w s; cbn; now destruct (w_format w)).
  rewrite (fold_apply_keep ser_cookies_file w_cookies_file)
    by (intros w s; cbn; now destruct (w_cookies_file w)).
  rewrite (fold_apply_keep ser_offset w_offset) by (intros w s; cbn; now destruct (w_offset w)).
  apply last_Some in Hlast as [ms ->]. rewrite fold_apply_snoc. cbn.
  repeat (split; [reflexivity|]). split; [|auto].
  eexists. split; [reflexivity|].
  destruct (w_playlistreverse wnt) as [[b|v]|]; try (split; intros; discriminate).
  destruct (String.eqb_spec v "False") as [->|Hne']; cbn.
  - tauto.
  - split; [discriminate|]. intros [= ->]. congruence.
Qed.

Lemma filterseries_last_entry_wins_witness :
  exists matched,
    fst (filterseries Scenario.self_twice Scenario.env_ok) = Ret matched
    /\ forall m, In m matched -> ser_url m = Some Scenario.video.
Proof.
  destruct (filterseries_last_entry_wins Scenario.self_twice Scenario.env_ok
              [Scenario.show] eq_refl) as (matched & Hf & Hall).
  exists matched. split; [exact Hf|]. intros m Hm.
  destruct (Hall m Hm) as (ser & wnt & Hser & (_ & Ht & _) & Hlast & Hurl & _).
  destruct Hser as [<-|[]]. rewrite Ht in Hlast. vm_compute in Hlast.
  injection Hlast as <-. exact Hurl.
Defined.

Lemma warnings_trace (l : list series) (msg : string) :
  for_each l (fun check =>
    if negb (ser_monitored check) then emit (Log WARNING msg) else ret tt) =
  (Ret tt, map (fun _ => Log WARNING msg) (List.filter (fun m => negb (ser_monitored m)) l)).
Proof.
  induction l as [|m l IH]; [reflexivity|].
  cbn [for_each List.filter]. rewrite IH. now destruct (negb (ser_monitored m)).
Qed.

(** X13. The warnings of [filterseries].  It writes one warning for each
    entry of the result that is not monitored, in the order of the result,
    and every one of these warnings names the last series of the listing,
    whichever series it is about; it writes no other warning. *)
Theorem filterseries_warnings (self : SonarrYTDL) (env : Env) (series0 : list series) :
  get_series env = Ret series0 ->
  exists matched,
    fst (filterseries self env) = Ret matched
    /\ List.filter is_warning (snd (filterseries self env)) =
         map (fun _ => Log WARNING
                (match last series0 with Some ser => ser_title ser | None => "" end
                 ++ " is not currently monitored"))
             (List.filter (fun m => negb (ser_monitored m)) matched).
Proof.
  intros Hg. exists (matched_of (wanted_series self) series0).
  unfold filterseries. rewrite Hg. cbn [lift bind emit].
  rewrite warnings_trace. cbn [bind ret fst snd app]. rewrite app_nil_r.
  split; [reflexivity|]. cbn [List.filter is_warning]. unfold leftover_title.
  generalize (List.filter (fun m => negb (ser_monitored m))
                (matched_of (wanted_series self) series0)).
  intros l. induction l as [|m l IH]; [reflexivity|].
  cbn [map List.filter is_warning]. now rewrite IH.
Qed.

Lemma filterseries_warnings_witness :
  List.filter is_warning
    (snd (filterseries Scenario.self
            (env_listing [unwatched 42 "Example Show" "/tv/a";
                          Scenario.remote 7 "Other" "/tv/b"])))
  = [Log WARNING "Other is not currently monitored"].
Proof.
  destruct (filterseries_warnings Scenario.self
              (env_listing [unwatched 42 "Example Show" "/tv/a"; Scenario.remote 7 "Other" "/tv/b"])
              _ eq_refl) as (matched & Hf & Htr).
  rewrite Htr. vm_compute in Hf. injection Hf as <-. reflexivity.
Defined.

(** ** From the resolver to the orchestrator *)

Lemma fst_bind {A B} (m : M A) (f : A -> M B) :
  fst (bind m f) = match fst m with Ret a => fst (f a) | Raise e => Raise e end.
Proof. destruct m as [[a|e] tr]; cbn; [now destruct (f a) | reflexivity]. Qed.

(** The keys the orchestrator reads without a default are set on every
    entry of [matched]. *)
Lemma matched_ready (wnts : list wanted) (series0 : list series) (m : series) :
  In m (matched_of wnts series0) ->
  exists url playlistreverse langs,
    ser_url m = Some url /\ ser_playlistreverse m = Some playlistreverse
    /\ ser_subtitles_languages m = Some langs.
Proof.
  intros Hm. apply matched_of_In in Hm as (ser & _ & Hne & ->).
  destruct (last (entries_for wnts (ser_title ser))) as [wnt|] eqn:Hlast.
  - apply last_Some in Hlast as [ms ->]. rewrite fold_apply_snoc. cbn. eexists _, _, _. repeat split.
  - apply last_None in Hlast. congruence.
Qed.

Lemma format_options_returns (self : SonarrYTDL) (env : Env) (ser : series)
    (eps : episode) (cookies : option string) (langs : list string) :
  ser_subtitles_languages ser = Some langs ->
  exists opts, fst (ytdl_format_options self env ser eps cookies) = Ret opts.
Proof.
  intros Hl. unfold ytdl_format_options.
  rewrite fst_bind, appendcookie_result, fst_bind, Hl.
  destruct (match ser_subtitles ser with Some true => true | _ => false end);
    cbn; destruct (debug self); cbn; eauto.
Qed.

Lemma transfer_returns (env : Env) (ser : series) (shown : string)
    (opts : gmap string val) (dlurl : string) :
  fst (transfer env ser shown opts dlurl) = Ret tt.
Proof.
  unfold transfer. cbn. destruct (ydl_download env opts [dlurl]) as [[]|e1]; cbn;
    [destruct (rescanseries env (ser_id ser)) as [[]|e2]|]; reflexivity.
Qed.

(** How [download_episode] ends for a series that has the three keys. *)
Lemma download_episode_outcome (self : SonarrYTDL) (env : Env) (ser : series)
    (e : Z) (eps : episode) (url : string) (playlistreverse : bool) (langs : list string) :
  ser_url ser = Some url ->
  ser_playlistreverse ser = Some playlistreverse ->
  ser_subtitles_languages ser = Some langs ->
  exists opts,
    fst (ytdl_eps_search_opts self env (upperescape (display_title ser eps))
           playlistreverse (ser_cookies_file ser)) = Ret opts
    /\ fst (download_episode self env ser e eps) =
         match extract_info env opts url with
         | Raise _ => Raise TypeError
         | Ret InfoNone => Raise AttributeError
         | Ret (InfoDict _ _) => Ret tt
         end.
Proof.
  intros Hurl Hplr Hlangs.
  destruct (search_opts_returns self env (upperescape (display_title ser eps))
              playlistreverse (ser_cookies_file ser)) as (opts & tr & Ho).
  exists opts. rewrite Ho. split; [reflexivity|].
  unfold download_episode. rewrite Hurl, Hplr.
  rewrite fst_bind. cbn [getitem lift fst]. rewrite fst_bind. cbn [getitem lift fst].
  rewrite fst_bind, Ho. cbn [fst]. rewrite fst_bind.
  unfold ytsearch. rewrite fst_bind. cbn [emit fst].
  destruct (extract_info env opts url) as [[|entries webpage_url]|ex]; [reflexivity | |reflexivity].
  rewrite fst_bind.
  assert (Hfound : forall dlurl,
    fst (emit (Log INFO ("    " ++ str_of_Z (e + 1) ++ ": Found - " ++ display_title ser eps)) ;;;
         let! opts0 := ytdl_format_options self env ser eps (ser_cookies_file ser) in
         transfer env ser (display_title ser eps) opts0 dlurl) = Ret tt).
  { intros dlurl. rewrite fst_bind. cbn [emit fst]. rewrite fst_bind.
    destruct (format_options_returns self env ser eps (ser_cookies_file ser) langs Hlangs)
      as [o ->].
    apply transfer_returns. }
  destruct (usable_entries entries) as [[first|]|]; cbn [fst ret bind emit].
  - destruct (entry_webpage_url first) as [v|]; [|reflexivity].
    destruct (String.eqb url v); cbn [fst ret]; [reflexivity | apply Hfound].
  - reflexivity.
  - destruct webpage_url as [v|]; [|reflexivity].
    destruct (String.eqb url v); cbn [fst ret]; [reflexivity | apply Hfound].
Qed.

(** X14. The entries [filterseries] returns are complete for the
    orchestrator: for each of them the body of the download loop finds the
    URL, the playlist order and the subtitle languages it reads, so it never
    ends in [KeyError].  It returns when the search returns a result
    dictionary, raises [AttributeError] when the search returns [None] and
    [TypeError] when the search raises. *)
Theorem download_episode_after_filterseries (self : SonarrYTDL) (env : Env)
    (series0 : list series) :
  get_series env = Ret series0 ->
  exists matched,
    fst (filterseries self env) = Ret matched
    /\ forall m e eps, In m matched ->
         exists url playlistreverse opts,
           ser_url m = Some url /\ ser_playlistreverse m = Some playlistreverse
           /\ fst (ytdl_eps_search_opts self env (upperescape (display_title m eps))
                     playlistreverse (ser_cookies_file m)) = Ret opts
           /\ fst (download_episode self env m e eps) =
                match extract_info env opts url with
                | Raise _ => Raise TypeError
                | Ret InfoNone => Raise AttributeError
                | Ret (InfoDict _ _) => Ret tt
                end.
Proof.
  intros Hg. destruct (filterseries_returns self env series0 Hg) as [tr Hf].
  exists (matched_of (wanted_series self) series0). rewrite Hf.
  split; [reflexivity|]. intros m e eps Hm.
  destruct (matched_ready _ _ _ Hm) as (url & plr & langs & Hurl & Hplr & Hlangs).
  destruct (download_episode_outcome self env m e eps url plr langs Hurl Hplr Hlangs)
    as (opts & Ho & Hd).
  exists url, plr, opts. auto.
Qed.

Lemma download_episode_after_filterseries_witness :
  exists matched,
    fst (filterseries Scenario.self Scenario.env_ok) = Ret matched
    /\ forall m, In m matched ->
         fst (download_episode Scenario.self Scenario.env_ok m 0 Scenario.pilot) = Ret tt.
Proof.
  destruct (download_episode_after_filterseries Scenario.self Scenario.env_ok
              [Scenario.show] eq_refl) as (matched & Hf & Hall).
  exists matched. split; [exact Hf|]. intros m Hm.
  destruct (Hall m 0 Scenario.pilot Hm) as (url & plr & opts & _ & _ & _ & Hd).
  exact Hd.
Defined.

(** ** The calls of the orchestrator *)

Lemma calls_bind {A B} (m : M A) (f : A -> M B) :
  calls (snd (bind m f)) =
    (calls (snd m) ++ match fst m with Ret a => calls (snd (f a)) | Raise _ => [] end)%list.
Proof.
  rewrite snd_bind. unfold calls. rewrite List.filter_app.
  now destruct (fst m).
Qed.

Lemma calls_appendcookie (env : Env) (opts : gmap string val) (cookies : option string) :
  calls (snd (appendcookie env opts cookies)) = [].
Proof.
  unfold appendcookie. destruct cookies as [c|]; [|reflexivity].
  now destruct (path_exists env _).
Qed.

Lemma calls_search_opts (self : SonarrYTDL) (env : Env) (regextitle : string)
    (playlistreverse : bool) (cookies : option string) :
  calls (snd (ytdl_eps_search_opts self env regextitle playlistreverse cookies)) = [].
Proof.
  unfold ytdl_eps_search_opts. rewrite calls_bind, calls_appendcookie.
  destruct (fst (appendcookie env _ cookies)); [|reflexivity].
  now destruct (debug self).
Qed.

Lemma calls_format_options (self : SonarrYTDL) (env : Env) (ser : series)
    (eps : episode) (cookies : option string) :
  calls (snd (ytdl_format_options self env ser eps cookies)) = [].
Proof.
  unfold ytdl_format_options. rewrite calls_bind, calls_appendcookie.
  destruct (fst (appendcookie env _ cookies)) as [o|]; [|reflexivity].
  rewrite calls_bind.
  destruct (match ser_subtitles ser with Some true => true | _ => false end).
  - destruct (ser_subtitles_languages ser); cbn; [|reflexivity].
    now destruct (debug self).
  - cbn. now destruct (debug self).
Qed.

Lemma calls_ytsearch (env : Env) (opts : gmap string val) (url : string) :
  calls (snd (ytsearch env opts url)) = [ExtractInfo opts url].
Proof.
  unfold ytsearch. rewrite calls_bind. cbn [emit fst snd calls List.filter is_log negb app].
  destruct (extract_info env opts url) as [[|entries webpage_url]|e]; [reflexivity| |reflexivity].
  rewrite calls_bind.
  destruct (usable_entries entries) as [[first|]|]; cbn.
  - destruct (entry_webpage_url first) as [v|]; [now destruct (String.eqb url v) | reflexivity].
  - reflexivity.
  - destruct webpage_url as [v|]; [now destruct (String.eqb url v) | reflexivity].
Qed.

Lemma calls_transfer (env : Env) (ser : series) (shown : string)
    (opts : gmap string val) (dlurl : string) :
  calls (snd (transfer env ser shown opts dlurl)) =
    Download opts [dlurl] ::
    match ydl_download env opts [dlurl] with
    | Ret _ => [RescanSeries (ser_id ser)]
    | Raise _ => []
    end.
Proof.
  unfold transfer. cbn. destruct (ydl_download env opts [dlurl]) as [[]|e1]; cbn;
    [destruct (rescanseries env (ser_id ser)) as [[]|e2]|]; reflexivity.
Qed.

Lemma search_opts_matchtitle (self : SonarrYTDL) (env : Env) (regextitle : string)
    (playlistreverse : bool) (cookies : option string) (opts : gmap string val) :
  fst (ytdl_eps_search_opts self env regextitle playlistreverse cookies) = Ret opts ->
  opts !! "matchtitle" = Some (VStr regextitle).
Proof.
  unfold ytdl_eps_search_opts, appendcookie, update1.
  destruct (debug self), cookies as [c|]; cbn;
    try destruct (path_exists env _); cbn; intros [= <-]; reflexivity.
Qed.

(** What [ytsearch] evaluates to, by the answer of [extract_info]. *)
Lemma ytsearch_result (env : Env) (opts : gmap string val) (url : string) :
  fst (ytsearch env opts url) =
    match extract_info env opts url with
    | Raise _ => Ret None
    | Ret InfoNone => Raise AttributeError
    | Ret (InfoDict entries webpage_url) =>
        Ret (Some (match resolved_url entries webpage_url with
                   | Some v => if String.eqb url v then (false, "") else (true, v)
                   | None => (false, "")
                   end))
    end.
Proof.
  unfold ytsearch, resolved_url. rewrite fst_bind. cbn [emit fst].
  destruct (extract_info env opts url) as [[|entries webpage_url]|e]; try reflexivity.
  rewrite fst_bind.
  destruct (usable_entries entries) as [[first|]|]; cbn.
  - destruct (entry_webpage_url first) as [v|]; [now destruct (String.eqb url v) | reflexivity].
  - reflexivity.
  - destruct webpage_url as [v|]; [now destruct (String.eqb url v) | reflexivity].
Qed.

(** X15. The calls made for one episode of a series, in order.  Without
    the URL or the playlist order of the series there is none.  Otherwise
    there is one search, on the URL of the series and with the option set
    of [ytdl_eps_search_opts] for the pattern of the displayed title.  A
    transfer follows exactly when the search returned a result from which a
    URL other than the one searched is resolved and the option set of the
    transfer could be built: it is the transfer of that one URL with that
    option set.  A rescan of this series follows exactly when the transfer
    returned.  There is no other call. *)
Theorem download_episode_calls (self : SonarrYTDL) (env : Env) (ser : series)
    (e : Z) (eps : episode) :
  calls (snd (download_episode self env ser e eps)) =
    match ser_url ser, ser_playlistreverse ser with
    | Some url, Some playlistreverse =>
        match fst (ytdl_eps_search_opts self env (upperescape (display_title ser eps))
                     playlistreverse (ser_cookies_file ser)) with
        | Ret opts =>
            ExtractInfo opts url ::
            match extract_info env opts url with
            | Ret (InfoDict entries webpage_url) =>
                match resolved_url entries webpage_url with
                | Some dlurl =>
                    if String.eqb url dlurl then []
                    else
                      match fst (ytdl_format_options self env ser eps (ser_cookies_file ser)) with
                      | Ret o =>
                          Download o [dlurl] ::
                          match ydl_download env o [dlurl] with
                          | Ret _ => [RescanSeries (ser_id ser)]
                          | Raise _ => []
                          end
                      | Raise _ => []
                      end
                | None => []
                end
            | _ => []
            end
        | Raise _ => []
        end
    | _, _ => []
    end.
Proof.
  unfold download_episode.
  destruct (ser_url ser) as [url|]; [|reflexivity].
  destruct (ser_playlistreverse ser) as [plr|]; [|reflexivity].
  rewrite calls_bind. cbn [getitem lift fst snd calls List.filter app].
  rewrite calls_bind. cbn [getitem lift fst snd calls List.filter app].
  rewrite calls_bind, calls_search_opts. cbn [app].
  destruct (fst (ytdl_eps_search_opts self env (upperescape (display_title ser eps)) plr
                   (ser_cookies_file ser))) as [opts|]; [|reflexivity].
  rewrite calls_bind, calls_ytsearch, ytsearch_result. cbn [app]. f_equal.
  destruct (extract_info env opts url) as [[|entries webpage_url]|ex]; try reflexivity.
  destruct (resolved_url entries webpage_url) as [dlurl|]; [|reflexivity].
  destruct (String.eqb url dlurl); [reflexivity|].
  rewrite calls_bind. cbn [emit fst snd calls List.filter is_log negb app].
  rewrite calls_bind, calls_format_options. cbn [app].
  destruct (fst (ytdl_format_options self env ser eps (ser_cookies_file ser))) as [o|];
    [|reflexivity].
  apply calls_transfer.
Qed.

(** ** Loops and the calls they make *)

Lemma run_until_app {A} (ok : A -> bool) (l1 l2 : list A) :
  run_until ok (l1 ++ l2)%list =
    if forallb ok l1 then (l1 ++ run_until ok l2)%list else run_until ok l1.
Proof.
  induction l1 as [|x l1 IH]; [reflexivity|].
  cbn [app run_until forallb]. destruct (ok x); [|reflexivity].
  cbn [andb]. rewrite IH. now destruct (forallb ok l1).
Qed.

Lemma run_until_In {A} (ok : A -> bool) (l : list A) (x : A) :
  In x (run_until ok l) -> In x l.
Proof.
  induction l as [|y l IH]; [intros []|].
  cbn [run_until]. destruct (ok y).
  - intros [<-|H]; [now left | right; auto].
  - intros [<-|[]]. now left.
Qed.

(** Items that make no call and let the loop go on do not count. *)
Lemma run_until_filter {A B} (f : A -> list B) (ok keep : A -> bool) (l : list A) :
  (forall x, keep x = false -> ok x = true /\ f x = []) ->
  flat_map f (run_until ok l) = flat_map f (run_until ok (List.filter keep l)).
Proof.
  intros H. induction l as [|x l IH]; [reflexivity|].
  cbn [run_until List.filter]. destruct (keep x) eqn:Hk.
  - cbn [run_until]. destruct (ok x); [|reflexivity]. cbn [flat_map]. now rewrite IH.
  - destruct (H x Hk) as [-> Hx]. cbn [flat_map]. now rewrite Hx, IH.
Qed.

Lemma forallb_filter_ok {A} (ok keep : A -> bool) (l : list A) :
  (forall x, keep x = false -> ok x = true) ->
  forallb ok l = forallb ok (List.filter keep l).
Proof.
  intros H. induction l as [|x l IH]; [reflexivity|].
  cbn [forallb List.filter]. destruct (keep x) eqn:Hk.
  - cbn [forallb]. now rewrite IH.
  - now rewrite (H x Hk), IH.
Qed.

Lemma run_until_nested {A B C} (items : A -> list B) (f : B -> list C) (ok : B -> bool)
    (xs : list A) :
  flat_map f (run_until ok (flat_map items xs)) =
    flat_map (fun x => flat_map f (run_until ok (items x)))
      (run_until (fun x => forallb ok (items x)) xs).
Proof.
  induction xs as [|x xs IH]; [reflexivity|].
  cbn [flat_map run_until]. rewrite run_until_app.
  destruct (forallb ok (items x)) eqn:Hall.
  - cbn [flat_map]. rewrite flat_map_app, IH. f_equal.
    clear IH. induction (items x) as [|y l IHl]; [reflexivity|].
    cbn [forallb] in Hall. apply andb_prop in Hall as [Hy Hl].
    cbn [run_until]. rewrite Hy. cbn [flat_map]. now rewrite IHl.
  - cbn [flat_map]. now rewrite app_nil_r.
Qed.

(** A loop makes the calls of its rounds up to and with the first one that
    raises, and returns exactly when every round does. *)
Lemma for_each_calls {A} (xs : list A) (body : A -> M unit) :
  calls (snd (for_each xs body)) =
    flat_map (fun x => calls (snd (body x))) (run_until (fun x => returned (body x)) xs)
  /\ returned (for_each xs body) = forallb (fun x => returned (body x)) xs.
Proof.
  unfold returned. induction xs as [|x xs [IHc IHr]]; [split; reflexivity|].
  cbn [for_each run_until forallb]. rewrite calls_bind, fst_bind.
  destruct (fst (body x)) as [[]|ex]; cbn [flat_map andb].
  - now rewrite IHc, IHr.
  - now rewrite app_nil_r.
Qed.

Lemma for_enumerate_calls {A} (xs : list A) (i : Z) (body : Z -> A -> M unit) :
  calls (snd (for_enumerate i xs body)) =
    flat_map (fun p => calls (snd (body (fst p) (snd p))))
      (run_until (fun p => returned (body (fst p) (snd p))) (enumerate_from i xs))
  /\ returned (for_enumerate i xs body) =
       forallb (fun p => returned (body (fst p) (snd p))) (enumerate_from i xs).
Proof.
  unfold returned. revert i. induction xs as [|x xs IH]; intros i; [split; reflexivity|].
  destruct (IH (i + 1)) as [IHc IHr].
  cbn [for_enumerate enumerate_from run_until forallb fst snd]. rewrite calls_bind, fst_bind.
  destruct (fst (body i x)) as [[]|ex]; cbn [flat_map andb fst snd].
  - now rewrite IHc, IHr.
  - now rewrite app_nil_r.
Qed.

Lemma flat_map_mapped {A B C} (f : A -> B) (g : B -> list C) (l : list A) :
  flat_map g (map f l) = flat_map (fun x => g (f x)) l.
Proof. induction l as [|x l IH]; [reflexivity|]. cbn [flat_map map]. now rewrite IH. Qed.

Lemma run_until_map {A B} (f : A -> B) (ok : B -> bool) (l : list A) :
  run_until ok (map f l) = map f (run_until (fun x => ok (f x)) l).
Proof.
  induction l as [|x l IH]; [reflexivity|].
  cbn [map run_until]. destruct (ok (f x)); [|reflexivity]. cbn [map]. now rewrite IH.
Qed.

Lemma forallb_map {A B} (f : A -> B) (ok : B -> bool) (l : list A) :
  forallb ok (map f l) = forallb (fun x => ok (f x)) l.
Proof. induction l as [|x l IH]; [reflexivity|]. cbn [map forallb]. now rewrite IH. Qed.

Lemma run_until_ext {A B} (f f' : A -> list B) (ok ok' : A -> bool) (l : list A) :
  (forall x, In x l -> f x = f' x /\ ok x = ok' x) ->
  flat_map f (run_until ok l) = flat_map f' (run_until ok' l)
  /\ forallb ok l = forallb ok' l.
Proof.
  induction l as [|x l IH]; intros H; [split; reflexivity|].
  destruct (H x (or_introl eq_refl)) as [Hf Hok].
  destruct IH as [IHc IHr]; [intros y Hy; apply H; now right|].
  cbn [run_until forallb]. rewrite Hok, IHr. split; [|reflexivity].
  destruct (ok' x); cbn [flat_map]; now rewrite Hf, ?IHc.
Qed.

(** The round of the outer loop of [download] for one series. *)
Lemma download_series_calls (self : SonarrYTDL) (env : Env) (ser : series)
    (episodes : list episode) :
  let round :=
    emit (Log INFO ("  " ++ ser_title ser ++ ":")) ;;;
    for_enumerate 0 episodes (fun e eps =>
      if Z.eqb (ser_id ser) (eps_seriesId eps)
      then download_episode self env ser e eps
      else ret tt) in
  let items :=
    map (pair ser)
      (List.filter (fun p => Z.eqb (ser_id ser) (eps_seriesId (snd p)))
         (enumerate_from 0 episodes)) in
  calls (snd round) = flat_map (calls_for self env) (run_until (returns_for self env) items)
  /\ returned round = forallb (returns_for self env) items.
Proof.
  cbn zeta. unfold returned at 1. rewrite calls_bind, fst_bind.
  cbn [emit fst snd calls List.filter is_log negb app].
  destruct (for_enumerate_calls episodes 0 (fun e eps =>
              if Z.eqb (ser_id ser) (eps_seriesId eps)
              then download_episode self env ser e eps
              else ret tt)) as [Hc Hr].
  unfold returned in Hr at 1. rewrite Hc, Hr. clear Hc Hr.
  rewrite run_until_map, flat_map_mapped, forallb_map.
  rewrite (run_until_filter _ _ (fun p => Z.eqb (ser_id ser) (eps_seriesId (snd p))))
    by (intros p Hp; rewrite Hp; split; reflexivity).
  rewrite (forallb_filter_ok _ (fun p => Z.eqb (ser_id ser) (eps_seriesId (snd p))))
    by (intros p Hp; now rewrite Hp).
  apply run_until_ext. intros p Hp. apply filter_In in Hp as [_ Hp].
  rewrite Hp. split; reflexivity.
Qed.

(** The calls of [download]: those for its pairs, up to and with the first
    pair for which [download_episode] raises. *)
Lemma download_calls_exact (self : SonarrYTDL) (env : Env)
    (series0 : list series) (episodes : list episode) :
  calls (snd (download self env series0 episodes)) =
    flat_map (calls_for self env)
      (run_until (returns_for self env) (pairs series0 episodes))
  /\ returned (download self env series0 episodes) =
       forallb (returns_for self env) (pairs series0 episodes).
Proof.
  unfold download, pairs.
  destruct series0 as [|ser0 l]; [split; reflexivity|].
  cbn [length Nat.eqb negb]. generalize (ser0 :: l). clear ser0 l. intros series0.
  unfold returned at 1. rewrite calls_bind, fst_bind.
  cbn [emit fst snd calls List.filter is_log negb app].
  destruct (for_each_calls series0 (fun ser =>
              emit (Log INFO ("  " ++ ser_title ser ++ ":")) ;;;
              for_enumerate 0 episodes (fun e eps =>
                if Z.eqb (ser_id ser) (eps_seriesId eps)
                then download_episode self env ser e eps
                else ret tt))) as [Hc Hr].
  unfold returned in Hr at 1. rewrite Hc, Hr. clear Hc Hr.
  rewrite run_until_nested.
  destruct (run_until_ext
              (fun ser => calls (snd (emit (Log INFO ("  " ++ ser_title ser ++ ":")) ;;;
                 for_enumerate 0 episodes (fun e eps =>
                   if Z.eqb (ser_id ser) (eps_seriesId eps)
                   then download_episode self env ser e eps
                   else ret tt))))
              (fun ser => flat_map (calls_for self env)
                 (run_until (returns_for self env)
                    (map (pair ser)
                       (List.filter (fun p => Z.eqb (ser_id ser) (eps_seriesId (snd p)))
                          (enumerate_from 0 episodes)))))
              (fun ser => returned (emit (Log INFO ("  " ++ ser_title ser ++ ":")) ;;;
                 for_enumerate 0 episodes (fun e eps =>
                   if Z.eqb (ser_id ser) (eps_seriesId eps)
                   then download_episode self env ser e eps
                   else ret tt)))
              (fun ser => forallb (returns_for self env)
                 (map (pair ser)
                    (List.filter (fun p => Z.eqb (ser_id ser) (eps_seriesId (snd p)))
                       (enumerate_from 0 episodes))))
              series0) as [Hc Hr].
  { intros ser _. apply download_series_calls. }
  rewrite Hc, Hr. split; [reflexivity|].
  clear. induction series0 as [|ser l IH]; [reflexivity|].
  cbn [forallb flat_map]. now rewrite forallb_app, IH.
Qed.

(** X16. The calls of a whole [download], in order, are the calls of
    [download_episode] for the pairs of a series and an episode with its
    id, series by series, up to and with the first pair for which it
    raises, and no call after that; and [download] returns exactly when
    [download_episode] returns for every pair. *)
Theorem download_calls (self : SonarrYTDL) (env : Env)
    (series0 : list series) (episodes : list episode) :
  calls (snd (download self env series0 episodes)) =
    flat_map (calls_for self env)
      (run_until (returns_for self env) (pairs series0 episodes))
  /\ (fst (download self env series0 episodes) = Ret tt <->
      forall p, In p (pairs series0 episodes) ->
        fst (download_episode self env (fst p) (fst (snd p)) (snd (snd p))) = Ret tt).
Proof.
  destruct (download_calls_exact self env series0 episodes) as [Hc Hr].
  split; [exact Hc|].
  unfold returned in Hr. split.
  - intros H p Hp. rewrite H in Hr. symmetry in Hr.
    rewrite forallb_forall in Hr. specialize (Hr p Hp).
    unfold returns_for, returned in Hr.
    now destruct (fst (download_episode self env (fst p) (fst (snd p)) (snd (snd p)))) as [[]|].
  - intros H.
    assert (Hall : forallb (returns_for self env) (pairs series0 episodes) = true).
    { apply forallb_forall. intros p Hp. unfold returns_for, returned. now rewrite (H p Hp). }
    rewrite Hall in Hr.
    now destruct (fst (download self env series0 episodes)) as [[]|].
Qed.

(** ** The need filter: when it returns, what it asks *)

Lemma eps_date_of_returns (env : Env) (ser : series) (eps : episode) (d : Z) :
  eps_date_of env ser eps = Ret d <->
  match eps_airDateUtc eps with
  | None => d = now env
  | Some text =>
      exists t,
        strptime env text = Ret t
        /\ match ser_offset ser with
           | Some offset => offsethandler t offset = Ret d
           | None => d = t
           end
  end.
Proof.
  unfold eps_date_of. destruct (eps_airDateUtc eps) as [text|].
  - destruct (strptime env text) as [t|ex].
    + destruct (ser_offset ser) as [offset|].
      * split; [eauto | now intros (t' & [= <-] & H)].
      * split; [intros [= <-]; eauto | now intros (t' & [= <-] & ->)].
    + split; [discriminate | intros (t' & H & _); discriminate].
  - split; [now intros [= <-] | now intros ->].
Qed.

Lemma rewrite_title_returns (env : Env) (ser : series) (eps : episode) :
  (exists e, rewrite_title env ser eps = Ret e) <->
  match ser_sonarr_regex_match ser with
  | None => True
  | Some pattern =>
      exists replacement title,
        ser_sonarr_regex_replace ser = Some replacement
        /\ re_sub env pattern replacement (eps_title eps) = Ret title
  end.
Proof.
  unfold rewrite_title. destruct (ser_sonarr_regex_match ser) as [pat|]; [|split; eauto].
  destruct (ser_sonarr_regex_replace ser) as [repl|]; cbn [getitem].
  - destruct (re_sub env pat repl (eps_title eps)) as [t|ex] eqn:Hsub.
    + split; [intros _; exists repl, t; auto | eauto].
    + split; [intros [e H]; discriminate | intros (r & t & [= <-] & H); congruence].
  - split; [intros [e H]; discriminate | intros (r & t & H & _); discriminate].
Qed.

Lemma excluded_true (env : Env) (eps : episode) (d : Z) :
  excluded env eps d = true <->
  eps_monitored eps = false \/ eps_hasFile eps = true \/ now env < d.
Proof.
  unfold excluded. rewrite !orb_true_iff, negb_true_iff, Z.ltb_lt. tauto.
Qed.

(** [passes], in the terms of the loop body. *)
Lemma passes_iff (env : Env) (ser : series) (eps : episode) :
  passes env ser eps <->
  exists d, eps_date_of env ser eps = Ret d
    /\ (excluded env eps d = true \/ exists e, rewrite_title env ser eps = Ret e).
Proof.
  unfold passes. split; intros (d & Hd & H); exists d.
  - split; [now apply eps_date_of_returns|].
    rewrite excluded_true, rewrite_title_returns. tauto.
  - split; [now apply eps_date_of_returns|].
    rewrite excluded_true, rewrite_title_returns in H. tauto.
Qed.

Lemma kept_of_returns (env : Env) (ser : series) (episodes : list episode) :
  (exists kept, kept_of env ser episodes = Ret kept) <->
  forall eps, In eps episodes -> passes env ser eps.
Proof.
  induction episodes as [|eps rest IH]; cbn [kept_of].
  - split; [intros _ eps [] | eauto].
  - split.
    + intros [kept Hk] x [<-|Hx].
      * apply passes_iff.
        destruct (eps_date_of env ser eps) as [d|]; [|discriminate].
        exists d. split; [reflexivity|].
        destruct (excluded env eps d); [now left | right].
        destruct (rewrite_title env ser eps) as [e|]; [eauto | discriminate].
      * apply IH; [|exact Hx].
        destruct (eps_date_of env ser eps) as [d|]; [|discriminate].
        destruct (excluded env eps d); [eauto|].
        destruct (rewrite_title env ser eps) as [e|]; [|discriminate].
        destruct (kept_of env ser rest) as [kept'|]; [eauto | discriminate].
    + intros H. destruct (proj1 (passes_iff env ser eps) (H eps (or_introl eq_refl)))
        as (d & -> & Hd).
      destruct (proj2 IH (fun x Hx => H x (or_intror Hx))) as [kept' ->].
      destruct (excluded env eps d); [eauto|].
      destruct Hd as [Hd|[e ->]]; [discriminate | eauto].
Qed.

Lemma answers_iff (env : Env) (ser : series) :
  answers env ser <->
  exists episodes,
    get_episodes_by_series_id env (ser_id ser) = Ret episodes
    /\ forall eps, In eps episodes -> passes env ser eps.
Proof.
  unfold answers. split.
  - intros (episodes & kept & Hg & Hk). exists episodes. split; [exact Hg|].
    apply kept_of_returns. eauto.
  - intros (episodes & Hg & Hall). apply kept_of_returns in Hall as [kept Hk]. eauto.
Qed.

(** X17. [getseriesepisodes] returns exactly when, for every series of the
    list, the media manager lists its episodes and every listed episode
    gets through the loop: [strptime] reads its air date, when it has one,
    and [offsethandler] shifts the date read by the offset of the series,
    when it has one, both without an exception; and either the episode is
    dropped (not monitored, with a file, or dated after [now]) or the
    series has no rewriting rule or [re.sub] rewrites the title with the
    pattern and the replacement of the series.  The date is computed before
    the test, also for an episode that is then dropped. *)
Theorem getseriesepisodes_returns_iff (env : Env) (series0 : list series) :
  (exists result, fst (getseriesepisodes env series0) = Ret result) <->
  forall ser, In ser series0 ->
    exists episodes,
      get_episodes_by_series_id env (ser_id ser) = Ret episodes
      /\ forall eps, In eps episodes -> passes env ser eps.
Proof.
  split.
  - intros [[series1 needed] Hr] ser Hser.
    apply surjective_pairing_ret, getseriesepisodes_result in Hr as (Hans & _).
    rewrite List.Forall_forall in Hans. apply answers_iff. now apply Hans.
  - intros H.
    destruct (getseriesepisodes_total env series0) as [tr Htr].
    + apply List.Forall_forall. intros ser Hser. apply answers_iff. now apply H.
    + rewrite Htr. eauto.
Qed.

(** X18. One date that cannot be read stops the filter: when an episode
    listed for a series of the list has an air date that [strptime]
    rejects, [getseriesepisodes] raises, also when that episode has a file
    or is not monitored and would not be needed anyway. *)
Theorem unreadable_date_stops_filter (env : Env) (series0 : list series) (ser : series)
    (episodes : list episode) (eps : episode) (text : string) (ex : exn) :
  In ser series0 ->
  get_episodes_by_series_id env (ser_id ser) = Ret episodes ->
  In eps episodes ->
  eps_airDateUtc eps = Some text ->
  strptime env text = Raise ex ->
  exists ex' : exn, fst (getseriesepisodes env series0) = Raise ex'.
Proof.
  intros Hser Hg Heps Hair Hbad.
  destruct (fst (getseriesepisodes env series0)) as [[series1 needed]|ex'] eqn:Hr; [|eauto].
  exfalso.
  apply surjective_pairing_ret, getseriesepisodes_result in Hr as (Hans & _).
  rewrite List.Forall_forall in Hans.
  apply Hans, answers_iff in Hser as (episodes' & Hg' & Hall).
  rewrite Hg in Hg'. injection Hg' as <-.
  destruct (Hall eps Heps) as (d & Hd & _).
  rewrite Hair in Hd. destruct Hd as (t & Ht & _). congruence.
Qed.

Lemma unreadable_date_stops_filter_witness :
  exists ex' : exn,
    fst (getseriesepisodes
           (Scenario.env_with
              [Scenario.pilot; Scenario.episode_of 5 5 "Fifth" (Some "soon") true]
              (Ret Scenario.found_video) (Ret tt) (Ret tt))
           [Scenario.policy]) = Raise ex'.
Proof.
  apply (unreadable_date_stops_filter _ _ Scenario.policy
           [Scenario.pilot; Scenario.episode_of 5 5 "Fifth" (Some "soon") true]
           (Scenario.episode_of 5 5 "Fifth" (Some "soon") true) "soon" ValueError).
  - now left.
  - reflexivity.
  - right; now left.
  - reflexivity.
  - reflexivity.
Defined.
Lemma calls_log_missing (ser : series) (episodes : list episode) :
  calls (snd (log_missing ser episodes)) = [].
Proof.
  unfold log_missing. rewrite calls_bind. cbn [emit fst snd calls List.filter is_log negb app].
  generalize 0. induction episodes as [|e l IH]; intros i; [reflexivity|].
  cbn [for_enumerate]. rewrite calls_bind. cbn [emit fst snd calls List.filter is_log negb app].
  apply IH.
Qed.

Lemma log_missing_returns (ser : series) (episodes : list episode) :
  fst (log_missing ser episodes) = Ret tt.
Proof. destruct (log_missing_total ser episodes) as [tr ->]. reflexivity. Qed.

Lemma answered_kept (env : Env) (ser : series) :
  answered env ser =
    match get_episodes_by_series_id env (ser_id ser) with
    | Ret episodes =>
        match kept_of env ser episodes with
        | Ret _ => true
        | Raise _ => false
        end
    | Raise _ => false
    end.
Proof.
  unfold answered, returned.
  destruct (get_episodes_by_series_id env (ser_id ser)) as [episodes|]; [|reflexivity].
  rewrite episodes_loop_kept_of by constructor.
  now destruct (kept_of env ser episodes).
Qed.

(** The series loop asks for the episodes of each series it reaches. *)
Lemma series_loop_calls (env : Env) (copy series0 : list series) (needed : list episode) :
  calls (snd (series_loop env copy series0 needed)) =
    map (fun ser => GetEpisodes (ser_id ser)) (run_until (answered env) copy)
  /\ returned (series_loop env copy series0 needed) = forallb (answered env) copy.
Proof.
  unfold returned.
  revert series0 needed. induction copy as [|ser copy IH]; intros series0 needed.
  - split; reflexivity.
  - rewrite series_loop_cons. cbn [run_until forallb]. rewrite answered_kept.
    rewrite calls_bind, fst_bind. cbn [emit fst snd calls List.filter is_log negb app].
    rewrite calls_bind, fst_bind. cbn [lift fst snd calls List.filter app].
    destruct (get_episodes_by_series_id env (ser_id ser)) as [episodes|ex];
      [|split; reflexivity].
    rewrite calls_bind, fst_bind, episodes_loop_kept_of by constructor.
    cbn [fst snd calls List.filter app].
    destruct (kept_of env ser episodes) as [kept|ex]; [|split; reflexivity].
    cbn [app map andb]. destruct (Nat.eqb (length kept) 0).
    + rewrite calls_bind, fst_bind. cbn [emit fst snd calls List.filter is_log negb app].
      destruct (IH (list_remove_first ser series0) (needed ++ kept)%list) as [Hc Hr].
      now rewrite Hc, Hr.
    + rewrite calls_bind, fst_bind, calls_log_missing, log_missing_returns. cbn [app].
      destruct (IH series0 (needed ++ kept)%list) as [Hc Hr].
      now rewrite Hc, Hr.
Qed.

(** X19. What [getseriesepisodes] asks of the media manager: the episodes
    of each series of the list, once and in the order of the list, up to
    and with the first series for which the query or the loop over its
    episodes raises, and nothing after that; all of them when it returns,
    the series that turn out to need nothing included.  It makes no other
    call, and it returns exactly when the query and the loop return for
    every series. *)
Theorem getseriesepisodes_queries (env : Env) (series0 : list series) :
  calls (snd (getseriesepisodes env series0)) =
    map (fun ser => GetEpisodes (ser_id ser)) (run_until (answered env) series0)
  /\ ((exists result, fst (getseriesepisodes env series0) = Ret result) <->
      forall ser, In ser series0 -> answered env ser = true).
Proof.
  destruct (series_loop_calls env series0 series0 []) as [Hc Hr].
  split; [exact Hc|]. unfold returned in Hr. fold (getseriesepisodes env series0) in Hr.
  rewrite <- forallb_forall, <- Hr.
  destruct (fst (getseriesepisodes env series0)) as [result|ex].
  - split; eauto.
  - split; [intros [r H]; discriminate | discriminate].
Qed.

(** ** Start-up *)

Lemma guarded_done {A B} (body : M A) (logged message : option string)
    (rest : A -> result B * list event) (b : B) :
  fst (guarded body logged message rest) = Done b <->
  exists a, fst body = Ret a /\ fst (rest a) = Done b.
Proof.
  unfold guarded. destruct body as [[a|e] tr]; cbn.
  - destruct (rest a) as [r tr'] eqn:Hr. cbn. split.
    + intros ->. exists a. now rewrite Hr.
    + intros (a' & [= <-] & H). now rewrite Hr in H.
  - split; [discriminate | intros (a' & H & _); discriminate].
Qed.

Lemma guarded_not_failed {A B} (body : M A) (logged message : option string)
    (rest : A -> result B * list event) (e : exn) :
  (forall a, fst (rest a) <> Failed e) ->
  fst (guarded body logged message rest) <> Failed e.
Proof.
  intros H. unfold guarded. destruct body as [[a|e'] tr]; cbn; [|discriminate].
  specialize (H a). now destruct (rest a).
Qed.

Lemma section_returns {A} (cfg : option config) (name : config -> option A) (a : A) :
  section cfg name = Ret a <-> exists mapping, cfg = Some mapping /\ name mapping = Some a.
Proof.
  unfold section. destruct cfg as [mapping|].
  - destruct (name mapping) as [a'|] eqn:Hn; cbn.
    + split; [intros [= <-]; eauto | intros (m & [= <-] & H); congruence].
    + split; [discriminate | intros (m & [= <-] & H); congruence].
  - split; [discriminate | intros (m & H & _); discriminate].
Qed.

Lemma init_sonarrytdl_returns (SCANINTERVAL : Z) (cfg : option config)
    (scan : Z) (debug0 : bool) :
  fst (init_sonarrytdl SCANINTERVAL cfg) = Ret (scan, debug0) <->
  exists mapping a,
    cfg = Some mapping /\ cfg_sonarrytdl mapping = Some a
    /\ cfg_scan_interval a = Some scan /\ cfg_debug a = Some debug0.
Proof.
  unfold init_sonarrytdl, set_scan_interval, section.
  destruct cfg as [mapping|]; cbn;
    [|split; [discriminate | intros (m & a & H & _); discriminate]].
  destruct (cfg_sonarrytdl mapping) as [a|] eqn:Ha; cbn;
    [|split; [discriminate | intros (m & a & [= <-] & H & _); congruence]].
  destruct (cfg_scan_interval a) as [i|] eqn:Hi; cbn;
    [|split; [discriminate | intros (m & a' & [= <-] & H1 & H2 & _); congruence]].
  destruct (Z.eqb_spec i SCANINTERVAL) as [->|_], (cfg_debug a) as [[|]|] eqn:Hd; cbn;
    (split; [intros H; try discriminate; injection H as <- <-; eauto 10
            | intros (m & a' & [= <-] & H1 & H2 & H3); congruence]).
Qed.

Lemma init_sonarr_returns (cfg : option config) (url api apikey : string) :
  fst (init_sonarr cfg) = Ret (url, api, apikey) <->
  exists mapping b ssl host port,
    cfg = Some mapping /\ cfg_sonarr mapping = Some b
    /\ cfg_ssl b = Some ssl /\ cfg_host b = Some host
    /\ cfg_port b = Some port /\ cfg_apikey b = Some apikey
    /\ api = (if String.eqb (lower (match cfg_version b with Some v => v | None => "" end)) "v4"
              then "api/v3" else "api")
    /\ url = (if ssl : bool then "https" else "http") ++ "://" ++ host ++ ":"
             ++ str_of_Z port
             ++ match cfg_basedir b with
                | Some (String c rest) => "/" ++ String c rest
                | _ => ""
                end.
Proof.
  unfold init_sonarr, section.
  destruct cfg as [mapping|]; cbn;
    [|split; [discriminate | intros (m & b & ? & ? & ? & H & _); discriminate]].
  destruct (cfg_sonarr mapping) as [b|] eqn:Hb; cbn;
    [|split; [discriminate | intros (m & b & ? & ? & ? & [= <-] & H & _); congruence]].
  destruct (cfg_ssl b) as [ssl|] eqn:Hs, (cfg_host b) as [host|] eqn:Hh,
    (cfg_port b) as [port|] eqn:Hp, (cfg_apikey b) as [key|] eqn:Hk,
    (String.eqb (lower match cfg_version b with Some v => v | None => "" end) "v4") eqn:Hv;
    cbn;
    (split;
     [ intros H; try discriminate; injection H as <- <- <-;
       exists mapping, b, ssl, host, port;
       repeat split; first [assumption | reflexivity | rewrite Hv; reflexivity]
     | intros (m & b' & ssl' & host' & port' & [= <-] & H0 & H1 & H2 & H3 & H4 & -> & ->);
       rewrite Hb in H0; injection H0 as <-; rewrite ?Hv; cbn;
       rewrite Hs in H1; rewrite Hh in H2; rewrite Hp in H3; rewrite Hk in H4;
       simplify_eq; reflexivity ]).
Qed.

Lemma init_format_returns (cfg : option config) (format : string) :
  fst (init_format cfg) = Ret format <->
  exists mapping c,
    cfg = Some mapping /\ cfg_ytdl mapping = Some c /\ cfg_default_format c = Some format.
Proof.
  unfold init_format, section. destruct cfg as [mapping|]; cbn;
    [|split; [discriminate | intros (m & c & H & _); discriminate]].
  destruct (cfg_ytdl mapping) as [c|] eqn:Hc; cbn;
    [|split; [discriminate | intros (m & c & [= <-] & H & _); congruence]].
  destruct (cfg_default_format c) as [f|] eqn:Hf; cbn;
    (split; [intros H; try discriminate; injection H as <-; eauto 10
            | intros (m & c' & [= <-] & H1 & H2); congruence]).
Qed.

Lemma init_merge_format_returns (cfg : option config) (format : string) :
  fst (init_merge_format cfg) = Ret format <->
  exists mapping c,
    cfg = Some mapping /\ cfg_ytdl mapping = Some c
    /\ cfg_merge_output_format c = Some format.
Proof.
  unfold init_merge_format, section. destruct cfg as [mapping|]; cbn;
    [|split; [discriminate | intros (m & c & H & _); discriminate]].
  destruct (cfg_ytdl mapping) as [c|] eqn:Hc; cbn;
    [|split; [discriminate | intros (m & c & [= <-] & H & _); congruence]].
  destruct (cfg_merge_output_format c) as [f|] eqn:Hf; cbn;
    (split; [intros H; try discriminate; injection H as <-; eauto 10
            | intros (m & c' & [= <-] & H1 & H2); congruence]).
Qed.

Lemma init_series_returns (cfg : option config) (wanted0 : list wanted) :
  fst (init_series cfg) = Ret wanted0 <->
  exists mapping, cfg = Some mapping /\ cfg_series mapping = Some wanted0.
Proof. unfold init_series. cbn [lift fst]. apply section_returns. Qed.

(** What a finished [__init__] has read. *)
Lemma init_done (SCANINTERVAL : Z) (cfg : option config) (c : client) (scan : Z) :
  fst (init SCANINTERVAL cfg) = Done (c, scan) <->
  fst (init_sonarrytdl SCANINTERVAL cfg) = Ret (scan, debug (settings c))
  /\ fst (init_sonarr cfg) = Ret (base_url c, sonarr_api_version c, api_key c)
  /\ fst (init_format cfg) = Ret (ytdl_format (settings c))
  /\ fst (init_merge_format cfg) = Ret (ytdl_merge_output_format (settings c))
  /\ fst (init_series cfg) = Ret (wanted_series (settings c)).
Proof.
  unfold init. rewrite guarded_done. split.
  - intros ([scan0 debug0] & H1 & H). rewrite guarded_done in H.
    destruct H as ([[url api] apikey] & H2 & H). rewrite guarded_done in H.
    destruct H as (format & H3 & H). rewrite guarded_done in H.
    destruct H as (merge & H4 & H). rewrite guarded_done in H.
    destruct H as (wanted0 & H5 & H). cbn in H. injection H as <- <-. cbn. auto.
  - intros (H1 & H2 & H3 & H4 & H5). eexists. split; [exact H1|].
    rewrite guarded_done. eexists. split; [exact H2|].
    rewrite guarded_done. eexists. split; [exact H3|].
    rewrite guarded_done. eexists. split; [exact H4|].
    rewrite guarded_done. eexists. split; [exact H5|].
    cbn. now destruct c as [[] ? ? ?].
Qed.

Lemma init_not_failed (SCANINTERVAL : Z) (cfg : option config) (e : exn) :
  fst (init SCANINTERVAL cfg) <> Failed e.
Proof.
  unfold init.
  apply guarded_not_failed. intros [scan debug0].
  apply guarded_not_failed. intros [[url api] apikey].
  apply guarded_not_failed. intros format.
  apply guarded_not_failed. intros merge.
  apply guarded_not_failed. intros wanted0. discriminate.
Qed.

(** The values a finished [__init__] holds. *)
Lemma init_values (SCANINTERVAL : Z) (cfg : option config) (c : client) (scan : Z) :
  fst (init SCANINTERVAL cfg) = Done (c, scan) ->
  exists mapping a b y ssl host port,
    cfg = Some mapping
    /\ cfg_sonarrytdl mapping = Some a /\ cfg_sonarr mapping = Some b
    /\ cfg_ytdl mapping = Some y
    /\ cfg_scan_interval a = Some scan
    /\ cfg_debug a = Some (debug (settings c))
    /\ cfg_ssl b = Some ssl /\ cfg_host b = Some host /\ cfg_port b = Some port
    /\ cfg_apikey b = Some (api_key c)
    /\ cfg_default_format y = Some (ytdl_format (settings c))
    /\ cfg_merge_output_format y = Some (ytdl_merge_output_format (settings c))
    /\ cfg_series mapping = Some (wanted_series (settings c))
    /\ sonarr_api_version c =
         (if String.eqb (lower (match cfg_version b with Some v => v | None => "" end)) "v4"
          then "api/v3" else "api")
    /\ base_url c =
         (if ssl : bool then "https" else "http") ++ "://" ++ host ++ ":" ++ str_of_Z port
         ++ match cfg_basedir b with
            | Some (String ch rest) => "/" ++ String ch rest
            | _ => ""
            end.
Proof.
  intros H. apply init_done in H as (H1 & H2 & H3 & H4 & H5).
  apply init_sonarrytdl_returns in H1 as (m & a & -> & Ha & Hi & Hd).
  apply init_sonarr_returns in H2
    as (m2 & b & ssl & host & port & [= <-] & Hb & Hs & Hh & Hp & Hk & Hapi & Hurl).
  apply init_format_returns in H3 as (m3 & y & [= <-] & Hy & Hf).
  apply init_merge_format_returns in H4 as (m4 & y' & [= <-] & Hy' & Hm).
  apply init_series_returns in H5 as (m5 & [= <-] & Hw).
  rewrite Hy in Hy'. injection Hy' as <-.
  exists m, a, b, y, ssl, host, port. auto 20.
Qed.

(** [__init__] gets through the configuration exactly when it is a
    mapping with every key. *)
Lemma init_done_iff (SCANINTERVAL : Z) (cfg : option config) :
  (exists c scan, fst (init SCANINTERVAL cfg) = Done (c, scan)) <->
  exists mapping, cfg = Some mapping /\ complete mapping.
Proof.
  split.
  - intros (c & scan & H). apply init_values in H
      as (m & a & b & y & ssl & host & port & -> & Ha & Hb & Hy & Hi & Hd & Hs & Hh & Hp
          & Hk & Hf & Hm & Hw & _).
    exists m. split; [reflexivity|]. exists a, b, y.
    rewrite Hi, Hd, Hs, Hh, Hp, Hk, Hf, Hm, Hw. repeat split; eauto.
  - intros (m & -> & a & b & y & Ha & Hb & Hy & [i Hi] & [d Hd] & [ssl Hs] & [host Hh]
            & [port Hp] & [key Hk] & [f Hf] & [mf Hm] & [l Hl]).
    eexists {| settings := {| debug := d; ytdl_format := f; ytdl_merge_output_format := mf;
                              wanted_series := l |};
               base_url := _; sonarr_api_version := _; api_key := key |}, i.
    apply init_done. cbn [settings debug ytdl_format ytdl_merge_output_format
                            wanted_series base_url sonarr_api_version api_key].
    split; [apply init_sonarrytdl_returns; eauto 10|].
    split; [apply init_sonarr_returns; exists m, b, ssl, host, port; repeat split; eauto|].
    split; [apply init_format_returns; eauto|].
    split; [apply init_merge_format_returns; eauto|].
    apply init_series_returns. eauto.
Qed.

Lemma construct_result (SCANINTERVAL : Z) (boot : Boot) (env : Env) :
  fst (construct SCANINTERVAL boot env) =
    if path_exists env (abspath env (abspath env (CONFIGFILE boot)))
    then
      match config_yml boot with
      | Ret cfg => fst (init SCANINTERVAL cfg)
      | Raise e => Failed e
      end
    else Exit None.
Proof.
  unfold construct, checkconfig.
  destruct (path_exists env (abspath env (abspath env (CONFIGFILE boot)))); cbn [negb];
    [|reflexivity].
  destruct (config_yml boot) as [cfg|e]; [|reflexivity].
  now destruct (init SCANINTERVAL cfg).
Qed.

(** X22. How [SonarrYTDL()] ends.  It sets up the object exactly when the
    configuration file exists, is loaded without an exception and holds a
    mapping with the three sections [sonarrytdl], [sonarr] and [ytdl] and
    the keys [scan_interval], [debug], [ssl], [host], [port], [apikey],
    [default_format], [merge_output_format] and [series]; [version] and
    [basedir] may be absent.  It lets an exception out exactly when the
    file exists and loading it raises that exception.  In every other case
    the process exits.  The object holds the configured scan interval,
    debug flag, API key, formats and series list. *)
Theorem construct_outcomes (SCANINTERVAL : Z) (boot : Boot) (env : Env) :
  let found := path_exists env (abspath env (abspath env (CONFIGFILE boot))) in
  let outcome0 := fst (construct SCANINTERVAL boot env) in
  ((exists c scan, outcome0 = Done (c, scan)) <->
   found = true /\ exists mapping, config_yml boot = Ret (Some mapping) /\ complete mapping)
  /\ (forall e, outcome0 = Failed e <-> found = true /\ config_yml boot = Raise e)
  /\ ((exists message, outcome0 = Exit message) <->
      found = false
      \/ exists cfg, config_yml boot = Ret cfg
           /\ ~ exists mapping, cfg = Some mapping /\ complete mapping)
  /\ forall c scan,
       outcome0 = Done (c, scan) ->
       exists mapping a b y,
         config_yml boot = Ret (Some mapping)
         /\ cfg_sonarrytdl mapping = Some a /\ cfg_sonarr mapping = Some b
         /\ cfg_ytdl mapping = Some y
         /\ cfg_scan_interval a = Some scan
         /\ cfg_debug a = Some (debug (settings c))
         /\ cfg_apikey b = Some (api_key c)
         /\ cfg_default_format y = Some (ytdl_format (settings c))
         /\ cfg_merge_output_format y = Some (ytdl_merge_output_format (settings c))
         /\ cfg_series mapping = Some (wanted_series (settings c)).
Proof.
  cbn zeta. rewrite construct_result.
  destruct (path_exists env (abspath env (abspath env (CONFIGFILE boot)))).
  2: { split; [split; [intros (c & s & H); discriminate | intros [H _]; discriminate]|].
       split; [intros e; split; [discriminate | intros [H _]; discriminate]|].
       split; [split; eauto | intros c s H; discriminate]. }
  destruct (config_yml boot) as [cfg|ex].
  2: { split; [split; [intros (c & s & H); discriminate
                      | intros (_ & m & H & _); discriminate]|].
       split; [intros e; split; [intros [= <-]; auto | intros [_ [= <-]]; reflexivity]|].
       split; [split; [intros [m H]; discriminate
                      | intros [H|(cfg & H & _)]; discriminate]|].
       intros c s H; discriminate. }
  pose proof (init_done_iff SCANINTERVAL cfg) as Hiff.
  split; [|split; [|split]].
  - rewrite Hiff. split.
    + intros (m & -> & Hm). eauto.
    + intros (_ & m & [= ->] & Hm). eauto.
  - intros e. split; [intros H; exfalso; exact (init_not_failed _ _ _ H)|].
    intros [_ H]. discriminate.
  - destruct (fst (init SCANINTERVAL cfg)) as [[c scan]|e|message] eqn:Hr.
    + split; [intros [m Hm]; discriminate|].
      intros [H|(cfg' & [= <-] & Hn)]; [discriminate|].
      exfalso. apply Hn, Hiff. eauto.
    + exfalso. exact (init_not_failed _ _ _ Hr).
    + split; [|eauto]. intros _. right. exists cfg. split; [reflexivity|].
      intros Hc. apply Hiff in Hc as (c & scan & H). discriminate.
  - intros c scan H. apply init_values in H
      as (m & a & b & y & ssl & host & port & -> & Ha & Hb & Hy & Hi & Hd & Hs & Hh & Hp
          & Hk & Hf & Hm & Hw & _).
    exists m, a, b, y. auto 15.
Qed.

(** ** One pass *)

Lemma in_calls (ev : event) (tr : list event) :
  In ev (calls tr) <-> In ev tr /\ is_log ev = false.
Proof. unfold calls. rewrite filter_In. now rewrite negb_true_iff. Qed.

Lemma calls_logs {A} (msg : A -> event) (l : list A) :
  (forall x, is_log (msg x) = true) -> calls (map msg l) = [].
Proof.
  intros H. induction l as [|x l IH]; [reflexivity|].
  cbn [map calls List.filter]. rewrite H. exact IH.
Qed.

Lemma calls_filterseries (self : SonarrYTDL) (env : Env) :
  calls (snd (filterseries self env)) = [GetSeries].
Proof.
  unfold filterseries. rewrite calls_bind. cbn [emit fst snd calls List.filter is_log negb app].
  rewrite calls_bind. destruct (get_series env) as [series0|ex]; [|reflexivity].
  cbn [lift fst snd calls List.filter app]. rewrite calls_bind, warnings_trace.
  cbn [fst snd]. rewrite calls_logs by reflexivity. reflexivity.
Qed.

Lemma in_enumerate_from {A} (i : Z) (xs : list A) (p : Z * A) :
  In p (enumerate_from i xs) -> In (snd p) xs.
Proof.
  revert i. induction xs as [|x xs IH]; intros i; [intros []|].
  intros [<-|H]; [now left | right; eauto].
Qed.

(** Every call of [download] is a call for one of its pairs. *)
Lemma download_call_origin (self : SonarrYTDL) (env : Env)
    (series0 : list series) (episodes : list episode) (ev : event) :
  In ev (calls (snd (download self env series0 episodes))) ->
  exists ser e eps,
    In ser series0 /\ In eps episodes /\ ser_id ser = eps_seriesId eps
    /\ In ev (calls (snd (download_episode self env ser e eps))).
Proof.
  intros Hin. destruct (download_calls_exact self env series0 episodes) as [Hc _].
  rewrite Hc in Hin. apply in_flat_map in Hin as ([ser [e eps]] & Hp & Hev).
  apply run_until_In in Hp.
  unfold pairs in Hp. apply in_flat_map in Hp as (ser0 & Hser & Hp).
  apply in_map_iff in Hp as (q & Heq & Hq). injection Heq as -> ->.
  apply filter_In in Hq as [Hq Hid].
  exists ser, e, eps. split; [exact Hser|].
  split; [exact (in_enumerate_from _ _ _ Hq)|].
  split; [now apply Z.eqb_eq in Hid | exact Hev].
Qed.

(** The search made for a pair is on the URL of the series, with the
    pattern of the displayed title. *)
Lemma download_episode_search_event (self : SonarrYTDL) (env : Env) (ser : series)
    (e : Z) (eps : episode) (opts : gmap string val) (url : string) :
  In (ExtractInfo opts url) (calls (snd (download_episode self env ser e eps))) ->
  ser_url ser = Some url
  /\ opts !! "matchtitle" = Some (VStr (upperescape (display_title ser eps))).
Proof.
  unfold download_episode.
  destruct (ser_url ser) as [url0|]; [|intros []].
  destruct (ser_playlistreverse ser) as [plr|]; [|intros []].
  rewrite calls_bind. cbn [getitem lift fst snd calls List.filter app].
  rewrite calls_bind. cbn [getitem lift fst snd calls List.filter app].
  destruct (search_opts_returns self env (upperescape (display_title ser eps)) plr
              (ser_cookies_file ser)) as (opts0 & tr & Ho).
  rewrite calls_bind, calls_search_opts, Ho. cbn [fst app].
  rewrite calls_bind, calls_ytsearch. cbn [app].
  intros [[= <- <-]|Hin].
  - split; [reflexivity|]. eapply search_opts_matchtitle. rewrite Ho. reflexivity.
  - exfalso.
    destruct (fst (ytsearch env opts0 url0)) as [[[[|] dlurl]|]|ex]; try (now destruct Hin).
    rewrite calls_bind in Hin. cbn [emit fst snd calls List.filter is_log negb app] in Hin.
    rewrite calls_bind, calls_format_options in Hin. cbn [app] in Hin.
    destruct (fst (ytdl_format_options self env ser eps (ser_cookies_file ser))) as [o|ex];
      [|destruct Hin].
    rewrite calls_transfer in Hin. destruct Hin as [Hin|Hin]; [discriminate|].
    destruct (ydl_download env o [dlurl]); [destruct Hin as [Hin|[]]; discriminate | destruct Hin].
Qed.

Lemma matched_of_unconfigured (wnts : list wanted) (series0 : list series) :
  (forall ser, In ser series0 -> ~ In (ser_title ser) (map w_title wnts)) ->
  matched_of wnts series0 = [].
Proof.
  intros H. destruct (matched_of wnts series0) as [|m l] eqn:Hm; [reflexivity|].
  exfalso. assert (Hin : In m (matched_of wnts series0)) by (rewrite Hm; now left).
  apply matched_of_In in Hin as (ser & Hser & Hne & _).
  destruct (entries_for wnts (ser_title ser)) as [|wnt ws] eqn:He; [congruence|].
  assert (Hw : In wnt (entries_for wnts (ser_title ser))) by (rewrite He; now left).
  apply entries_for_In in Hw as [Hw Ht]. apply (H ser Hser). rewrite <- Ht.
  now apply in_map.
Qed.

(** The calls and the traces of start-up. *)
Lemma checkconfig_done (boot : Boot) (env : Env) (cfg : option config) (tr : list event) :
  checkconfig boot env = (Done cfg, tr) ->
  config_yml boot = Ret cfg /\ tr = [Log INFO "Configuration Found. Loading file."].
Proof.
  unfold checkconfig. destruct (negb _); [discriminate|].
  destruct (config_yml boot) as [cfg'|ex]; [|discriminate].
  intros [= <- <-]. auto.
Qed.

Lemma init_done_trace (SCANINTERVAL : Z) (cfg : option config) (c : client) (scan : Z) :
  fst (init SCANINTERVAL cfg) = Done (c, scan) ->
  List.filter is_notice (snd (init SCANINTERVAL cfg)) = snd (set_scan_interval SCANINTERVAL scan)
  /\ calls (snd (init SCANINTERVAL cfg)) = [].
Proof.
  intros H. apply init_values in H
    as (m & a & b & y & ssl & host & port & -> & Ha & Hb & Hy & Hi & Hd & Hs & Hh & Hp
        & Hk & Hf & Hm & Hw & _).
  unfold init, init_sonarrytdl, init_sonarr, init_format, init_merge_format, init_series,
    section, set_scan_interval.
  rewrite Ha, Hb, Hy, Hw. cbn. rewrite Hi, Hs, Hh, Hp, Hk, Hf, Hm, Hd. cbn.
  destruct (negb (scan =? SCANINTERVAL)), (debug (settings c)),
    (String.eqb (lower match cfg_version b with Some v => v | None => "" end) "v4");
    split; reflexivity.
Qed.

(** A pass that got through start-up. *)
Lemma main_started (SCANINTERVAL : Z) (boot : Boot) (env : Env) (c : client) (scan : Z)
    (tr0 : list event) :
  construct SCANINTERVAL boot env = (Done (c, scan), tr0) ->
  main SCANINTERVAL boot env =
    (match fst (main_pass (settings c) env) with
     | Ret _ => Done scan
     | Raise e => Failed e
     end, (tr0 ++ snd (main_pass (settings c) env))%list)
  /\ List.filter is_notice tr0 =
       Log INFO "Configuration Found. Loading file." :: snd (set_scan_interval SCANINTERVAL scan)
  /\ calls tr0 = [].
Proof.
  intros H. split.
  - unfold main. rewrite H. now destruct (main_pass (settings c) env) as [[[]|e] tr].
  - unfold construct in H.
    destruct (checkconfig boot env) as [[cfg|e|m] tr] eqn:Hc; try discriminate.
    apply checkconfig_done in Hc as [_ ->].
    destruct (init SCANINTERVAL cfg) as [r tr'] eqn:Hi. injection H as -> <-.
    destruct (init_done_trace SCANINTERVAL cfg c scan) as [Hn Hcalls];
      [now rewrite Hi|].
    rewrite Hi in Hn, Hcalls. cbn [snd] in Hn, Hcalls.
    cbn [app List.filter is_notice calls is_log negb]. rewrite Hn. auto.
Qed.

Lemma guarded_logs {A B} (body : M A) (logged message : option string)
    (rest : A -> result B * list event) :
  (forall ev, In ev (snd body) -> is_log ev = true) ->
  (forall a ev, In ev (snd (rest a)) -> is_log ev = true) ->
  forall ev, In ev (snd (guarded body logged message rest)) -> is_log ev = true.
Proof.
  intros Hb Hr ev. unfold guarded. destruct body as [[a|e] tr]; cbn [snd] in *.
  - specialize (Hr a). destruct (rest a) as [r tr']. cbn [snd] in *.
    intros H. apply in_app_or in H as [H|H]; auto.
  - intros H. apply in_app_or in H as [H|H]; [auto|].
    destruct logged; [destruct H as [<-|[]]; reflexivity | destruct H].
Qed.

Lemma init_logs (SCANINTERVAL : Z) (cfg : option config) (ev : event) :
  In ev (snd (init SCANINTERVAL cfg)) -> is_log ev = true.
Proof.
  unfold init. apply guarded_logs.
  { clear ev. intros ev. unfold init_sonarrytdl, set_scan_interval, section.
    destruct cfg as [mapping|]; cbn; [|intros []].
    destruct (cfg_sonarrytdl mapping) as [a|]; cbn; [|intros []].
    destruct (cfg_scan_interval a) as [i|]; cbn; [|intros []].
    destruct (negb (i =? SCANINTERVAL)), (cfg_debug a) as [[|]|]; cbn;
      intros H; repeat destruct H as [<-|H]; try destruct H; reflexivity. }
  intros [scan debug0]. apply guarded_logs.
  { clear ev. intros ev. unfold init_sonarr, section.
    destruct cfg as [mapping|]; cbn; [|intros []].
    destruct (cfg_sonarr mapping) as [b|]; cbn; [|intros []].
    destruct (String.eqb _ "v4"), (cfg_ssl b), (cfg_host b), (cfg_port b), (cfg_apikey b); cbn;
      intros H; repeat destruct H as [<-|H]; try destruct H; reflexivity. }
  intros [[url api] apikey]. apply guarded_logs.
  { clear ev. intros ev. unfold init_format, section.
    destruct cfg as [mapping|]; cbn; [|intros []].
    destruct (cfg_ytdl mapping) as [y|]; cbn; [|intros []].
    destruct (cfg_default_format y); intros []. }
  intros format. apply guarded_logs.
  { clear ev. intros ev. unfold init_merge_format, section.
    destruct cfg as [mapping|]; cbn; [|intros []].
    destruct (cfg_ytdl mapping) as [y|]; cbn; [|intros []].
    destruct (cfg_merge_output_format y); intros []. }
  intros merge. apply guarded_logs.
  { clear ev. intros ev. unfold init_series, section.
    destruct cfg as [mapping|]; cbn; [|intros []].
    destruct (cfg_series mapping); intros []. }
  intros wanted0 ev' [].
Qed.

(** Start-up searches and transfers nothing. *)
Lemma construct_events (SCANINTERVAL : Z) (boot : Boot) (env : Env) (ev : event) :
  In ev (snd (construct SCANINTERVAL boot env)) ->
  is_log ev = true \/ exists command, ev = System command.
Proof.
  unfold construct, checkconfig.
  destruct (negb (path_exists env (abspath env (abspath env (CONFIGFILE boot))))).
  - cbn [snd]. destruct (negb (path_exists env _)); cbn;
      intros H; repeat destruct H as [<-|H]; try destruct H; eauto.
  - destruct (config_yml boot) as [cfg|ex].
    + pose proof (init_logs SCANINTERVAL cfg ev) as Hl.
      destruct (init SCANINTERVAL cfg) as [r tr']. cbn [snd] in *.
      intros [<-|H]; [now left | left; auto].
    + cbn [snd]. intros [<-|[]]. now left.
Qed.

(** X20. A pass with nothing to do.  When start-up gets through and no
    series the media manager lists has a configured title, [main] asks for
    the listing and makes no other call: no episode list, no search, no
    transfer.  It returns, and the records it logs at level INFO or above
    are the line of [checkconfig], the line of [set_scan_interval], then
    the line that there is nothing to process and the line that it
    waits. *)
Theorem main_nothing_configured (SCANINTERVAL : Z) (boot : Boot) (env : Env)
    (c : client) (scan : Z) (tr0 : list event) (series0 : list series) :
  construct SCANINTERVAL boot env = (Done (c, scan), tr0) ->
  get_series env = Ret series0 ->
  (forall ser, In ser series0 ->
     ~ In (ser_title ser) (map w_title (wanted_series (settings c)))) ->
  fst (main SCANINTERVAL boot env) = Done scan
  /\ calls (snd (main SCANINTERVAL boot env)) = [GetSeries]
  /\ List.filter is_notice (snd (main SCANINTERVAL boot env)) =
       (Log INFO "Configuration Found. Loading file."
        :: snd (set_scan_interval SCANINTERVAL scan)
        ++ [Log INFO "Nothing to process"; Log INFO "Waiting..."])%list.
Proof.
  intros Hc Hg Hnone.
  destruct (main_started SCANINTERVAL boot env c scan tr0 Hc) as (Hm & Hn & Hcalls).
  assert (Hpass : main_pass (settings c) env =
                  (Ret tt, [GetSeries; Log INFO "Nothing to process"; Log INFO "Waiting..."])).
  { unfold main_pass, filterseries. rewrite Hg. cbn [bind emit lift].
    rewrite (matched_of_unconfigured _ _ Hnone). reflexivity. }
  rewrite Hm, Hpass. cbn [fst snd]. split; [reflexivity|].
  unfold calls in *. rewrite !List.filter_app, Hcalls, Hn. split; reflexivity.
Qed.

Lemma main_nothing_configured_witness :
  let env := env_started (env_listing [Scenario.remote 7 "Other Show" "/tv/Other Show"]) in
  let boot := boot_of (config_of (Some false) None [Scenario.wanted_show]) in
  fst (main 60 boot env) = Done 30
  /\ calls (snd (main 60 boot env)) = [GetSeries]
  /\ List.filter is_notice (snd (main 60 boot env)) =
       [Log INFO "Configuration Found. Loading file.";
        Log INFO "Scan interval set to every 30 minutes by config.yml";
        Log INFO "Nothing to process"; Log INFO "Waiting..."].
Proof.
  intros env boot.
  destruct (construct 60 boot env) as [[[c scan]|e|m] tr0] eqn:Hc;
    try (vm_compute in Hc; discriminate).
  assert (Hscan : scan = 30) by (vm_compute in Hc; congruence).
  subst scan.
  refine (main_nothing_configured 60 boot env c 30 tr0
            [Scenario.remote 7 "Other Show" "/tv/Other Show"] Hc eq_refl _).
  vm_compute in Hc. injection Hc as <- _.
  intros ser [<-|[]] [H|[]]. discriminate H.
Defined.

(** X21. What a pass searches for and transfers.  Every search and every
    transfer of [main] is made after start-up got through, for a series of
    the list [filterseries] returned and an episode that the media manager
    listed as monitored and without a file and that has aired: it has no
    air date, or the date [strptime] reads from it, shifted by the weeks,
    days, hours and minutes of the offset of the series it is listed under,
    is not after [now].  The title is the rewritten one; the search is on
    the URL of the series with the pattern of the displayed title, the
    transfer goes to the output path of the pair. *)
Theorem main_works_on_due_episodes (SCANINTERVAL : Z) (boot : Boot) (env : Env)
    (ev : event) :
  In ev (snd (main SCANINTERVAL boot env)) ->
  is_search ev = true \/ is_transfer ev = true ->
  exists c scan matched ser ser' episodes eps0 eps,
    fst (construct SCANINTERVAL boot env) = Done (c, scan)
    /\ fst (filterseries (settings c) env) = Ret matched
    /\ In ser matched /\ In ser' matched
    /\ get_episodes_by_series_id env (ser_id ser') = Ret episodes
    /\ In eps0 episodes
    /\ eps_monitored eps0 = true /\ eps_hasFile eps0 = false
    /\ match eps_airDateUtc eps0 with
       | None => True
       | Some text => exists t, strptime env text = Ret t /\ t + shift_of ser' <= now env
       end
    /\ rewrite_title env ser' eps0 = Ret eps
    /\ ser_id ser = eps_seriesId eps
    /\ match ev with
       | ExtractInfo opts url =>
           ser_url ser = Some url
           /\ opts !! "matchtitle" = Some (VStr (upperescape (display_title ser eps)))
       | Download opts urls => opts !! "outtmpl" = Some (VStr (outtmpl ser eps))
       | _ => True
       end.
Proof.
  intros Hin Hkind.
  assert (Hnolog : is_log ev = false)
    by (destruct ev; try reflexivity; destruct Hkind; discriminate).
  assert (Hnosys : forall command, ev <> System command)
    by (intros command ->; destruct Hkind; discriminate).
  destruct (construct SCANINTERVAL boot env) as [[[c scan]|e|m] tr0] eqn:Hc.
  2, 3: exfalso; unfold main in Hin; rewrite Hc in Hin; cbn [snd] in Hin;
        assert (Hev : In ev (snd (construct SCANINTERVAL boot env))) by (now rewrite Hc);
        apply construct_events in Hev as [Hev|[command Hev]];
        [congruence | exact (Hnosys _ Hev)].
  destruct (main_started SCANINTERVAL boot env c scan tr0 Hc) as (Hm & _ & Hcalls).
  rewrite Hm in Hin. cbn [snd] in Hin.
  assert (Hpass : In ev (calls (snd (main_pass (settings c) env)))).
  { apply in_app_or in Hin as [Hin|Hin].
    - exfalso. assert (Hev : In ev (calls tr0)) by (apply in_calls; auto).
      rewrite Hcalls in Hev. destruct Hev.
    - apply in_calls. auto. }
  clear Hin. unfold main_pass in Hpass. rewrite calls_bind, calls_filterseries in Hpass.
  destruct Hpass as [<-|Hpass]; [destruct Hkind; discriminate|]. cbn [app] in Hpass.
  destruct (fst (filterseries (settings c) env)) as [matched|] eqn:Hf; [|destruct Hpass].
  rewrite calls_bind in Hpass. apply in_app_or in Hpass as [Hpass|Hpass].
  { exfalso. destruct (series_loop_calls env matched matched []) as [Hq _].
    fold (getseriesepisodes env matched) in Hq. rewrite Hq in Hpass.
    apply in_map_iff in Hpass as (s & <- & _). destruct Hkind; discriminate. }
  destruct (fst (getseriesepisodes env matched)) as [[series1 needed]|] eqn:Hg;
    cbn beta iota in Hpass; [|contradiction].
  apply surjective_pairing_ret, getseriesepisodes_result in Hg as (_ & -> & ->).
  rewrite calls_bind in Hpass. apply in_app_or in Hpass as [Hpass|Hpass].
  2: { exfalso. destruct (fst (download (settings c) env _ _)); now destruct Hpass. }
  apply download_call_origin in Hpass as (ser & e & eps & Hser & Heps & Hid & Hev).
  apply filter_In in Hser as [Hser _].
  apply needed_origin in Heps
    as (ser' & episodes & eps0 & Hser' & Hget & Heps0 & Hdue & Hrw).
  pose proof (due_aired env ser' eps0 Hdue) as Haired.
  destruct Hdue as (Hmon & Hfile & _).
  exists c, scan, matched, ser, ser', episodes, eps0, eps.
  repeat (split; [assumption || reflexivity|]).
  destruct ev; try exact I.
  - now apply download_episode_search_event in Hev.
  - apply in_calls in Hev as [Hev _]. now apply download_episode_outtmpl in Hev.
Qed.

Lemma main_works_on_due_episodes_witness :
  let env := env_started Dated.env in
  let boot := boot_of (config_of (Some false) None [Dated.wanted_delayed]) in
  let ev := nth 0 (List.filter is_transfer (snd (main 60 boot env))) GetSeries in
  exists eps,
    In eps [Scenario.pilot; Scenario.second]
    /\ match ev with
       | Download opts _ => opts !! "outtmpl" = Some (VStr (outtmpl Dated.delayed eps))
       | _ => False
       end.
Proof.
  intros env boot ev.
  destruct (main_works_on_due_episodes 60 boot env ev)
    as (c & scan & matched & ser & ser' & episodes & eps0 & eps & Hc & Hf & Hser & Hser'
        & Hget & Heps0 & Hmon & Hfile & Haired & Hrw & _ & Hev).
  - refine (proj1 (proj1 (filter_In is_transfer ev _) _)).
    apply nth_In, Nat.ltb_lt. vm_compute. reflexivity.
  - right. vm_compute. reflexivity.
  - vm_compute in Hc. injection Hc as <- _.
    vm_compute in Hf. injection Hf as <-.
    destruct Hser as [<-|[]]. destruct Hser' as [<-|[]].
    injection Hget as <-. injection Hrw as <-.
    exists eps0. split.
    + destruct Heps0 as [<-|[<-|[<-|[<-|[<-|[<-|[]]]]]]];
        try discriminate; try (now left); try (right; now left);
        exfalso; destruct Haired as (t & [= <-] & Hle); vm_compute in Hle; now apply Hle.
    + subst ev. exact Hev.
Defined.
